(** * pycargoebuild: the recipe generator ([pycargoebuild/ebuild.py])

    A shallow embedding of [cargo_to_spdx] and [get_ebuild], of the
    collaborators they call, and of the recipe patcher that the test-suite
    exercises, together with the properties stated about them. *)

From Stdlib Require Import ZArith NArith Lia Ascii String List Permutation DecimalString.
From stdpp Require Import base gmap sets list strings sorting.

Set Warnings "-register-all".

(** ** Python strings *)

Module Str.

Definition tab : string := String "009"%char EmptyString.
Definition nl : string := String "010"%char EmptyString.
Definition dquote : string := String "034"%char EmptyString.
Definition squote : string := String "039"%char EmptyString.

(** [c in s] for a one-character [c]. *)
Fixpoint occurs (c : ascii) (s : string) : bool :=
  match s with
  | EmptyString => false
  | String a s' => if Ascii.eqb a c then true else occurs c s'
  end.

(** [s.startswith(p)] *)
Fixpoint startswith (p s : string) : bool :=
  match p, s with
  | EmptyString, _ => true
  | String a p', String b s' => if Ascii.eqb a b then startswith p' s' else false
  | String _ _, EmptyString => false
  end.

(** [s.endswith(c)] for a one-character [c]. *)
Fixpoint endswith_char (c : ascii) (s : string) : bool :=
  match s with
  | EmptyString => false
  | String a EmptyString => Ascii.eqb a c
  | String _ s' => endswith_char c s'
  end.

(** [sep.join(l)] *)
Fixpoint join (sep : string) (l : list string) : string :=
  match l with
  | [] => ""
  | [x] => x
  | x :: l' => x +:+ sep +:+ join sep l'
  end.

(** [s.split(c)] for a one-character separator: never empty, and
    [join c (split c s) = s]. *)
Fixpoint split (c : ascii) (s : string) : list string :=
  match s with
  | EmptyString => [""]
  | String a s' =>
      if Ascii.eqb a c then "" :: split c s'
      else match split c s' with
           | w :: ws => String a w :: ws
           | [] => [String a ""]
           end
  end.

(** [s.replace(old, new)]: the non-overlapping occurrences of [old], leftmost
    first, are replaced.  [skip] counts the characters of a matched
    occurrence that are still to be dropped. *)
Fixpoint replace_go (old new : string) (skip : nat) (s : string) : string :=
  match s with
  | EmptyString => ""
  | String a s' =>
      match skip with
      | S k => replace_go old new k s'
      | O =>
          if startswith old s
          then new +:+ replace_go old new (String.length old - 1) s'
          else String a (replace_go old new 0 s')
      end
  end.

Definition replace (old new s : string) : string :=
  match old with
  | EmptyString => s   (* never called with an empty pattern here *)
  | _ => replace_go old new 0 s
  end.

(** ASCII upper-casing (keyword matching is case-insensitive). *)
Definition upper_char (a : ascii) : ascii :=
  let n := nat_of_ascii a in
  if (97 <=? n)%nat && (n <=? 122)%nat then ascii_of_nat (n - 32) else a.

Fixpoint upper (s : string) : string :=
  match s with
  | EmptyString => ""
  | String a s' => String (upper_char a) (upper s')
  end.

Fixpoint strip_left (s : string) : string :=
  match s with
  | String a s' => if Ascii.is_space a then strip_left s' else s
  | EmptyString => ""
  end.

End Str.

(** ** [cargo_to_spdx] (ebuild.py, lines 48-52) *)

Definition cargo_to_spdx (license_str : string) : string :=
  Str.replace "/" " OR " license_str.

(** ** License expressions

    The expression trees of the [license_expression] package, for the
    fragment that license fields use: license symbols joined by [AND] and
    [OR]. *)

Inductive Expr : Type :=
| Sym (key : string)
| And (args : list Expr)
| Or (args : list Expr).

(** What [Licensing.parse] hands back: it raises on a malformed expression,
    and returns [None] for an empty or blank one. *)
Inductive ParseResult : Type :=
| ParseError
| ParseNone
| Parsed (e : Expr).

(** The two operations of the package that [get_ebuild] calls. *)
Record Licensing : Type := {
  parse : string -> ParseResult;      (* spdx.parse(s, validate=True, strict=True) *)
  simplify : Expr -> Expr             (* expression.simplify() *)
}.

(** A model of the [license_expression] package for that fragment: words
    separated by blanks and parentheses, the keywords [AND], [OR] and
    [WITH], and the simplification that flattens, drops duplicates and
    sorts.  An empty or blank expression parses to [None]. *)
Module LicenseExpression.

Inductive token : Type :=
| TOpen | TClose | TAnd | TOr | TWith
| TWord (w : string).

Definition classify (w : string) : token :=
  let u := Str.upper w in
  if String.eqb u "AND" then TAnd
  else if String.eqb u "OR" then TOr
  else if String.eqb u "WITH" then TWith
  else TWord w.

Definition flush (cur : string) : list token :=
  match cur with
  | EmptyString => []
  | _ => [classify (String.rev cur)]
  end.

(** Words are maximal runs of characters other than blanks and
    parentheses; [cur] holds the current word, reversed. *)
Fixpoint tokenize_go (cur : string) (s : string) : list token :=
  match s with
  | EmptyString => flush cur
  | String a s' =>
      if Ascii.is_space a then flush cur ++ tokenize_go "" s'
      else if Ascii.eqb a "("%char then flush cur ++ TOpen :: tokenize_go "" s'
      else if Ascii.eqb a ")"%char then flush cur ++ TClose :: tokenize_go "" s'
      else tokenize_go (String a cur) s'
  end.

Definition tokenize (s : string) : list token := tokenize_go "" s.

(** A chain without parentheses becomes one n-ary node; a chain of one
    operand is that operand. *)
Definition chain (node : list Expr -> Expr) (es : list Expr) : Expr :=
  match es with
  | [e] => e
  | _ => node es
  end.

(** Recursive descent, [AND] binding tighter than [OR]; [p_or] and
    [p_and] return the operands of the chain they read. *)
Fixpoint p_or (fuel : nat) (ts : list token) : option (list Expr * list token) :=
  match fuel with
  | O => None
  | S f =>
      match p_and f ts with
      | Some (fs, TOr :: r) =>
          match p_or f r with
          | Some (es, r') => Some (chain And fs :: es, r')
          | None => None
          end
      | Some (fs, r) => Some ([chain And fs], r)
      | None => None
      end
  end
with p_and (fuel : nat) (ts : list token) : option (list Expr * list token) :=
  match fuel with
  | O => None
  | S f =>
      match p_atom f ts with
      | Some (e, TAnd :: r) =>
          match p_and f r with
          | Some (es, r') => Some (e :: es, r')
          | None => None
          end
      | Some (e, r) => Some ([e], r)
      | None => None
      end
  end
with p_atom (fuel : nat) (ts : list token) : option (Expr * list token) :=
  match fuel with
  | O => None
  | S f =>
      match ts with
      | TWord w :: TWith :: TWord x :: r => Some (Sym (w +:+ " WITH " +:+ x), r)
      | TWord w :: r => Some (Sym w, r)
      | TOpen :: r =>
          match p_or f r with
          | Some (es, TClose :: r') => Some (chain Or es, r')
          | _ => None
          end
      | _ => None
      end
  end.

Definition parse_tokens (ts : list token) : option Expr :=
  match p_or (3 * length ts + 3) ts with
  | Some (es, []) => Some (chain Or es)
  | _ => None
  end.

Definition parse (s : string) : ParseResult :=
  match Str.strip_left s with
  | EmptyString => ParseNone
  | _ => match parse_tokens (tokenize s) with
         | Some e => Parsed e
         | None => ParseError
         end
  end.

(** *** Simplification: flatten, drop duplicates, sort *)

Fixpoint expr_eqb (a b : Expr) {struct a} : bool :=
  match a, b with
  | Sym x, Sym y => String.eqb x y
  | And xs, And ys | Or xs, Or ys =>
      (fix go (xs ys : list Expr) {struct xs} : bool :=
         match xs, ys with
         | [], [] => true
         | x :: xs', y :: ys' => expr_eqb x y && go xs' ys'
         | _, _ => false
         end) xs ys
  | _, _ => false
  end.

Definition is_and (e : Expr) : bool := match e with And _ => true | _ => false end.
Definition is_or (e : Expr) : bool := match e with Or _ => true | _ => false end.

Definition operands (same : Expr -> bool) (e : Expr) : list Expr :=
  if same e then match e with And l | Or l => l | Sym _ => [e] end else [e].

Fixpoint dedup (l : list Expr) : list Expr :=
  match l with
  | [] => []
  | x :: l' => x :: filter (fun y => negb (expr_eqb x y)) (dedup l')
  end.

(** The order used for sorting: symbols first, by key, then [AND] nodes,
    then [OR] nodes, nodes of one kind by their operands. *)
Definition rank (e : Expr) : nat :=
  match e with Sym _ => 0 | And _ => 1 | Or _ => 2 end.

Fixpoint expr_cmp (a b : Expr) {struct a} : comparison :=
  match a, b with
  | Sym x, Sym y => String.compare x y
  | And xs, And ys | Or xs, Or ys =>
      (fix go (xs ys : list Expr) {struct xs} : comparison :=
         match xs, ys with
         | [], [] => Eq
         | [], _ :: _ => Lt
         | _ :: _, [] => Gt
         | x :: xs', y :: ys' =>
             match expr_cmp x y with
             | Eq => go xs' ys'
             | c => c
             end
         end) xs ys
  | _, _ => Nat.compare (rank a) (rank b)
  end.

Definition expr_leb (a b : Expr) : bool :=
  match expr_cmp a b with Gt => false | _ => true end.

Fixpoint insert_sorted (x : Expr) (l : list Expr) : list Expr :=
  match l with
  | [] => [x]
  | y :: l' => if expr_leb x y then x :: l else y :: insert_sorted x l'
  end.

Definition sort (l : list Expr) : list Expr := foldr insert_sorted [] l.

Fixpoint simplify (e : Expr) : Expr :=
  match e with
  | Sym k => Sym k
  | And args =>
      chain And (sort (dedup (concat (map (operands is_and) (map simplify args)))))
  | Or args =>
      chain Or (sort (dedup (concat (map (operands is_or) (map simplify args)))))
  end.

End LicenseExpression.

(** The instance of [LicenseExpression], used to run the generator on
    concrete inputs. *)
Definition spdx : Licensing :=
  {| parse := LicenseExpression.parse; simplify := LicenseExpression.simplify |}.

(** Modelled from the spec: [spdx_to_ebuild] of [pycargoebuild/license.py] is
    not part of the available sources.  Section 4.1: a single atom renders as
    itself; an OR-chain renders as [|| ( a1 a2 ... aN )]; an AND-chain renders
    its operands joined by blanks, and is parenthesized where it is an operand
    of an OR-chain. *)
Fixpoint render (in_or : bool) (e : Expr) : list string :=
  match e with
  | Sym k => [k]
  | And args =>
      (if in_or then ["("] else []) ++ concat (map (render false) args)
        ++ (if in_or then [")"] else [])
  | Or args => ["||"; "("] ++ concat (map (render true) args) ++ [")"]
  end.

(** Modelled from the spec: [spdx_to_ebuild] (section 4.1), the rendering
    on one line. *)
Definition spdx_to_ebuild (e : Expr) : string := Str.join " " (render false e).

(** The license symbols of an expression, left to right. *)
Fixpoint symbols (e : Expr) : list string :=
  match e with
  | Sym k => [k]
  | And args | Or args => concat (map symbols args)
  end.

(** ** [hashlib.sha256] (FIPS 180-4), on 32-bit words held in [N] *)

Module SHA256.

Local Open Scope N_scope.

Definition mask32 : N := 0xFFFFFFFF.
Definition add32 (a b : N) : N := N.land (a + b) mask32.
Definition rotr (n x : N) : N :=
  N.lor (N.shiftr x n) (N.land (N.shiftl x (32 - n)) mask32).
Definition not32 (x : N) : N := N.lxor x mask32.

Definition Ch (x y z : N) : N := N.lxor (N.land x y) (N.land (not32 x) z).
Definition Maj (x y z : N) : N :=
  N.lxor (N.lxor (N.land x y) (N.land x z)) (N.land y z).
Definition bsig0 (x : N) : N := N.lxor (N.lxor (rotr 2 x) (rotr 13 x)) (rotr 22 x).
Definition bsig1 (x : N) : N := N.lxor (N.lxor (rotr 6 x) (rotr 11 x)) (rotr 25 x).
Definition ssig0 (x : N) : N := N.lxor (N.lxor (rotr 7 x) (rotr 18 x)) (N.shiftr x 3).
Definition ssig1 (x : N) : N := N.lxor (N.lxor (rotr 17 x) (rotr 19 x)) (N.shiftr x 10).

(** The first sixty-four primes. *)
Definition primes : list N :=
  [ 2; 3; 5; 7; 11; 13; 17; 19; 23; 29; 31; 37; 41; 43; 47; 53;
    59; 61; 67; 71; 73; 79; 83; 89; 97; 101; 103; 107; 109; 113; 127; 131;
    137; 139; 149; 151; 157; 163; 167; 173; 179; 181; 191; 193; 197; 199; 211; 223;
    227; 229; 233; 239; 241; 251; 257; 263; 269; 271; 277; 281; 283; 293; 307; 311 ].

(** The largest [r] below [2 ^ bits] with [r ^ k <= x], bit by bit. *)
Fixpoint root_bits (k : N) (bits : nat) (x r : N) : N :=
  match bits with
  | O => r
  | S b =>
      let c := r + 2 ^ N.of_nat b in
      root_bits k b x (if c ^ k <=? x then c else r)
  end.

(** The first 32 bits of the fractional part of the [k]-th root of [p]. *)
Definition frac_root (k p : N) : N :=
  N.land (root_bits k 40 (p * 2 ^ (32 * k)) 0) mask32.

(** Cube roots of the first sixty-four primes; square roots of the first
    eight. *)
Definition K : list N := Eval vm_compute in map (frac_root 3) primes.
Definition H0 : list N := Eval vm_compute in map (frac_root 2) (firstn 8 primes).

(** Big-endian encoding of [x] on [n] bytes. *)
Fixpoint be_bytes (n : nat) (x : N) : list N :=
  match n with
  | O => []
  | S k => N.land (N.shiftr x (8 * N.of_nat k)) 0xFF :: be_bytes k x
  end.

Definition be_word (bs : list N) : N :=
  fold_left (fun acc b => N.lor (N.shiftl acc 8) b) bs 0.

(** The message, a [1] bit, zeros up to 56 modulo 64, the bit length. *)
Definition pad (msg : list N) : list N :=
  let len := N.of_nat (length msg) in
  let zeros := N.to_nat ((119 - len mod 64) mod 64) in
  msg ++ 0x80 :: repeat 0 zeros ++ be_bytes 8 (8 * len).

(** Cut into groups of [n] items; [fuel] bounds the number of groups. *)
Fixpoint groups {A} (n : nat) (fuel : nat) (l : list A) : list (list A) :=
  match fuel, l with
  | S f, _ :: _ => firstn n l :: groups n f (skipn n l)
  | _, _ => []
  end.

(** The message schedule, latest word first. *)
Fixpoint schedule (n : nat) (r : list N) : list N :=
  match n with
  | O => r
  | S k =>
      let w := add32 (add32 (ssig1 (nth 1 r 0)) (nth 6 r 0))
                     (add32 (ssig0 (nth 14 r 0)) (nth 15 r 0)) in
      schedule k (w :: r)
  end.

Definition round (st : list N) (kw : N * N) : list N :=
  match st with
  | [a; b; c; d; e; f; g; h] =>
      let t1 := add32 (add32 (add32 h (bsig1 e)) (add32 (Ch e f g) (fst kw))) (snd kw) in
      let t2 := add32 (bsig0 a) (Maj a b c) in
      [add32 t1 t2; a; b; c; add32 d t1; e; f; g]
  | _ => st
  end.

Definition compress (h : list N) (block : list N) : list N :=
  let w16 := map be_word (groups 4 16 block) in
  let w := rev (schedule 48 (rev w16)) in
  let st := fold_left round (combine K w) h in
  map (fun p => add32 (fst p) (snd p)) (combine h st).

Definition digest_words (msg : list N) : list N :=
  let p := pad msg in
  fold_left compress (groups 64 (length p) p) H0.

Definition digest (msg : list Byte.byte) : list N :=
  concat (map (be_bytes 4) (digest_words (map Byte.to_N msg))).

Definition hex_digit (n : N) : ascii :=
  if n <? 10 then ascii_of_N (48 + n) else ascii_of_N (87 + n).

Fixpoint hex (bs : list N) : string :=
  match bs with
  | [] => EmptyString
  | b :: bs' => String (hex_digit (N.shiftr b 4)) (String (hex_digit (N.land b 0xF)) (hex bs'))
  end.

(** [hashlib.sha256(msg).hexdigest()] *)
Definition hexdigest (msg : list Byte.byte) : string := hex (digest msg).

End SHA256.

Definition bytes (s : string) : list Byte.byte := String.list_byte_of_string s.

(** ** Manifests, files and the outside world *)

(** A TOML table of string fields, and a document of named tables
    ([cargo_toml["package"]["license"]]). *)
Abbreviation Table := (gmap string string).
Abbreviation TomlDoc := (gmap string (gmap string string)).

(** [Cargo.lock]: the schema version and the list of package tables. *)
Record CargoLock : Type := {
  lock_version : option Z;
  lock_package : option (list Table)
}.

(** A file: its bytes, and what [tarfile] and [tomllib] read out of it:
    [None] when it is no gzip-compressed tar archive, else the TOML document
    of each member ([None] for a member that is not valid TOML). *)
Record File : Type := {
  content : list Byte.byte;
  members : option (gmap string (option TomlDoc))
}.

Record World : Type := {
  files : gmap string File;      (* the file system, by path *)
  remote : gmap string File;     (* what the registry serves, by URL *)
  downloads : list string;       (* the URLs fetched by wget, latest first *)
  year : N;                      (* datetime.date.today().year *)
  set_order : list string -> string -> list string
    (* the order in which the interpreter, with its hash seed, iterates the
       set built by adding these strings, in this order, and then discarding
       that one *)
}.

Inductive PyError : Type :=
| KeyError (key : string)
| AssertionError (msg : string)
| AttributeError (msg : string)
| TypeError (msg : string)
| RuntimeError (msg : string)
| CalledProcessError (cmd : list string)
| FileNotFoundError (path : string)
| ReadError (path : string)          (* tarfile *)
| TOMLDecodeError
| ExpressionError                    (* license_expression *)
| Unfinished.                        (* a loop that did not end within its fuel *)

Inductive Result (A : Type) : Type :=
| Ok (a : A)
| Raise (e : PyError).
Arguments Ok {A} a.
Arguments Raise {A} e.

(** Computations that read and change the world and may raise. *)
Definition M (A : Type) : Type := World -> Result A * World.

Definition ret {A} (a : A) : M A := fun w => (Ok a, w).
Definition raise {A} (e : PyError) : M A := fun w => (Raise e, w).
Definition bind {A B} (m : M A) (k : A -> M B) : M B :=
  fun w => match m w with
           | (Ok a, w') => k a w'
           | (Raise e, w') => (Raise e, w')
           end.

Notation "x <~ m ;; k" := (bind m (fun x => k))
  (at level 100, m at next level, right associativity).
Notation "m ;;; k" := (bind m (fun _ => k))
  (at level 100, right associativity).

(** [d[key]] *)
Definition getitem {V} (d : gmap string V) (key : string) : M V :=
  match d !! key with
  | Some v => ret v
  | None => raise (KeyError key)
  end.

(** [assert cond, msg] *)
Definition assert_ (cond : bool) (msg : string) : M unit :=
  if cond then ret tt else raise (AssertionError msg).

(** [key in d] *)
Definition contains {V} (d : gmap string V) (key : string) : bool :=
  match d !! key with Some _ => true | None => false end.

(** [path.exists()] *)
Definition path_exists (path : string) : M bool :=
  fun w => (Ok (contains (files w) path), w).

(** [subprocess.check_call(["wget", "-O", path, url])]: the download is
    recorded; a failing wget raises, and what it may have left at [path] is
    not modelled. *)
Definition wget (path url : string) : M unit :=
  fun w =>
    let w1 := {| files := files w; remote := remote w;
                 downloads := url :: downloads w; year := year w;
                 set_order := set_order w |} in
    match remote w !! url with
    | Some f => (Ok tt, {| files := <[path := f]> (files w); remote := remote w;
                           downloads := url :: downloads w; year := year w;
                           set_order := set_order w |})
    | None => (Raise (CalledProcessError ["wget"; "-O"; path; url]), w1)
    end.

(** [open(path, "rb")] *)
Definition open_rb (path : string) : M File :=
  fun w => match files w !! path with
           | Some f => (Ok f, w)
           | None => (Raise (FileNotFoundError path), w)
           end.

Definition today_year : M N := fun w => (Ok (year w), w).

(** *** The set of licenses (ebuild.py, lines 78, 98-103)

    A Python [set] of strings, as the distinct strings added to it in the
    order of their first insertion.  The order in which the interpreter
    iterates the set is another matter: it depends on the hash seed and on
    the insertions, and is asked of the world. *)

(** [s.add(x)] *)
Definition set_add (x : string) (s : list string) : list string :=
  if bool_decide (x ∈ s) then s else s ++ [x].

(** [s.discard(x)]: the strings that are left. *)
Definition set_discard (x : string) (s : list string) : list string :=
  List.filter (fun y => negb (String.eqb y x)) s.

(** [order] holds each string of [s] once. *)
Definition is_iteration (order s : list string) : bool :=
  bool_decide (NoDup order)
  && forallb (fun x => bool_decide (x ∈ s)) order
  && forallb (fun x => bool_decide (x ∈ order)) s.

(** [for x in s], after [s.discard(discarded)]: the strings that are left,
    each once, in the order the interpreter chooses. *)
Definition iteration (s : list string) (discarded : string) : M (list string) :=
  fun w =>
    let left := set_discard discarded s in
    let order := set_order w s discarded in
    (Ok (if is_iteration order left then order else left), w).

(** *** The streaming digest (ebuild.py, lines 76-93) *)

(** A [hashlib] object, by what it has been fed so far. *)
Record Hasher : Type := { absorbed : list Byte.byte }.

Definition sha256_new : Hasher := {| absorbed := [] |}.
Definition update (h : Hasher) (data : list Byte.byte) : Hasher :=
  {| absorbed := absorbed h ++ data |}.
Definition hexdigest (h : Hasher) : string := SHA256.hexdigest (absorbed h).

(** [bytearray(128 * 1024)] *)
Definition BUFFER_SIZE : nat := 128 * 1024.

(** [while True: rd = f.readinto(mv); if rd == 0: break;
     hasher.update(mv[:rd])], on the unread part [f] of the file. *)
Fixpoint read_loop (fuel : nat) (bufsize : nat) (f : list Byte.byte) (h : Hasher)
  : option Hasher :=
  match fuel with
  | O => None
  | S k =>
      match firstn bufsize f with
      | [] => Some h
      | rd => read_loop k bufsize (skipn bufsize f) (update h rd)
      end
  end.

Definition hash_file (f : File) : option Hasher :=
  read_loop (S (length (content f))) BUFFER_SIZE (content f) sha256_new.

Definition checksum_message (path got exp : string) : string :=
  "checksum mismatch for " +:+ path +:+ ", got: " +:+ got +:+ ", exp: " +:+ exp.

(** Lines 84-93: hash the file at [path] and compare with [csum]. *)
Definition verify_checksum (path csum : string) : M unit :=
  f <~ open_rb path ;;
  match hash_file f with
  | None => raise Unfinished
  | Some hasher =>
      assert_ (String.eqb (hexdigest hasher) csum)
              (checksum_message path (hexdigest hasher) csum)
  end.

(** Lines 94-97 and the lookup of line 99: the license declared by the
    crate's own manifest. *)
Definition crate_license (path member : string) : M string :=
  f <~ open_rb path ;;
  match members f with
  | None => raise (ReadError path)
  | Some ms =>
      tarf <~ getitem ms member ;;
      match tarf with
      | None => raise TOMLDecodeError
      | Some crate_toml =>
          package <~ getitem crate_toml "package" ;;
          assert_ (negb (contains package "license_file")) "" ;;;
          getitem package "license"
      end
  end.

Definition crate_path (distdir p v : string) : string :=
  distdir +:+ "/" +:+ p +:+ "-" +:+ v +:+ ".crate".

Definition crate_url (p v : string) : string :=
  "https://crates.io/api/v1/crates/" +:+ p +:+ "/" +:+ v +:+ "/download".

(** One turn of the loop of lines 79-99; its last step is
    [crate_licenses.add(cargo_to_spdx(...))]. *)
Definition fetch_crate (distdir : string) (dep : string * string * string)
    (crate_licenses : list string) : M (list string) :=
  let '(p, v, csum) := dep in
  let path := crate_path distdir p v in
  present <~ path_exists path ;;
  (if present then ret tt else wget path (crate_url p v)) ;;;
  verify_checksum path csum ;;;
  license <~ crate_license path (p +:+ "-" +:+ v +:+ "/Cargo.toml") ;;
  ret (set_add (cargo_to_spdx license) crate_licenses).

Fixpoint fetch_crates (distdir : string) (deps : list (string * string * string))
    (crate_licenses : list string) : M (list string) :=
  match deps with
  | [] => ret crate_licenses
  | dep :: deps' =>
      crate_licenses' <~ fetch_crate distdir dep crate_licenses ;;
      fetch_crates distdir deps' crate_licenses'
  end.

(** The set the loop builds from the licenses the crates declare, taken in
    the order of the dependency list. *)
Definition crate_license_set (declared : list string) : list string :=
  foldl (fun acc license => set_add (cargo_to_spdx license) acc) [] declared.

(** ** [get_ebuild] (ebuild.py, lines 55-114) *)

(** Lines 69-71: the packages of the lock file other than the package
    itself. *)
Fixpoint lock_deps (pkgmeta : Table) (packages : list Table)
  : M (list (string * string * string)) :=
  match packages with
  | [] => ret []
  | p :: rest =>
      name <~ getitem p "name" ;;
      self <~ getitem pkgmeta "name" ;;
      if String.eqb name self then lock_deps pkgmeta rest
      else
        v <~ getitem p "version" ;;
        csum <~ getitem p "checksum" ;;
        deps <~ lock_deps pkgmeta rest ;;
        ret ((name, v, csum) :: deps)
  end.

(** Line 72. *)
Definition render_crates (deps : list (string * string * string)) : string :=
  Str.join Str.nl (map (fun d => Str.tab +:+ d.1.1 +:+ "-" +:+ d.1.2) deps).

(** [spdx.parse(s, validate=True, strict=True)] *)
Definition spdx_parse (lic : Licensing) (s : string) : M (option Expr) :=
  match parse lic s with
  | ParseError => raise ExpressionError
  | ParseNone => ret None
  | Parsed e => ret (Some e)
  end.

(** Line 103. *)
Definition combined_license (order : list string) : string :=
  Str.join " AND " (map (fun x => "( " +:+ x +:+ " )") order).

(** Lines 102-105 and the rendering of line 108. *)
Definition crate_license_addendum (lic : Licensing) (pkg_license : string)
    (crate_licenses : list string) : M string :=
  order <~ iteration crate_licenses pkg_license ;;
  parsed_license <~ spdx_parse lic (combined_license order) ;;
  match parsed_license with
  | None => raise (AttributeError "'NoneType' object has no attribute 'simplify'")
  | Some e => ret (spdx_to_ebuild (simplify lic e))
  end.

Definition decimal (n : N) : string := NilZero.string_of_uint (N.to_uint n).

(** [EBUILD_TEMPLATE.format(...)] (lines 20-45) *)
Definition EBUILD_TEMPLATE
    (year prog_version crates description homepage pkg_license crate_licenses : string)
  : string :=
  Str.join Str.nl
    [ "# Copyright " +:+ year +:+ " Gentoo Authors";
      "# Distributed under the terms of the GNU General Public License v2";
      "";
      "# Autogenerated by pycargoebuild " +:+ prog_version;
      "";
      "EAPI=8";
      "";
      "CRATES=" +:+ Str.dquote;
      crates;
      Str.dquote;
      "";
      "inherit cargo";
      "";
      "DESCRIPTION=" +:+ Str.dquote +:+ description +:+ Str.dquote;
      "HOMEPAGE=" +:+ Str.dquote +:+ homepage +:+ Str.dquote;
      "SRC_URI=" +:+ Str.dquote;
      Str.tab +:+ "$(cargo_crate_uris)";
      Str.dquote;
      "";
      "LICENSE=" +:+ Str.dquote +:+ pkg_license +:+ Str.dquote;
      "# Dependent crate licenses";
      "LICENSE+=" +:+ Str.dquote +:+ " " +:+ crate_licenses +:+ Str.dquote;
      "SLOT=" +:+ Str.dquote +:+ "0" +:+ Str.dquote;
      "KEYWORDS=" +:+ Str.dquote +:+ "~amd64" +:+ Str.dquote;
      "" ].

(** [prog_version] stands for [pycargoebuild.__version__], a constant of the
    package's [__init__.py].  Directories are not part of the world, so
    [distdir.mkdir] has no counterpart; what [spdx_to_ebuild] makes of the
    [None] that [spdx.parse] returns for a blank package license is not
    known, and the run is taken to stop there. *)
Definition get_ebuild (lic : Licensing) (prog_version : string)
    (cargo_toml : TomlDoc) (cargo_lock : CargoLock) (distdir : string) : M string :=
  (* get package's license *)
  pkgmeta <~ getitem cargo_toml "package" ;;
  assert_ (negb (contains pkgmeta "license_file")) "" ;;;
  pkg_license <~ getitem pkgmeta "license" ;;
  parsed_pkg_license <~ spdx_parse lic pkg_license ;;
  (* get crate list from Cargo.lock *)
  version <~ match lock_version cargo_lock with
             | Some v => ret v
             | None => raise (KeyError "version")
             end ;;
  assert_ (Z.eqb version 3) "" ;;;
  packages <~ match lock_package cargo_lock with
              | Some ps => ret ps
              | None => raise (KeyError "package")
              end ;;
  deps <~ lock_deps pkgmeta packages ;;
  let crates := render_crates deps in
  (* fetch all crates, verify their checksums and grab licenses *)
  crate_licenses <~ fetch_crates distdir deps [] ;;
  (* build list of (additional) crate licenses *)
  crate_licenses_str <~ crate_license_addendum lic pkg_license crate_licenses ;;
  let description := default "" (pkgmeta !! "description") in
  homepage <~ getitem pkgmeta "homepage" ;;
  pkg_license_str <~ match parsed_pkg_license with
                     | Some e => ret (spdx_to_ebuild e)
                     | None => raise (TypeError "spdx_to_ebuild(None)")
                     end ;;
  y <~ today_year ;;
  ret (EBUILD_TEMPLATE (decimal y) prog_version crates description homepage
                       pkg_license_str crate_licenses_str).

(** A run that ends in an exception. *)
Definition fails {A} (r : Result A * World) : Prop := exists e, r.1 = Raise e.

(** The archive the loop hashes for a crate: the cached file if there is
    one, else what the registry serves. *)
Definition archive (distdir p v : string) (w : World) : option File :=
  match files w !! crate_path distdir p v with
  | Some f => Some f
  | None => remote w !! crate_url p v
  end.

(** ** The recipe patcher

    [update_ebuild] is imported by the test-suite from
    [pycargoebuild/ebuild.py], and the [Crate] classes from
    [pycargoebuild/cargo.py]; neither is part of the available sources.
    The definitions of this part follow sections 3, 4.3 and 9 of the spec:
    the text is scanned once, line by line, into pass-through lines and
    regions, the regions are replaced, and the segments are put together
    again; an artifact whose regions are missing, duplicated or malformed
    is refused (section 7).  What the spec leaves open is taken from the
    test-suite, and so is what the test-suite has otherwise than the
    spec. *)

(** Modelled from the spec: the [Crate] classes of [pycargoebuild/cargo.py]
    (section 3): a crate from the registry, with its checksum, or a crate
    from a git repository, with the URL and the commit. *)
Inductive Crate : Type :=
| FileCrate (name version checksum : string)
| GitCrate (name version repository commit : string).

Definition file_crates (crates : list Crate) : list (string * string) :=
  flat_map (fun c => match c with
                     | FileCrate n v _ => [(n, v)]
                     | GitCrate _ _ _ _ => []
                     end) crates.

Definition git_crates (crates : list Crate) : list (string * string * string) :=
  flat_map (fun c => match c with
                     | FileCrate _ _ _ => []
                     | GitCrate n _ r c => [(n, r, c)]
                     end) crates.

(** [sorted(l, key=...)]: a stable insertion sort. *)
Fixpoint insert_by {A} (leb : A -> A -> bool) (x : A) (l : list A) : list A :=
  match l with
  | [] => [x]
  | y :: l' => if leb x y then x :: l else y :: insert_by leb x l'
  end.

Definition sort_by {A} (leb : A -> A -> bool) (l : list A) : list A :=
  foldr (insert_by leb) [] l.

Definition name_version_leb (a b : string * string) : bool :=
  match String.compare a.1 b.1 with
  | Lt => true
  | Gt => false
  | Eq => String.leb a.2 b.2
  end.

Definition name_leb (a b : string * string * string) : bool :=
  String.leb a.1.1 b.1.1.

Definition quoted (s : string) : string := Str.dquote +:+ s +:+ Str.dquote.

(** Modelled from the spec: the dependency-list block written by
    [update_ebuild] (section 4.3, step 2): one line per non-git dependency,
    sorted by (name, version); a single empty-quoted line when there is
    none. *)
Definition crate_lines (crates : list Crate) : list string :=
  map (fun nv => Str.tab +:+ nv.1 +:+ "@" +:+ nv.2)
      (sort_by name_version_leb (file_crates crates)).

Definition CRATES_block (crates : list Crate) : list string :=
  match crate_lines crates with
  | [] => ["CRATES=" +:+ quoted ""]
  | ls => ("CRATES=" +:+ Str.dquote) :: ls ++ [Str.dquote]
  end.

Definition LICENSE_MARKER : string := "# Dependent crate licenses".

(** Modelled from the spec: the dependent-license block written by
    [update_ebuild] (sections 4.2 and 4.3, step 3): empty-quoted when the
    combination is empty, one operand per line for an AND-chain, else on the
    opening line as in the old artifact of [test_update_ebuild]. *)
Definition LICENSE_block (crate_licenses : option Expr) : list string :=
  LICENSE_MARKER ::
  match crate_licenses with
  | None => ["LICENSE+=" +:+ quoted ""]
  | Some (And args) =>
      ("LICENSE+=" +:+ Str.dquote)
        :: map (fun x => Str.tab +:+ spdx_to_ebuild x) args ++ [Str.dquote]
  | Some e => ["LICENSE+=" +:+ quoted (" " +:+ spdx_to_ebuild e)]
  end.

(** Modelled from the spec: the git-crate block written by [update_ebuild]
    (section 4.3, step 4): one entry per git dependency, sorted by name,
    [[name]='repository;commit;archive-%commit%'], the archive being named
    after the last component of the repository URL. *)
Definition basename (repository : string) : string :=
  List.last (Str.split "/" repository) "".

Definition git_line (g : string * string * string) : string :=
  Str.tab +:+ "[" +:+ g.1.1 +:+ "]=" +:+ Str.squote +:+ g.1.2 +:+ ";" +:+ g.2
    +:+ ";" +:+ basename g.1.2 +:+ "-%commit%" +:+ Str.squote.

Definition GIT_CRATES_block (crates : list Crate) : list string :=
  "declare -A GIT_CRATES=("
    :: map git_line (sort_by name_leb (git_crates crates)) ++ [")"].

(** *** The scan *)

(** Modelled from the spec: the three regions [update_ebuild] looks for
    (section 3): the dependency list, the dependent-license addendum behind
    its marker comment, and the git-crate block. *)
Inductive Kind : Type := KCrates | KLicense | KGit.

Inductive Segment : Type :=
| Pass (line : string)
| Region (k : Kind) (lines : list string).

(** The start marker and the close marker of a region (section 4.3, step 1:
    a line exactly equal to the one, a line exactly equal to the other). *)
Definition opener (k : Kind) : string :=
  match k with
  | KCrates => "CRATES=" +:+ Str.dquote
  | KLicense => "LICENSE+=" +:+ Str.dquote
  | KGit => "declare -A GIT_CRATES=("
  end.

Definition close_marker (k : Kind) : string :=
  match k with
  | KGit => ")"
  | _ => Str.dquote
  end.

Fixpoint skip (n : nat) (s : string) : string :=
  match n, s with
  | S k, String _ s' => skip k s'
  | _, _ => s
  end.

(** A region on a single line: the empty dependency list [CRATES=""]
    (section 4.3, step 2), and the dependent-license addendum as
    [EBUILD_TEMPLATE] writes it, [LICENSE+=" ..."] (ebuild.py, line 42;
    [LICENSE+=" CC0-1.0"] and [LICENSE+=""] in the test-suite). *)
Definition one_line (k : Kind) (l : string) : bool :=
  match k with
  | KCrates => String.eqb l ("CRATES=" +:+ quoted "")
  | KLicense =>
      Str.startswith (opener KLicense) l
      && Str.endswith_char "034" (skip (String.length (opener KLicense)) l)
  | KGit => false
  end.

(** The line begins a region of kind [k]. *)
Definition starts (k : Kind) (l : string) : bool :=
  String.eqb l (opener k) || one_line k l.

(** Modelled from the spec: what [update_ebuild] does about the
    dependent-license region.  With crate licenses the region is wanted and
    validated (section 4.3, step 3): [Validate].  Without them the spec has
    the region not looked for at all: [Ignore]; the test-suite has an
    artifact that holds one refused
    ([test_update_ebuild_fail_with_crate_license]): [Refuse], which is what
    [update_ebuild] does then.  [Ignore] is kept for the comparison. *)
Inductive LicenseMode : Type := Validate | Refuse | Ignore.

Definition looks_for_license (m : LicenseMode) : bool :=
  match m with
  | Ignore => false
  | _ => true
  end.

(** Modelled from the spec: the scan of [update_ebuild] (sections 4.3 and 9),
    a single pass over the lines with one state.  Outside a region, a line
    that begins a dependency list or a git-crate block opens that region, or
    is that region when it is of the single-line form; the marker comment is
    held back, and the line after it has to begin the dependent-license
    region.  Inside a region, the first line equal to the close marker ends
    it; a line that begins another region there, and the end of the text,
    make the artifact malformed (section 4.3, failure modes; section 7).  A
    marker comment without its block is malformed when the region is
    validated, and an ordinary line when it is not. *)
Inductive ScanState : Type :=
| Outside
| AfterMarker                                  (* the marker comment is held back *)
| Inside (k : Kind) (acc : list string).       (* the region so far, reversed *)

Definition is_marker (m : LicenseMode) (l : string) : bool :=
  looks_for_license m && String.eqb l LICENSE_MARKER.

(** The line begins a region, or announces one. *)
Definition begins (m : LicenseMode) (l : string) : bool :=
  is_marker m l || starts KCrates l || starts KGit l.

Definition enter (k : Kind) (lead : list string) (l : string)
  : list Segment * ScanState :=
  if String.eqb l (opener k) then ([], Inside k (l :: rev lead))
  else ([Region k (lead ++ [l])], Outside).

Definition step_outside (m : LicenseMode) (l : string) : list Segment * ScanState :=
  if is_marker m l then ([], AfterMarker)
  else if starts KCrates l then enter KCrates [] l
  else if starts KGit l then enter KGit [] l
  else ([Pass l], Outside).

Definition step (m : LicenseMode) (st : ScanState) (l : string)
  : option (list Segment * ScanState) :=
  match st with
  | Inside k acc =>
      if String.eqb l (close_marker k) then Some ([Region k (rev (l :: acc))], Outside)
      else if begins m l then None
      else Some ([], Inside k (l :: acc))
  | AfterMarker =>
      if starts KLicense l then Some (enter KLicense [LICENSE_MARKER] l)
      else match m with
           | Validate => None
           | _ => Some (Pass LICENSE_MARKER :: (step_outside m l).1,
                        (step_outside m l).2)
           end
  | Outside => Some (step_outside m l)
  end.

(** The end of the text. *)
Definition finish (m : LicenseMode) (st : ScanState) : option (list Segment) :=
  match st with
  | Outside => Some []
  | AfterMarker =>
      match m with
      | Validate => None
      | _ => Some [Pass LICENSE_MARKER]
      end
  | Inside _ _ => None
  end.

Fixpoint scan_from (m : LicenseMode) (st : ScanState) (ls : list string)
  : option (list Segment) :=
  match ls with
  | [] => finish m st
  | l :: ls' =>
      match step m st l with
      | None => None
      | Some (segs, st') => app segs <$> scan_from m st' ls'
      end
  end.

Definition scan (m : LicenseMode) (ls : list string) : option (list Segment) :=
  scan_from m Outside ls.

Definition is_region (k : Kind) (s : Segment) : bool :=
  match s, k with
  | Region KCrates _, KCrates | Region KLicense _, KLicense | Region KGit _, KGit => true
  | _, _ => false
  end.

Definition count (k : Kind) (segs : list Segment) : nat :=
  length (filter (fun s => is_region k s = true) segs).

(** *** Replacing the regions *)

Definition ANCHOR : string := "inherit cargo".

Definition is_anchor (s : Segment) : bool :=
  match s with
  | Pass l => String.eqb l ANCHOR
  | Region _ _ => false
  end.

Definition has_git (crates : list Crate) : bool :=
  match git_crates crates with [] => false | _ => true end.

(** Modelled from the spec: the replacement done by [update_ebuild]
    (section 4.3, steps 2 to 5).  Every region is replaced by its new block;
    a git-crate block is removed, with the blank line after it, when there
    is no git dependency, and put before the anchor, followed by a blank
    line, when there is one and the artifact has no such block
    ([insert_git]); every other line is kept. *)
Fixpoint patch (crates : list Crate) (crate_licenses : option Expr)
    (insert_git : bool) (segs : list Segment) : list Segment :=
  match segs with
  | [] => []
  | Pass l :: rest =>
      if insert_git && String.eqb l ANCHOR
      then Region KGit (GIT_CRATES_block crates) :: Pass "" :: Pass l
             :: patch crates crate_licenses false rest
      else Pass l :: patch crates crate_licenses insert_git rest
  | Region KCrates _ :: rest =>
      Region KCrates (CRATES_block crates) :: patch crates crate_licenses insert_git rest
  | Region KLicense _ :: rest =>
      Region KLicense (LICENSE_block crate_licenses)
        :: patch crates crate_licenses insert_git rest
  | Region KGit _ :: rest =>
      if has_git crates
      then Region KGit (GIT_CRATES_block crates)
             :: patch crates crate_licenses insert_git rest
      else match rest with
           | Pass EmptyString :: rest' => patch crates crate_licenses insert_git rest'
           | _ => patch crates crate_licenses insert_git rest
           end
  end.

Definition segment_lines (s : Segment) : list string :=
  match s with
  | Pass l => [l]
  | Region _ ls => ls
  end.

Definition lines_of (segs : list Segment) : list string :=
  concat (map segment_lines segs).

Definition assemble (segs : list Segment) : string :=
  Str.join Str.nl (lines_of segs).

(** The number of dependent-license regions that the mode allows. *)
Definition license_regions_wanted (m : LicenseMode) : option nat :=
  match m with
  | Validate => Some 1
  | Refuse => Some 0
  | Ignore => None
  end.

Definition license_message (m : LicenseMode) : string :=
  match m with
  | Validate => "malformed ebuild: expected exactly one crate LICENSE+= block"
  | _ => "malformed ebuild: unexpected crate LICENSE+= block"
  end.

(** Modelled from the spec: the patcher of section 4.3 for one way of
    dealing with the dependent-license region.  The text is scanned; a
    malformed artifact, a number of dependency-list regions other than one,
    a number of dependent-license regions other than the one wanted, more
    than one git-crate block, and no anchor line when a git-crate block has
    to be inserted, are a [RuntimeError]; otherwise the regions are replaced
    and the lines put together again. *)
Definition update_with (m : LicenseMode) (ebuild : string) (crates : list Crate)
    (crate_licenses : option Expr) : Result string :=
  match scan m (Str.split "010" ebuild) with
  | None =>
      Raise (RuntimeError
               "malformed ebuild: a block is not closed, or begins inside another")
  | Some segs =>
      if negb (count KCrates segs =? 1) then
        Raise (RuntimeError "malformed ebuild: expected exactly one CRATES block")
      else if match license_regions_wanted m with
              | Some n => negb (count KLicense segs =? n)
              | None => false
              end then
        Raise (RuntimeError (license_message m))
      else if 1 <? count KGit segs then
        Raise (RuntimeError "malformed ebuild: more than one GIT_CRATES block")
      else
        let insert_git := has_git crates && (count KGit segs =? 0) in
        if insert_git && negb (existsb is_anchor segs) then
          Raise (RuntimeError
                   "malformed ebuild: no inherit line to put GIT_CRATES before")
        else Ok (assemble (patch crates crate_licenses insert_git segs))
  end.

(** Modelled from the spec: [update_ebuild] of [pycargoebuild/ebuild.py]
    (section 4.3).  The simplified combination of the dependency licenses,
    which the aggregator computes from the metadata, the dependencies and
    the fetch directory, is the argument [crate_licenses]. *)
Definition update_ebuild (ebuild : string) (crates : list Crate)
    (crate_licenses : option Expr) (crate_license : bool) : Result string :=
  update_with (if crate_license then Validate else Refuse) ebuild crates crate_licenses.







(** ** Notions used in the statements below *)

(** Lines the scan has read but not yet turned into a segment. *)
Definition pending (st : ScanState) : list string :=
  match st with
  | Outside => []
  | AfterMarker => [LICENSE_MARKER]
  | Inside _ acc => rev acc
  end.

(** The lines of a text that begin a region of kind [k]: for the
    dependent-license region, the lines equal to the marker comment. *)
Definition marker_line (k : Kind) (l : string) : bool :=
  match k with
  | KLicense => String.eqb l LICENSE_MARKER
  | _ => starts k l
  end.

Definition markers (k : Kind) (ls : list string) : nat :=
  length (List.filter (marker_line k) ls).

(** The regions that are counted by the marker lines of the text: the
    dependency list and the git-crate block always, the dependent-license
    region when it is validated. *)
Definition counted (m : LicenseMode) (k : Kind) : Prop := k <> KLicense \/ m = Validate.


(** A dependency list is begun, and no line after its start marker is the
    close marker. *)
Fixpoint unclosed (ls : list string) : bool :=
  match ls with
  | [] => false
  | l :: rest =>
      (String.eqb l (opener KCrates)
       && negb (existsb (String.eqb (close_marker KCrates)) rest))
      || unclosed rest
  end.

(** A marker comment is not followed at once by the line that begins its
    block. *)
Fixpoint orphan_marker (ls : list string) : bool :=
  match ls with
  | [] => false
  | l :: rest =>
      (String.eqb l LICENSE_MARKER
       && negb (match rest with
                | l' :: _ => starts KLicense l'
                | [] => false
                end))
      || orphan_marker rest
  end.

(** The dependent-license block is begun behind its marker comment, and no
    line after its start marker is the close marker. *)
Fixpoint unclosed_license (ls : list string) : bool :=
  match ls with
  | l :: (l' :: rest') as rest =>
      (String.eqb l LICENSE_MARKER && String.eqb l' (opener KLicense)
       && negb (existsb (String.eqb (close_marker KLicense)) rest'))
      || unclosed_license rest
  | _ => false
  end.

(** The region that the state of the scan has begun, if any. *)
Definition begun (k : Kind) (st : ScanState) : nat :=
  match st, k with
  | AfterMarker, KLicense => 1
  | Inside KCrates _, KCrates | Inside KLicense _, KLicense | Inside KGit _, KGit => 1
  | _, _ => 0
  end.






(** Words and symbols in which the character [c] does not occur. *)
Definition word_ok (c : ascii) (t : LicenseExpression.token) : Prop :=
  match t with
  | LicenseExpression.TWord w => Str.occurs c w = false
  | _ => True
  end.

Definition expr_ok (c : ascii) (e : Expr) : Prop :=
  Forall (fun k => Str.occurs c k = false) (symbols e).

(** What the loop reads for a dependency whose archive is in the cache. *)
Definition cached_license (distdir : string) (w : World)
    (dep : string * string * string) : Result string :=
  match files w !! crate_path distdir dep.1.1 dep.1.2 with
  | None => Raise (FileNotFoundError (crate_path distdir dep.1.1 dep.1.2))
  | Some f =>
      if String.eqb (SHA256.hexdigest (content f)) dep.2
      then (crate_license (crate_path distdir dep.1.1 dep.1.2)
              (dep.1.1 +:+ "-" +:+ dep.1.2 +:+ "/Cargo.toml") w).1
      else Raise (AssertionError
                    (checksum_message (crate_path distdir dep.1.1 dep.1.2)
                       (SHA256.hexdigest (content f)) dep.2))
  end.

Definition cached (distdir : string) (w : World)
    (dep : string * string * string) : Prop :=
  is_Some (files w !! crate_path distdir dep.1.1 dep.1.2).

Definition readable (distdir : string) (w : World)
    (dep : string * string * string) : bool :=
  match cached_license distdir w dep with
  | Ok _ => true
  | Raise _ => false
  end.

Definition declared_license (distdir : string) (w : World)
    (dep : string * string * string) : string :=
  match cached_license distdir w dep with
  | Ok l => l
  | Raise _ => ""
  end.

(** The exception is a [RuntimeError]. *)
Definition is_runtime_error (r : Result string) : bool :=
  match r with
  | Raise (RuntimeError _) => true
  | _ => false
  end.

(** [s.count(c)] for a one-character [c]. *)
Fixpoint occurrences (c : ascii) (s : string) : nat :=
  match s with
  | EmptyString => 0
  | String a s' => (if Ascii.eqb a c then 1 else 0) + occurrences c s'
  end.

(** The characters [hexdigest()] is made of: digits and the letters a to f. *)
Definition is_lower_hex (a : ascii) : bool :=
  let n := nat_of_ascii a in
  ((48 <=? n)%nat && (n <=? 57)%nat) || ((97 <=? n)%nat && (n <=? 102)%nat).

Fixpoint all_chars (f : ascii -> bool) (s : string) : bool :=
  match s with
  | EmptyString => true
  | String a s' => f a && all_chars f s'
  end.

(** The world after [wget] has written [f], served at [url], to [path]. *)
Definition downloaded (path url : string) (f : File) (w : World) : World :=
  {| files := <[path := f]> (files w); remote := remote w;
     downloads := url :: downloads w; year := year w;
     set_order := set_order w |}.

(** The world after a [wget] that failed. *)
Definition attempted (url : string) (w : World) : World :=
  {| files := files w; remote := remote w;
     downloads := url :: downloads w; year := year w;
     set_order := set_order w |}.

(** [w'] is [w] with more files and more downloads. *)
Definition extends (w w' : World) : Prop :=
  files w ⊆ files w' /\ remote w' = remote w /\ year w' = year w
  /\ exists fetched, downloads w' = fetched ++ downloads w.

(** A package table of the lock file as the triple of line 69, and the
    filter of line 71. *)
Definition lock_entry (p : Table) : string * string * string :=
  (default "" (p !! "name"), default "" (p !! "version"), default "" (p !! "checksum")).

Definition is_dependency (self : string) (p : Table) : bool :=
  negb (String.eqb (default "" (p !! "name")) self).

(** A package table with a name and, unless it is the package itself, a
    version and a checksum. *)
Definition complete (self : string) (p : Table) : Prop :=
  is_Some (p !! "name")
  /\ (is_dependency self p = true
      -> is_Some (p !! "version") /\ is_Some (p !! "checksum")).

(** [expr_cmp] on two lists of operands. *)
Fixpoint cmp_list (xs ys : list Expr) : comparison :=
  match xs, ys with
  | [], [] => Eq
  | [], _ :: _ => Lt
  | _ :: _, [] => Gt
  | x :: xs', y :: ys' =>
      match LicenseExpression.expr_cmp x y with
      | Eq => cmp_list xs' ys'
      | c => c
      end
  end.

(** The order in which [simplify] leaves the operands. *)
Definition expr_le (a b : Expr) : Prop := LicenseExpression.expr_leb a b = true.

(** The tokens of [combined_license], from the tokens of its members. *)
Fixpoint conj_tokens (tss : list (list LicenseExpression.token))
    : list LicenseExpression.token :=
  match tss with
  | [] => []
  | [ts] => LicenseExpression.TOpen :: ts ++ [LicenseExpression.TClose]
  | ts :: rest =>
      LicenseExpression.TOpen :: ts
        ++ LicenseExpression.TClose :: LicenseExpression.TAnd :: conj_tokens rest
  end.

(** Two facts about the license package on which the aggregation of lines
    102-105 leans.  The text of line 103, with each member between
    parentheses, is read as the [AND] of what is read for each member. *)
Definition parses_conjunctions (lic : Licensing) : Prop :=
  forall xs es,
    xs <> [] ->
    Forall2 (fun x e => parse lic x = Parsed e) xs es ->
    parse lic (combined_license xs) = Parsed (LicenseExpression.chain And es).

(** [simplify()] sorts the operands of an [AND]: their order in the
    expression it is given does not show in its result. *)
Definition simplify_commutes (lic : Licensing) : Prop :=
  forall es es',
    es ≡ₚ es' ->
    simplify lic (LicenseExpression.chain And es)
    = simplify lic (LicenseExpression.chain And es').

(** What [parse] reads for a string that is an expression, [Sym ""] for
    another. *)
Definition expression_of (lic : Licensing) (x : string) : Expr :=
  match parse lic x with
  | Parsed e => e
  | _ => Sym ""
  end.

(** Every string of the set but the license of the package is an
    expression of its own. *)
Definition members_parse (lic : Licensing) (pkg_license : string)
    (s : list string) : Prop :=
  forall x, x ∈ s -> x <> pkg_license -> exists e, parse lic x = Parsed e.

(** ** Sample inputs *)

Module Sample.

Definition manifest (license : string) : TomlDoc :=
  {[ "package" := {[ "license" := license ]} ]}.

Definition crate (data member license : string) : File :=
  {| content := bytes data;
     members := Some {[ member := Some (manifest license) ]} |}.

Definition foo_1 : File :=
  crate "foo" "foo-1/Cargo.toml" "(BSD-3-Clause OR MIT) AND Unicode-DFS-2016".

Definition bar_2 : File := crate "bar" "bar-2/Cargo.toml" "CC0-1.0/Unlicense".

Definition sha_foo : string :=
  "2c26b46b68ffc68ff99b453c1d30413413422d706483bfa0f98a5e886266e7ae".

Definition sha_bar : string :=
  "fcde2b2edba56bf408601fb721fe9b5c338d10ee429ea04fae5511b68fbf8fb9".

Definition SHA_FOO_UPPER : string :=
  "2C26B46B68FFC68FF99B453C1D30413413422D706483BFA0F98A5E886266E7AE".

(** [foo-1.crate] is in the cache already, [bar-2.crate] is not; a set is
    iterated from the string added last to the one added first. *)
Definition world : World :=
  {| files := {[ "dist/foo-1.crate" := foo_1 ]};
     remote := {[ crate_url "bar" "2" := bar_2 ]};
     downloads := [];
     year := 2023;
     set_order := fun s discarded => rev (set_discard discarded s) |}.

Definition cargo_toml : TomlDoc :=
  {[ "package" := {[ "name" := "pkg"; "license" := "Apache-2.0 OR MIT";
                     "homepage" := "https://example.com" ]} ]}.

(** The manifest of [test_get_ebuild_no_license]: a name and a version. *)
Definition bare_toml : TomlDoc :=
  {[ "package" := {[ "name" := "foo"; "version" := "1.2.3" ]} ]}.

Definition cargo_lock : CargoLock :=
  {| lock_version := Some 3%Z;
     lock_package := Some
       [ {[ "name" := "foo"; "version" := "1"; "checksum" := sha_foo ]};
         {[ "name" := "pkg"; "version" := "1.2.3" ]};
         {[ "name" := "bar"; "version" := "2"; "checksum" := sha_bar ]} ] |}.

Definition lock_no_crates : CargoLock :=
  {| lock_version := Some 3%Z;
     lock_package := Some [ {[ "name" := "pkg"; "version" := "1.2.3" ]} ] |}.

(** The fixtures of [test_ebuild.py]. *)
Definition text (ls : list string) : string := Str.join Str.nl (ls ++ [""]).

Definition crates : list Crate :=
  [FileCrate "foo" "1" ""; FileCrate "bar" "2" ""; FileCrate "baz" "3" ""].

Definition git_crate : Crate :=
  GitCrate "test" "0.1" "https://github.com/projg2/pycargoebuild"
           "5ace474ad2e92da836de60afd9014cbae7bdd481".

(** [real_license_mapping]: BSD-3-Clause is BSD in an ebuild. *)
Fixpoint mapped (e : Expr) : Expr :=
  match e with
  | Sym k => Sym (if String.eqb k "BSD-3-Clause" then "BSD" else k)
  | And args => And (map mapped args)
  | Or args => Or (map mapped args)
  end.

(** The licenses of [foo-1.crate] and [bar-2.crate] of [crate_dir], combined
    as in lines 103-105 of [get_ebuild]. *)
Definition licenses : option Expr :=
  match parse spdx (combined_license
                      [ "(BSD-3-Clause OR MIT) AND Unicode-DFS-2016";
                        "CC0-1.0 OR Unlicense" ]) with
  | Parsed e => Some (mapped (simplify spdx e))
  | _ => None
  end.

(** With the git crate of [crates_plus_git], whose license is MIT: the
    combination as the expected text of [test_update_git_crates] has it,
    MIT and Unicode-DFS-2016 on one line. *)
Definition licenses_git : option Expr :=
  Some (And [And [Sym "MIT"; Sym "Unicode-DFS-2016"];
             Or [Sym "CC0-1.0"; Sym "Unlicense"]]).

Definition old_ebuild : string := text
  [ "EAPI=8"; "";
    "CRATES=" +:+ Str.dquote; Str.tab +:+ "bar-1"; Str.tab +:+ "baz-10"; Str.dquote; "";
    "inherit cargo"; "";
    "SRC_URI=" +:+ quoted "${{CARGO_CRATE_URIS}}"; "";
    "LICENSE=" +:+ quoted "MIT";
    LICENSE_MARKER; "LICENSE+=" +:+ quoted " CC0-1.0";
    "SLOT=" +:+ quoted "0"; "KEYWORDS=" +:+ quoted "~amd64 ~x86" ].

Definition new_ebuild : string := text
  [ "EAPI=8"; "";
    "CRATES=" +:+ Str.dquote; Str.tab +:+ "bar@2"; Str.tab +:+ "baz@3";
    Str.tab +:+ "foo@1"; Str.dquote; "";
    "inherit cargo"; "";
    "SRC_URI=" +:+ quoted "${{CARGO_CRATE_URIS}}"; "";
    "LICENSE=" +:+ quoted "MIT";
    LICENSE_MARKER; "LICENSE+=" +:+ Str.dquote;
    Str.tab +:+ "Unicode-DFS-2016"; Str.tab +:+ "|| ( BSD MIT )";
    Str.tab +:+ "|| ( CC0-1.0 Unlicense )"; Str.dquote;
    "SLOT=" +:+ quoted "0"; "KEYWORDS=" +:+ quoted "~amd64 ~x86" ].

Definition old_no_license : string := text
  [ "EAPI=8"; "";
    "CRATES=" +:+ Str.dquote; Str.tab +:+ "bar-1"; Str.tab +:+ "baz-10"; Str.dquote; "";
    "inherit cargo"; "";
    "SRC_URI=" +:+ quoted "${{CARGO_CRATE_URIS}}"; "";
    "LICENSE=" +:+ quoted "MIT";
    "SLOT=" +:+ quoted "0"; "KEYWORDS=" +:+ quoted "~amd64 ~x86" ].

Definition new_no_license : string := text
  [ "EAPI=8"; "";
    "CRATES=" +:+ Str.dquote; Str.tab +:+ "bar@2"; Str.tab +:+ "baz@3";
    Str.tab +:+ "foo@1"; Str.dquote; "";
    "inherit cargo"; "";
    "SRC_URI=" +:+ quoted "${{CARGO_CRATE_URIS}}"; "";
    "LICENSE=" +:+ quoted "MIT";
    "SLOT=" +:+ quoted "0"; "KEYWORDS=" +:+ quoted "~amd64 ~x86" ].

(** [BAD_UPDATE_TEST_CASES] *)
Definition bad_empty : string := "".

Definition bad_double_crates : string := text
  [ "CRATES=" +:+ quoted ""; LICENSE_MARKER; "LICENSE+=" +:+ quoted "";
    "CRATES=" +:+ quoted "" ].

Definition bad_no_crates : string := text
  [ LICENSE_MARKER; "LICENSE+=" +:+ quoted "" ].

Definition bad_double_license : string := text
  [ "CRATES=" +:+ quoted ""; LICENSE_MARKER; "LICENSE+=" +:+ quoted "";
    LICENSE_MARKER; "LICENSE+=" +:+ quoted "" ].

Definition bad_no_license : string := text [ "CRATES=" +:+ quoted "" ].

Definition bad_no_license_comment : string := text
  [ "CRATES=" +:+ quoted ""; "LICENSE+=" +:+ quoted "" ].

(** The artifact of [test_update_ebuild_fail_with_crate_license]. *)
Definition with_crate_license : string := text
  [ "CRATES=" +:+ quoted ""; LICENSE_MARKER; "LICENSE+=" +:+ quoted "" ].

(** The git-crate fixtures. *)
Definition head_lines : list string :=
  [ "EAPI=8"; "";
    "CRATES=" +:+ Str.dquote; Str.tab +:+ "bar@2"; Str.tab +:+ "baz@3";
    Str.tab +:+ "foo@1"; Str.dquote; "" ].

Definition git_entry : string :=
  Str.tab +:+ "[test]=" +:+ Str.squote
    +:+ "https://github.com/projg2/pycargoebuild;"
    +:+ "5ace474ad2e92da836de60afd9014cbae7bdd481;pycargoebuild-%commit%"
    +:+ Str.squote.

Definition old_git_lines : list string :=
  [ "declare -A GIT_CRATES=(";
    Str.tab +:+ "[else]=" +:+ Str.squote +:+ "total-junk-here" +:+ Str.squote;
    Str.tab +:+ "[something]=" +:+ Str.squote
      +:+ "https://github.com/projg2/pycargoebuild;"
      +:+ "5ace474ad2e92da836de60afd9014cbae7bdd481;pycargoebuild-%commit%"
      +:+ Str.squote;
    ")"; "" ].

Definition new_git_lines : list string :=
  [ "declare -A GIT_CRATES=("; git_entry; ")"; "" ].

Definition tail_git_lines : list string :=
  [ "inherit cargo"; "";
    "LICENSE=" +:+ quoted "|| ( Apache-2.0 MIT )";
    LICENSE_MARKER; "LICENSE+=" +:+ Str.dquote;
    Str.tab +:+ "MIT Unicode-DFS-2016"; Str.tab +:+ "|| ( CC0-1.0 Unlicense )";
    Str.dquote ].

Definition tail_lines : list string :=
  [ "inherit cargo"; "";
    "LICENSE=" +:+ quoted "|| ( Apache-2.0 MIT )";
    LICENSE_MARKER; "LICENSE+=" +:+ Str.dquote;
    Str.tab +:+ "Unicode-DFS-2016"; Str.tab +:+ "|| ( BSD MIT )";
    Str.tab +:+ "|| ( CC0-1.0 Unlicense )"; Str.dquote ].

(** The marker of the dependency list on two lines, the second inside the
    block that the first begins. *)
Definition twice_begun : string := text
  [ "CRATES=" +:+ Str.dquote; "CRATES=" +:+ Str.dquote; Str.dquote;
    LICENSE_MARKER; "LICENSE+=" +:+ quoted "" ].




End Sample.

(** ** Further sample inputs *)

Module Fixture.

(** A lock file whose only dependency is in the cache of [Sample.world]. *)
Definition lock_foo : CargoLock :=
  {| lock_version := Some 3%Z;
     lock_package := Some
       [ {[ "name" := "foo"; "version" := "1"; "checksum" := Sample.sha_foo ]};
         {[ "name" := "pkg"; "version" := "1.2.3" ]} ] |}.

Definition deps_foo : list (string * string * string) :=
  [ ("foo", "1", Sample.sha_foo) ].

(** The set the loop collects for [deps_foo]. *)
Definition licenses_foo : list string :=
  foldl (fun acc license => set_add (cargo_to_spdx license) acc) []
    (map (declared_license "dist" Sample.world) deps_foo).

(** [baz-3.crate] of the test-suite: a manifest with a [license-file] and
    no [license]. *)
Definition baz_manifest : Table := {[ "name" := "baz"; "license-file" := "COPYING" ]}.

Definition baz_3 : File :=
  {| content := bytes "baz";
     members := Some {[ "baz-3/Cargo.toml" := Some {[ "package" := baz_manifest ]} ]} |}.

Definition world_baz : World :=
  {| files := {[ "dist/baz-3.crate" := baz_3 ]};
     remote := ∅;
     downloads := [];
     year := 2023;
     set_order := fun s discarded => set_discard discarded s |}.

(** The two dependencies of [Sample.cargo_lock], and the world the loop
    leaves when it starts in [Sample.world]: [bar-2.crate] has been
    fetched. *)
Definition deps_both : list (string * string * string) :=
  [ ("foo", "1", Sample.sha_foo); ("bar", "2", Sample.sha_bar) ].

Definition world_fetched : World :=
  (fetch_crates "dist" deps_both [] Sample.world).2.

(** A lock file with a dependency that has no checksum, as Cargo writes
    for a path dependency. *)
Definition lock_path_dependency : CargoLock :=
  {| lock_version := Some 3%Z;
     lock_package := Some
       [ {[ "name" := "pkg"; "version" := "1.2.3" ]};
         {[ "name" := "local"; "version" := "0.1.0" ]} ] |}.

End Fixture.

(** * Properties *)

(** ** Strings *)

Lemma occurs_app c s t : Str.occurs c (s +:+ t) = Str.occurs c s || Str.occurs c t.
Proof.
  induction s as [|a s IH]; simpl; [done|].
  destruct (Ascii.eqb a c); [done|]. exact IH.
Qed.

Lemma occurs_rev_app c s t :
  Str.occurs c (String.rev_app s t) = Str.occurs c s || Str.occurs c t.
Proof.
  revert t. induction s as [|a s IH]; intros t; simpl; [done|].
  rewrite IH. simpl. destruct (Ascii.eqb a c); simpl.
  - by rewrite orb_true_r.
  - done.
Qed.

Lemma occurs_rev c s : Str.occurs c (String.rev s) = Str.occurs c s.
Proof. unfold String.rev. rewrite occurs_rev_app. simpl. by rewrite orb_false_r. Qed.

Lemma occurs_join c sep l :
  Str.occurs c sep = false ->
  Forall (fun x => Str.occurs c x = false) l ->
  Str.occurs c (Str.join sep l) = false.
Proof.
  intros Hsep. induction 1 as [|x l Hx Hl IH]; [done|].
  destruct l as [|y l]; [exact Hx|].
  change (Str.join sep (x :: y :: l)) with (x +:+ sep +:+ Str.join sep (y :: l)).
  by rewrite !occurs_app, Hx, Hsep, IH.
Qed.

Lemma string_app_assoc (s t u : string) : s +:+ (t +:+ u) = (s +:+ t) +:+ u.
Proof.
  induction s as [|a s IH]; [done|].
  change (String a s +:+ (t +:+ u)) with (String a (s +:+ (t +:+ u))).
  by rewrite IH.
Qed.

Lemma split_nonempty c s : Str.split c s <> [].
Proof.
  induction s as [|a s IH]; simpl; [done|].
  destruct (Ascii.eqb a c); [done|]. by destruct (Str.split c s).
Qed.






Lemma endswith_char_occurs c s : Str.endswith_char c s = true -> Str.occurs c s = true.
Proof.
  induction s as [|a s IH]; [done|]. simpl.
  destruct s as [|b s].
  - intros ->. done.
  - intros H. destruct (Ascii.eqb a c); [done|]. by apply IH.
Qed.




Lemma Forall_concat_map {A B} (P : B -> Prop) (f : A -> list B) (l : list A) :
  Forall (fun x => Forall P (f x)) l -> Forall P (concat (map f l)).
Proof.
  induction 1 as [|x l Hx _ IH]; simpl; [constructor|].
  apply Forall_app. by split.
Qed.

Lemma Forall_concat_map_inv {A B} (P : B -> Prop) (f : A -> list B) (l : list A) :
  Forall P (concat (map f l)) -> Forall (fun x => Forall P (f x)) l.
Proof.
  induction l as [|x l IH]; simpl; [constructor|].
  rewrite Forall_app. intros [Hx Hl]. constructor; [done|by apply IH].
Qed.

(** ** [cargo_to_spdx] *)

Lemma cargo_to_spdx_cons a s :
  cargo_to_spdx (String a s) =
  if Ascii.eqb a "/"%char then " OR " +:+ cargo_to_spdx s
  else String a (cargo_to_spdx s).
Proof.
  unfold cargo_to_spdx, Str.replace.
  cbn [Str.replace_go Str.startswith String.length Nat.sub].
  rewrite (Ascii.eqb_sym "/" a). by destruct (Ascii.eqb a "/").
Qed.

Lemma cargo_to_spdx_no_slash s : Str.occurs "/" (cargo_to_spdx s) = false.
Proof.
  induction s as [|a s IH]; [done|].
  rewrite cargo_to_spdx_cons. destruct (Ascii.eqb a "/") eqn:E.
  - rewrite occurs_app, IH. done.
  - simpl. by rewrite E.
Qed.

Lemma cargo_to_spdx_join_split s :
  cargo_to_spdx s = Str.join " OR " (Str.split "/" s).
Proof.
  induction s as [|a s IH]; [done|].
  rewrite cargo_to_spdx_cons. simpl Str.split.
  destruct (Ascii.eqb a "/") eqn:E.
  - rewrite IH. pose proof (split_nonempty "/" s).
    destruct (Str.split "/" s) as [|w ws] eqn:Hs; [done|]. done.
  - rewrite IH. pose proof (split_nonempty "/" s).
    destruct (Str.split "/" s) as [|w ws] eqn:Hs; [done|].
    destruct ws; done.
Qed.

(** ** The symbols of a parsed expression are words of the text *)

Lemma Expr_ind' (P : Expr -> Prop) :
  (forall k, P (Sym k)) ->
  (forall args, Forall P args -> P (And args)) ->
  (forall args, Forall P args -> P (Or args)) ->
  forall e, P e.
Proof.
  intros Hs Ha Ho. fix IH 1. intros [k|args|args].
  - apply Hs.
  - apply Ha. induction args as [|e args IHargs]; constructor; [apply IH|apply IHargs].
  - apply Ho. induction args as [|e args IHargs]; constructor; [apply IH|apply IHargs].
Qed.

Section Words.
Import LicenseExpression.
Variable c : ascii.

Lemma classify_ok w : Str.occurs c w = false -> word_ok c (classify w).
Proof.
  intros H. unfold classify.
  repeat match goal with |- context [if ?b then _ else _] => destruct b end; done.
Qed.

Lemma flush_ok cur : Str.occurs c cur = false -> Forall (word_ok c) (flush cur).
Proof.
  intros H. destruct cur; [constructor|].
  repeat constructor. apply classify_ok. by rewrite occurs_rev.
Qed.

Lemma tokenize_go_ok s cur :
  Str.occurs c cur = false -> Str.occurs c s = false ->
  Forall (word_ok c) (tokenize_go cur s).
Proof.
  revert cur. induction s as [|a s IH]; intros cur Hcur Hs; simpl.
  - by apply flush_ok.
  - simpl in Hs. destruct (Ascii.eqb a c) eqn:E; [done|].
    repeat match goal with |- context [if ?b then _ else _] => destruct b end;
      rewrite ?Forall_app, ?Forall_cons; repeat split;
      try apply flush_ok; try apply IH; simpl; rewrite ?E; done.
Qed.

Lemma tokenize_ok s : Str.occurs c s = false -> Forall (word_ok c) (tokenize s).
Proof. intros. by apply tokenize_go_ok. Qed.

Lemma chain_ok node es :
  (node = And \/ node = Or) -> Forall (expr_ok c) es -> expr_ok c (chain node es).
Proof.
  intros Hn Hes. unfold chain.
  assert (expr_ok c (node es)) as Hnode.
  { unfold expr_ok. destruct Hn as [-> | ->]; simpl;
      apply Forall_concat_map; exact Hes. }
  destruct es as [|e [|e' es]]; [done| |done].
  by inversion Hes.
Qed.

Hypothesis c_not_in_with : Str.occurs c " WITH " = false.

Lemma parser_ok fuel :
  (forall ts es r, p_or fuel ts = Some (es, r) -> Forall (word_ok c) ts ->
     Forall (expr_ok c) es /\ Forall (word_ok c) r) /\
  (forall ts es r, p_and fuel ts = Some (es, r) -> Forall (word_ok c) ts ->
     Forall (expr_ok c) es /\ Forall (word_ok c) r) /\
  (forall ts e r, p_atom fuel ts = Some (e, r) -> Forall (word_ok c) ts ->
     expr_ok c e /\ Forall (word_ok c) r).
Proof.
  induction fuel as [|f (IHor & IHand & IHatom)]; [by repeat split|].
  split; [|split]; intros ts res r Hp Hts; simpl in Hp.
  - destruct (p_and f ts) as [[fs r1]|] eqn:Ha; [|done].
    destruct (IHand _ _ _ Ha Hts) as [Hfs Hr1].
    assert (expr_ok c (chain And fs)) by (apply chain_ok; auto).
    destruct r1 as [|[] r1]; simplify_eq; try by (split; [repeat constructor|]).
    destruct (p_or f r1) as [[es r2]|] eqn:Ho; simplify_eq.
    inversion Hr1; subst.
    destruct (IHor _ _ _ Ho) as [Hes Hr2]; [done|]. split; [by constructor|done].
  - destruct (p_atom f ts) as [[e r1]|] eqn:Ha; [|done].
    destruct (IHatom _ _ _ Ha Hts) as [He Hr1].
    destruct r1 as [|[] r1]; simplify_eq; try by (split; [repeat constructor|]).
    destruct (p_and f r1) as [[es r2]|] eqn:Ho; simplify_eq.
    inversion Hr1; subst.
    destruct (IHand _ _ _ Ho) as [Hes Hr2]; [done|]. split; [by constructor|done].
  - destruct ts as [|[] ts]; simplify_eq.
    + destruct (p_or f ts) as [[es [|[] r1]]|] eqn:Ho; simplify_eq.
      inversion Hts; subst. destruct (IHor _ _ _ Ho) as [Hes Hr]; [done|].
      split; [apply chain_ok; auto|by inversion Hr].
    + inversion Hts as [|? ? Hw Hts']; subst.
      assert (expr_ok c (Sym w)) as Hsym by (repeat constructor; exact Hw).
      destruct ts as [|[] ts]; simplify_eq; try (split; [exact Hsym|done]).
      destruct ts as [|[] ts]; simplify_eq; try (split; [exact Hsym|done]).
      inversion Hts' as [|? ? _ Hts'']; subst. inversion Hts'' as [|? ? Hx ?]; subst.
      split; [|done].
      repeat constructor. simpl in Hw, Hx.
      by rewrite !occurs_app, Hw, Hx, c_not_in_with.
Qed.

Lemma parse_ok s e :
  Str.occurs c s = false -> LicenseExpression.parse s = Parsed e -> expr_ok c e.
Proof.
  intros Hs. unfold LicenseExpression.parse, parse_tokens.
  destruct (Str.strip_left s); [done|].
  destruct (p_or _ _) as [[es [|? ?]]|] eqn:Hp; try done.
  intros [= <-]. apply chain_ok; [auto|].
  destruct (parser_ok (3 * length (tokenize s) + 3)) as (Hor & _).
  eapply Hor; [exact Hp|]. by apply tokenize_ok.
Qed.

Hypothesis c_not_paren :
  Str.occurs c "(" = false /\ Str.occurs c ")" = false /\ Str.occurs c "||" = false.

Lemma render_ok e : forall b,
  expr_ok c e -> Forall (fun x => Str.occurs c x = false) (render b e).
Proof.
  destruct c_not_paren as (Ho & Hc & Hb).
  assert (forall args b,
    Forall (fun e => forall b, expr_ok c e ->
              Forall (fun x => Str.occurs c x = false) (render b e)) args ->
    Forall (fun k => Str.occurs c k = false) (concat (map symbols args)) ->
    Forall (fun x => Str.occurs c x = false) (concat (map (render b) args)))
    as Hargs.
  { intros args b IH He. apply Forall_concat_map.
    apply Forall_concat_map_inv in He.
    induction IH as [|e' args IHe _ IHargs]; [constructor|].
    inversion He; subst. constructor; [by apply IHe|by apply IHargs]. }
  induction e as [k|args IH|args IH] using Expr_ind'; intros b He.
  - exact He.
  - simpl. rewrite !Forall_app. repeat split.
    + destruct b; repeat constructor; done.
    + by apply Hargs.
    + destruct b; repeat constructor; done.
  - simpl. repeat constructor; try done.
    rewrite Forall_app. split; [by apply Hargs|]. by repeat constructor.
Qed.

End Words.

Lemma render_clean c e :
  Str.occurs c "(" = false -> Str.occurs c ")" = false -> Str.occurs c "||" = false ->
  Str.occurs c " " = false ->
  expr_ok c e ->
  Str.occurs c (spdx_to_ebuild e) = false.
Proof.
  intros Ho Hc Hb Hs He. unfold spdx_to_ebuild. apply occurs_join; [done|].
  by apply render_ok.
Qed.

(** C4: [cargo_to_spdx] rewrites every [/] of a legacy license string into
    the [OR] operator, as a substitution on the text (the pieces between the
    slashes, joined by [" OR "]); the converted string holds no [/], and
    neither does the rendering of any expression parsed from it. *)
Theorem cargo_to_spdx_replaces_every_slash (license_str : string) :
  cargo_to_spdx license_str = Str.join " OR " (Str.split "/" license_str)
  /\ Str.occurs "/" (cargo_to_spdx license_str) = false
  /\ forall e, parse spdx (cargo_to_spdx license_str) = Parsed e ->
       Str.occurs "/" (spdx_to_ebuild e) = false.
Proof.
  split; [apply cargo_to_spdx_join_split|].
  split; [apply cargo_to_spdx_no_slash|].
  intros e He. apply render_clean; try done.
  eapply parse_ok; [done| |exact He]. apply cargo_to_spdx_no_slash.
Qed.

Lemma cargo_to_spdx_replaces_every_slash_witness :
  cargo_to_spdx "MIT/Apache-2.0" = "MIT OR Apache-2.0"
  /\ Str.occurs "/" (spdx_to_ebuild (Or [Sym "MIT"; Sym "Apache-2.0"])) = false.
Proof.
  destruct (cargo_to_spdx_replaces_every_slash "MIT/Apache-2.0") as (Hjoin & _ & Hrender).
  split; [exact Hjoin|]. apply Hrender. reflexivity.
Defined.

Example cargo_to_spdx_three_way :
  cargo_to_spdx "MIT/Apache-2.0/ISC" = "MIT OR Apache-2.0 OR ISC".
Proof. reflexivity. Qed.

(** ** Computations that may raise *)

Lemma fails_bind {A B} (m : M A) (k : A -> M B) w :
  (forall a w', m w = (Ok a, w') -> fails (k a w')) -> fails (bind m k w).
Proof.
  intros H. unfold bind. destruct (m w) as [[a|e] w'] eqn:E.
  - by apply H.
  - by exists e.
Qed.

Lemma bind_ok {A B} (m : M A) (k : A -> M B) w a w' :
  m w = (Ok a, w') -> bind m k w = k a w'.
Proof. intros H. unfold bind. by rewrite H. Qed.

Lemma bind_raise {A B} (m : M A) (k : A -> M B) w e w' :
  m w = (Raise e, w') -> bind m k w = (Raise e, w').
Proof. intros H. unfold bind. by rewrite H. Qed.

Lemma getitem_some {V} (d : gmap string V) key v w :
  d !! key = Some v -> getitem d key w = (Ok v, w).
Proof. intros H. unfold getitem. by rewrite H. Qed.

Lemma getitem_none {V} (d : gmap string V) key w :
  d !! key = None -> getitem d key w = (Raise (KeyError key), w).
Proof. intros H. unfold getitem. by rewrite H. Qed.

(** ** The streaming digest reads the whole file *)

Lemma update_update h a b : update (update h a) b = update h (a ++ b).
Proof. unfold update. simpl. by rewrite app_assoc. Qed.

(** With a buffer that is not empty the loop ends, having fed the hasher
    every byte of the file, in order. *)
Lemma read_loop_all bufsize fuel : 0 < bufsize ->
  forall f h, length f < fuel -> read_loop fuel bufsize f h = Some (update h f).
Proof.
  intros Hn. induction fuel as [|k IH]; intros f h Hlen; [lia|].
  simpl. destruct (firstn bufsize f) as [|b rd] eqn:Hrd.
  - destruct f as [|b f]; [|destruct bufsize; [lia|discriminate Hrd]].
    unfold update. rewrite app_nil_r. by destruct h.
  - rewrite <- Hrd. rewrite IH.
    + by rewrite update_update, firstn_skipn.
    + rewrite length_skipn. destruct f; [by rewrite firstn_nil in Hrd|].
      simpl length in *. lia.
Qed.

Lemma hash_file_total f :
  hash_file f = Some (update sha256_new (content f)).
Proof.
  unfold hash_file. apply read_loop_all; [|lia].
  unfold BUFFER_SIZE. lia.
Qed.

Lemma verify_checksum_eq path csum w f :
  files w !! path = Some f ->
  verify_checksum path csum w =
    (if String.eqb (SHA256.hexdigest (content f)) csum then Ok tt
     else Raise (AssertionError
                   (checksum_message path (SHA256.hexdigest (content f)) csum)), w).
Proof.
  intros Hf. unfold verify_checksum, bind, open_rb. rewrite Hf.
  rewrite hash_file_total. unfold hexdigest, assert_. simpl.
  by destruct (String.eqb _ _).
Qed.

Example sha256_empty :
  SHA256.hexdigest [] = "e3b0c44298fc1c149afbf4c8996fb92427ae41e4649b934ca495991b7852b855".
Proof. vm_compute. reflexivity. Qed.

Example sha256_abc :
  SHA256.hexdigest (bytes "abc")
  = "ba7816bf8f01cfea414140de5dae2223b00361a396177a9cb410ff61f20015ad".
Proof. vm_compute. reflexivity. Qed.

Example sha256_two_blocks :
  SHA256.hexdigest (bytes "abcdbcdecdefdefgefghfghighijhijkijkljklmklmnlmnomnopnopq")
  = "248d6a61d20638b8e5c026930c3e6039a33ce45964ff2167f6ecedd419db06c1".
Proof. vm_compute. reflexivity. Qed.

(** ** The loop over the dependencies *)

Lemma lock_deps_world pkgmeta packages w : (lock_deps pkgmeta packages w).2 = w.
Proof.
  induction packages as [|p ps IH]; [done|].
  simpl. unfold bind, getitem.
  destruct (p !! "name"); [|done]. simpl.
  destruct (pkgmeta !! "name"); [|done]. simpl.
  destruct (String.eqb _ _); [exact IH|].
  destruct (p !! "version"); [|done]. simpl.
  destruct (p !! "checksum"); [|done]. simpl.
  destruct (lock_deps pkgmeta ps w) as [[deps|e] w'] eqn:E; simpl in *; by subst.
Qed.

Lemma crate_license_world path member w : (crate_license path member w).2 = w.
Proof.
  unfold crate_license, bind, open_rb. destruct (files w !! path) as [f|]; [|done].
  destruct (members f) as [ms|]; [|done]. unfold getitem.
  destruct (ms !! member) as [[doc|]|]; try done. simpl.
  destruct (doc !! "package") as [package|]; [|done]. simpl.
  unfold assert_. destruct (negb _); [|done]. simpl.
  by destruct (package !! "license").
Qed.

(** A crate whose archive is in the cache: nothing is fetched, the digest is
    checked, the manifest is read. *)
Lemma fetch_crate_present distdir p v csum acc w f :
  files w !! crate_path distdir p v = Some f ->
  fetch_crate distdir (p, v, csum) acc w =
    if String.eqb (SHA256.hexdigest (content f)) csum
    then match crate_license (crate_path distdir p v)
                 (p +:+ "-" +:+ v +:+ "/Cargo.toml") w with
         | (Ok license, _) => (Ok (set_add (cargo_to_spdx license) acc), w)
         | (Raise e, _) => (Raise e, w)
         end
    else (Raise (AssertionError
            (checksum_message (crate_path distdir p v)
               (SHA256.hexdigest (content f)) csum)), w).
Proof.
  intros Hf. unfold fetch_crate.
  unfold bind at 1. unfold path_exists, contains. rewrite Hf.
  unfold bind at 1. unfold ret at 1.
  unfold bind at 1. rewrite (verify_checksum_eq _ _ _ _ Hf).
  destruct (String.eqb _ _); [|done].
  unfold bind.
  pose proof (crate_license_world (crate_path distdir p v)
                (p +:+ "-" +:+ v +:+ "/Cargo.toml") w) as Hw.
  destruct (crate_license _ _ w) as [[l|e] w']; simpl in Hw; by subst.
Qed.

Lemma fetch_crate_mismatch distdir p v csum acc w f :
  archive distdir p v w = Some f ->
  SHA256.hexdigest (content f) <> csum ->
  exists w',
    fetch_crate distdir (p, v, csum) acc w =
      (Raise (AssertionError
         (checksum_message (crate_path distdir p v)
            (SHA256.hexdigest (content f)) csum)), w')
    /\ (downloads w' = downloads w \/ downloads w' = crate_url p v :: downloads w).
Proof.
  unfold archive. intros Hf Hne. apply String.eqb_neq in Hne.
  destruct (files w !! crate_path distdir p v) as [f'|] eqn:Hp.
  - injection Hf as ->. exists w. split; [|by left].
    rewrite (fetch_crate_present _ _ _ _ _ _ _ Hp). by rewrite Hne.
  - eexists. split.
    + unfold fetch_crate.
      unfold bind at 1. unfold path_exists, contains. rewrite Hp.
      unfold bind at 1. unfold wget at 1. rewrite Hf.
      unfold bind at 1. erewrite verify_checksum_eq by apply lookup_insert_eq.
      rewrite Hne. reflexivity.
    + by right.
Qed.

(** C8 (as amended): the digest of the whole archive is compared with the
    declared checksum for equality as strings, upper and lower case being
    different; when they differ the loop over the dependencies ends there
    with an [AssertionError] naming the path, the digest found and the
    checksum expected, having fetched the archive at most once. *)
Theorem checksum_compared_exactly distdir p v csum acc w f :
  archive distdir p v w = Some f ->
  (files w !! crate_path distdir p v = Some f ->
   verify_checksum (crate_path distdir p v) csum w =
     (if String.eqb (SHA256.hexdigest (content f)) csum then Ok tt
      else Raise (AssertionError
             (checksum_message (crate_path distdir p v)
                (SHA256.hexdigest (content f)) csum)), w))
  /\ (SHA256.hexdigest (content f) <> csum ->
      forall deps, exists w',
        fetch_crates distdir ((p, v, csum) :: deps) acc w =
          (Raise (AssertionError
             (checksum_message (crate_path distdir p v)
                (SHA256.hexdigest (content f)) csum)), w')
        /\ (downloads w' = downloads w
            \/ downloads w' = crate_url p v :: downloads w)).
Proof.
  intros Hf. split; [by apply verify_checksum_eq|].
  intros Hne deps.
  destruct (fetch_crate_mismatch distdir p v csum acc w f Hf Hne) as (w' & E & Hd).
  exists w'. split; [|done]. cbn [fetch_crates]. unfold bind at 1. by rewrite E.
Qed.

Lemma checksum_compared_exactly_witness :
  verify_checksum "dist/foo-1.crate" Sample.SHA_FOO_UPPER Sample.world =
    (Raise (AssertionError
       (checksum_message "dist/foo-1.crate" Sample.sha_foo Sample.SHA_FOO_UPPER)),
     Sample.world).
Proof.
  destruct (checksum_compared_exactly "dist" "foo" "1" Sample.SHA_FOO_UPPER []
              Sample.world Sample.foo_1 eq_refl) as [H _].
  exact (H eq_refl).
Defined.

(** C8, counterexample: a checksum that equals the digest of the archive up
    to the case of its letters is rejected. *)
Lemma uppercase_checksum_rejected :
  Str.upper (SHA256.hexdigest (content Sample.foo_1)) = Str.upper Sample.SHA_FOO_UPPER
  /\ (verify_checksum "dist/foo-1.crate" Sample.SHA_FOO_UPPER Sample.world).1
     = Raise (AssertionError
         (checksum_message "dist/foo-1.crate" Sample.sha_foo Sample.SHA_FOO_UPPER)).
Proof. split; vm_compute; reflexivity. Qed.

(** C9 (as amended): for a dependency whose archive is in the cache already
    nothing is fetched and nothing is written, but the digest of the cached
    file is still compared with the checksum, and a difference ends the run. *)
Theorem cached_archive_is_verified distdir p v csum acc w f :
  files w !! crate_path distdir p v = Some f ->
  (fetch_crate distdir (p, v, csum) acc w).2 = w
  /\ (SHA256.hexdigest (content f) <> csum ->
      (fetch_crate distdir (p, v, csum) acc w).1 =
        Raise (AssertionError
          (checksum_message (crate_path distdir p v)
             (SHA256.hexdigest (content f)) csum))).
Proof.
  intros Hf. rewrite (fetch_crate_present _ _ _ _ _ _ _ Hf). split.
  - destruct (String.eqb _ _); [|done]. by destruct (crate_license _ _ w) as [[?|?] ?].
  - intros Hne%String.eqb_neq. by rewrite Hne.
Qed.

Lemma cached_archive_is_verified_witness :
  (fetch_crate "dist" ("foo", "1", "0000") [] Sample.world).2 = Sample.world
  /\ (fetch_crate "dist" ("foo", "1", "0000") [] Sample.world).1 =
       Raise (AssertionError
         (checksum_message "dist/foo-1.crate" Sample.sha_foo "0000")).
Proof.
  destruct (cached_archive_is_verified "dist" "foo" "1" "0000" [] Sample.world
              Sample.foo_1 eq_refl) as [Hw He].
  split; [exact Hw|]. apply He. vm_compute. discriminate.
Defined.

(** C9, counterexample: with the archive in the cache, the run goes on or
    stops according to the checksum. *)
Lemma cached_archive_checksum_matters :
  files Sample.world !! crate_path "dist" "foo" "1" = Some Sample.foo_1
  /\ (fetch_crate "dist" ("foo", "1", Sample.sha_foo) [] Sample.world).1 =
       Ok [ "(BSD-3-Clause OR MIT) AND Unicode-DFS-2016" ]
  /\ (fetch_crate "dist" ("foo", "1", "0000") [] Sample.world).1 =
       Raise (AssertionError
         (checksum_message "dist/foo-1.crate" Sample.sha_foo "0000")).
Proof. repeat split; vm_compute; reflexivity. Qed.

(** An archive that is not in the cache is fetched once. *)
Example fetch_crate_downloads :
  downloads (fetch_crate "dist" ("bar", "2", Sample.sha_bar) [] Sample.world).2
  = ["https://crates.io/api/v1/crates/bar/2/download"].
Proof. vm_compute. reflexivity. Qed.

(** ** The reference package: operands in order, conjunctions *)

Section Reference.
Import LicenseExpression.

(** *** The order on expressions *)

Lemma expr_cmp_And xs ys : expr_cmp (And xs) (And ys) = cmp_list xs ys.
Proof. reflexivity. Qed.

Lemma expr_cmp_Or xs ys : expr_cmp (Or xs) (Or ys) = cmp_list xs ys.
Proof. reflexivity. Qed.

Lemma ascii_compare_lt_trans a b c :
  Ascii.compare a b = Lt -> Ascii.compare b c = Lt -> Ascii.compare a c = Lt.
Proof.
  unfold Ascii.compare. rewrite !N.compare_lt_iff. lia.
Qed.

Lemma string_compare_refl s : String.compare s s = Eq.
Proof.
  induction s as [|a s IH]; [done|]. cbn [String.compare].
  assert (Ascii.compare a a = Eq) as -> by (unfold Ascii.compare; apply N.compare_refl).
  exact IH.
Qed.

Lemma string_compare_lt_trans s : forall t u,
  String.compare s t = Lt -> String.compare t u = Lt -> String.compare s u = Lt.
Proof.
  induction s as [|a s IH]; intros [|b t] [|c u]; cbn [String.compare]; try done.
  destruct (Ascii.compare a b) eqn:Eab; [|  |done].
  - apply Ascii.compare_eq_iff in Eab as ->.
    destruct (Ascii.compare b c) eqn:Ebc; [|done|done]. apply IH.
  - intros _. destruct (Ascii.compare b c) eqn:Ebc; [| |done].
    + apply Ascii.compare_eq_iff in Ebc as <-. by rewrite Eab.
    + by rewrite (ascii_compare_lt_trans _ _ _ Eab Ebc).
Qed.

Lemma cmp_list_eq xs : Forall (fun a => forall b, expr_cmp a b = Eq -> a = b) xs ->
  forall ys, cmp_list xs ys = Eq -> xs = ys.
Proof.
  induction 1 as [|x xs Hx _ IH]; intros [|y ys]; cbn [cmp_list]; try done.
  destruct (expr_cmp x y) eqn:E; [|done|done].
  intros H. by rewrite (Hx _ E), (IH _ H).
Qed.

Lemma expr_cmp_eq a : forall b, expr_cmp a b = Eq -> a = b.
Proof.
  induction a as [k|xs IH|xs IH] using Expr_ind'; intros [k'|ys|ys]; try done.
  - cbn [expr_cmp]. by intros ->%String.compare_eq_iff.
  - rewrite expr_cmp_And. by intros ->%(cmp_list_eq _ IH).
  - rewrite expr_cmp_Or. by intros ->%(cmp_list_eq _ IH).
Qed.

Lemma cmp_list_refl xs : Forall (fun a => expr_cmp a a = Eq) xs -> cmp_list xs xs = Eq.
Proof. induction 1 as [|x xs Hx _ IH]; [done|]. cbn [cmp_list]. by rewrite Hx. Qed.

Lemma expr_cmp_refl a : expr_cmp a a = Eq.
Proof.
  induction a as [k|xs IH|xs IH] using Expr_ind'.
  - apply string_compare_refl.
  - rewrite expr_cmp_And. by apply cmp_list_refl.
  - rewrite expr_cmp_Or. by apply cmp_list_refl.
Qed.

Lemma cmp_list_antisym xs :
  Forall (fun a => forall b, expr_cmp b a = CompOpp (expr_cmp a b)) xs ->
  forall ys, cmp_list ys xs = CompOpp (cmp_list xs ys).
Proof.
  induction 1 as [|x xs Hx _ IH]; intros [|y ys]; cbn [cmp_list]; try done.
  rewrite Hx. destruct (expr_cmp x y); cbn [CompOpp]; [apply IH|done|done].
Qed.

Lemma expr_cmp_antisym a : forall b, expr_cmp b a = CompOpp (expr_cmp a b).
Proof.
  induction a as [k|xs IH|xs IH] using Expr_ind'; intros [k'|ys|ys]; try done.
  - cbn [expr_cmp]. apply String.compare_antisym.
  - rewrite !expr_cmp_And. by apply cmp_list_antisym.
  - rewrite !expr_cmp_Or. by apply cmp_list_antisym.
Qed.

Lemma cmp_list_lt_trans xs :
  Forall (fun a => forall b c, expr_cmp a b = Lt -> expr_cmp b c = Lt -> expr_cmp a c = Lt) xs ->
  forall ys zs, cmp_list xs ys = Lt -> cmp_list ys zs = Lt -> cmp_list xs zs = Lt.
Proof.
  induction 1 as [|x xs Hx _ IH]; intros [|y ys] [|z zs]; cbn [cmp_list]; try done.
  destruct (expr_cmp x y) eqn:Exy; [| |done].
  - apply expr_cmp_eq in Exy as ->.
    destruct (expr_cmp y z) eqn:Eyz; [|done|done]. apply IH.
  - intros _. destruct (expr_cmp y z) eqn:Eyz; [| |done].
    + apply expr_cmp_eq in Eyz as <-. by rewrite Exy.
    + by rewrite (Hx _ _ Exy Eyz).
Qed.

Lemma expr_cmp_lt_trans a : forall b c,
  expr_cmp a b = Lt -> expr_cmp b c = Lt -> expr_cmp a c = Lt.
Proof.
  induction a as [k|xs IH|xs IH] using Expr_ind'; intros [k'|ys|ys] [k''|zs|zs];
    try done.
  - cbn [expr_cmp]. apply string_compare_lt_trans.
  - rewrite !expr_cmp_And. by apply cmp_list_lt_trans.
  - rewrite !expr_cmp_Or. by apply cmp_list_lt_trans.
Qed.

Lemma expr_le_total a b : expr_le a b \/ expr_le b a.
Proof.
  unfold expr_le, expr_leb. rewrite (expr_cmp_antisym a b).
  destruct (expr_cmp a b); cbn; auto.
Qed.

Lemma expr_le_trans : Transitive expr_le.
Proof.
  intros a b c. unfold expr_le, expr_leb.
  destruct (expr_cmp a b) eqn:Eab; [| |done]; intros _.
  - by apply expr_cmp_eq in Eab as ->.
  - destruct (expr_cmp b c) eqn:Ebc; [| |done]; intros _.
    + apply expr_cmp_eq in Ebc as <-. by rewrite Eab.
    + by rewrite (expr_cmp_lt_trans _ _ _ Eab Ebc).
Qed.

Lemma expr_le_antisym : AntiSymm eq expr_le.
Proof.
  intros a b. unfold expr_le, expr_leb. rewrite (expr_cmp_antisym a b).
  destruct (expr_cmp a b) eqn:E; cbn; try done.
  intros _ _. by apply expr_cmp_eq.
Qed.

Lemma insert_sorted_perm x l : insert_sorted x l ≡ₚ x :: l.
Proof.
  induction l as [|y l IH]; [done|]. cbn [insert_sorted].
  destruct (expr_leb x y); [done|]. rewrite IH. apply Permutation_swap.
Qed.

Lemma sort_perm l : sort l ≡ₚ l.
Proof.
  induction l as [|x l IH]; [done|]. unfold sort in *. cbn [foldr].
  by rewrite insert_sorted_perm, IH.
Qed.

Lemma insert_sorted_sorted x l : Sorted expr_le l -> Sorted expr_le (insert_sorted x l).
Proof.
  induction 1 as [|y l Hl IH Hy]; [repeat constructor|].
  cbn [insert_sorted]. destruct (expr_leb x y) eqn:E.
  - constructor; [by constructor|]. by constructor.
  - constructor; [done|].
    assert (expr_le y x) as Hyx by (destruct (expr_le_total x y) as [H|H]; [unfold expr_le in H; congruence|done]).
    destruct l as [|z l]; cbn [insert_sorted]; [by constructor|].
    destruct (expr_leb x z); constructor; [done|]. by inversion Hy.
Qed.

Lemma sort_sorted l : Sorted expr_le (sort l).
Proof.
  induction l as [|x l IH]; [constructor|]. unfold sort in *. cbn [foldr].
  by apply insert_sorted_sorted.
Qed.

Lemma sort_permutation l l' : l ≡ₚ l' -> sort l = sort l'.
Proof.
  intros H.
  apply (@Sorted_unique _ expr_le expr_le_trans expr_le_antisym); try apply sort_sorted.
  by rewrite !sort_perm.
Qed.

(** *** Duplicates *)

Lemma expr_eqb_eq a : forall b, expr_eqb a b = true <-> a = b.
Proof.
  induction a as [k|xs IH|xs IH] using Expr_ind'; intros [k'|ys|ys];
    try (split; [discriminate|done]).
  - cbn [expr_eqb]. rewrite String.eqb_eq. split; congruence.
  - cbn [expr_eqb]. revert ys. induction IH as [|x xs Hx _ IHxs]; intros [|y ys];
      try (split; [discriminate|done]); [done|].
    rewrite andb_true_iff, Hx, IHxs. split; [intros [-> [= ->]]; done|].
    intros [= -> ->]. done.
  - cbn [expr_eqb]. revert ys. induction IH as [|x xs Hx _ IHxs]; intros [|y ys];
      try (split; [discriminate|done]); [done|].
    rewrite andb_true_iff, Hx, IHxs. split; [intros [-> [= ->]]; done|].
    intros [= -> ->]. done.
Qed.

Lemma elem_of_dedup l : forall x, x ∈ dedup l <-> x ∈ l.
Proof.
  induction l as [|y l IH]; intros x; [done|]. cbn [dedup].
  rewrite !elem_of_cons, list_elem_of_filter, IH.
  destruct (expr_eqb y x) eqn:E; cbn [negb].
  - apply expr_eqb_eq in E as ->. split; [intros [?|[[] _]]|intros _]; by left.
  - split; [intros [?|[_ ?]]; auto|]. intros [?|?]; [by left|by right].
Qed.

Lemma NoDup_dedup l : NoDup (dedup l).
Proof.
  induction l as [|y l IH]; [constructor|]. cbn [dedup]. constructor.
  - rewrite list_elem_of_filter.
    assert (expr_eqb y y = true) as -> by (by apply expr_eqb_eq). by intros [[] _].
  - by apply NoDup_filter.
Qed.

Lemma dedup_permutation l l' : l ≡ₚ l' -> dedup l ≡ₚ dedup l'.
Proof.
  intros H. apply NoDup_Permutation; try apply NoDup_dedup.
  intros x. by rewrite !elem_of_dedup, H.
Qed.

Lemma concat_map_permutation {A B} (f : A -> list B) l l' :
  l ≡ₚ l' -> concat (map f l) ≡ₚ concat (map f l').
Proof.
  induction 1 as [|x l l' _ IH|x y l|l l' l'' _ IH _ IH']; cbn [map concat].
  - done.
  - by rewrite IH.
  - rewrite !app_assoc. f_equiv. apply Permutation_app_comm.
  - by rewrite IH.
Qed.

Lemma simplify_And es :
  simplify (And es)
  = chain And (sort (dedup (concat (map (operands is_and) (map simplify es))))).
Proof. reflexivity. Qed.

Lemma simplify_And_permutation es es' :
  es ≡ₚ es' -> simplify (And es) = simplify (And es').
Proof.
  intros H. rewrite !simplify_And. f_equal. apply sort_permutation, dedup_permutation.
  rewrite !map_map. by apply concat_map_permutation.
Qed.

(** [simplify] does not tell apart two orders of a conjunction. *)
Lemma spdx_simplify_commutes es es' :
  es ≡ₚ es' -> simplify (chain And es) = simplify (chain And es').
Proof.
  intros H. destruct es as [|e [|e2 es]].
  - by apply Permutation_nil_l in H as ->.
  - by apply Permutation_singleton_l in H as ->.
  - destruct es' as [|e' [|e2' es']].
    + by apply Permutation_nil_r in H.
    + by apply Permutation_singleton_r in H.
    + cbn [chain]. by apply simplify_And_permutation.
Qed.

(** *** The tokens of a conjunction *)

Lemma tokenize_go_space s : forall cur t,
  tokenize_go cur (s +:+ String " " t) = tokenize_go cur s ++ tokenize_go "" t.
Proof.
  induction s as [|a s IH]; intros cur t; [done|].
  change (String a s +:+ String " " t) with (String a (s +:+ String " " t)).
  cbn [tokenize_go].
  destruct (Ascii.is_space a); [by rewrite IH, app_assoc|].
  destruct (Ascii.eqb a "("); [by rewrite IH, <- app_assoc|].
  destruct (Ascii.eqb a ")"); [by rewrite IH, <- app_assoc|].
  apply IH.
Qed.

Lemma tokenize_paren x :
  tokenize ("( " +:+ x +:+ " )") = TOpen :: tokenize x ++ [TClose].
Proof.
  unfold tokenize.
  change ("( " +:+ x +:+ " )") with (String "(" (String " " (x +:+ String " " ")"))).
  cbn [tokenize_go Ascii.is_space Ascii.eqb Bool.eqb]. cbn [flush app].
  by rewrite tokenize_go_space.
Qed.

Lemma combined_license_cons x y xs :
  combined_license (x :: y :: xs)
  = ("( " +:+ x +:+ " )") +:+ String " " ("AND" +:+ String " " (combined_license (y :: xs))).
Proof. reflexivity. Qed.

Lemma tokenize_combined xs :
  tokenize (combined_license xs) = conj_tokens (map tokenize xs).
Proof.
  induction xs as [|x [|y xs] IH]; [done| |].
  - unfold combined_license. cbn [map Str.join conj_tokens]. apply tokenize_paren.
  - rewrite combined_license_cons. unfold tokenize at 1.
    rewrite tokenize_go_space, tokenize_go_space.
    change (tokenize_go "" ("( " +:+ x +:+ " )")) with (tokenize ("( " +:+ x +:+ " )")).
    change (tokenize_go "" (combined_license (y :: xs)))
      with (tokenize (combined_license (y :: xs))).
    rewrite tokenize_paren, IH.
    change (tokenize_go "" "AND") with [TAnd].
    cbn [map conj_tokens]. rewrite <- app_comm_cons, <- app_assoc. reflexivity.
Qed.

(** *** The parser on a conjunction *)

Lemma p_or_S f ts :
  p_or (S f) ts =
  match p_and f ts with
  | Some (fs, TOr :: r) =>
      match p_or f r with
      | Some (es, r') => Some (chain And fs :: es, r')
      | None => None
      end
  | Some (fs, r) => Some ([chain And fs], r)
  | None => None
  end.
Proof. reflexivity. Qed.

Lemma p_and_S f ts :
  p_and (S f) ts =
  match p_atom f ts with
  | Some (e, TAnd :: r) =>
      match p_and f r with
      | Some (es, r') => Some (e :: es, r')
      | None => None
      end
  | Some (e, r) => Some ([e], r)
  | None => None
  end.
Proof. reflexivity. Qed.

Lemma p_atom_S f ts :
  p_atom (S f) ts =
  match ts with
  | TWord w :: TWith :: TWord x :: r => Some (Sym (w +:+ " WITH " +:+ x), r)
  | TWord w :: r => Some (Sym w, r)
  | TOpen :: r =>
      match p_or f r with
      | Some (es, TClose :: r') => Some (chain Or es, r')
      | _ => None
      end
  | _ => None
  end.
Proof. reflexivity. Qed.

Lemma parser_fuel_S f :
  (forall ts r, p_or f ts = Some r -> p_or (S f) ts = Some r)
  /\ (forall ts r, p_and f ts = Some r -> p_and (S f) ts = Some r)
  /\ (forall ts r, p_atom f ts = Some r -> p_atom (S f) ts = Some r).
Proof.
  induction f as [|f (IHor & IHand & IHatom)]; [done|].
  split; [|split]; intros ts r.
  - rewrite (p_or_S f), (p_or_S (S f)). intros H.
    destruct (p_and f ts) as [[fs r0]|] eqn:E; [|done].
    rewrite (IHand _ _ E).
    destruct r0 as [|[] r0]; try done.
    destruct (p_or f r0) as [[es r']|] eqn:E'; [|done].
    by rewrite (IHor _ _ E').
  - rewrite (p_and_S f), (p_and_S (S f)). intros H.
    destruct (p_atom f ts) as [[e r0]|] eqn:E; [|done].
    rewrite (IHatom _ _ E).
    destruct r0 as [|[] r0]; try done.
    destruct (p_and f r0) as [[es r']|] eqn:E'; [|done].
    by rewrite (IHand _ _ E').
  - rewrite (p_atom_S f), (p_atom_S (S f)). intros H.
    destruct ts as [|[] ts]; try done.
    destruct (p_or f ts) as [[es r']|] eqn:E; [|done].
    by rewrite (IHor _ _ E).
Qed.

Lemma p_or_fuel f f' ts r : f <= f' -> p_or f ts = Some r -> p_or f' ts = Some r.
Proof.
  induction 1 as [|f' _ IH]; [done|]. intros H. by apply parser_fuel_S, IH.
Qed.

Lemma parser_suffix f suf :
  (forall ts es r, p_or f ts = Some (es, r) ->
     p_or f (ts ++ TClose :: suf) = Some (es, r ++ TClose :: suf))
  /\ (forall ts es r, p_and f ts = Some (es, r) ->
        p_and f (ts ++ TClose :: suf) = Some (es, r ++ TClose :: suf))
  /\ (forall ts e r, p_atom f ts = Some (e, r) ->
        p_atom f (ts ++ TClose :: suf) = Some (e, r ++ TClose :: suf)).
Proof.
  induction f as [|f (IHor & IHand & IHatom)]; [done|].
  split; [|split]; intros ts res r.
  - rewrite !p_or_S. intros H.
    destruct (p_and f ts) as [[fs r0]|] eqn:E; [|done].
    rewrite (IHand _ _ _ E).
    destruct r0 as [|[] r0]; cbn [app]; try (by simplify_eq).
    destruct (p_or f r0) as [[es r']|] eqn:E'; [|done].
    rewrite (IHor _ _ _ E'). by simplify_eq.
  - rewrite !p_and_S. intros H.
    destruct (p_atom f ts) as [[e r0]|] eqn:E; [|done].
    rewrite (IHatom _ _ _ E).
    destruct r0 as [|[] r0]; cbn [app]; try (by simplify_eq).
    destruct (p_and f r0) as [[es r']|] eqn:E'; [|done].
    rewrite (IHand _ _ _ E'). by simplify_eq.
  - rewrite !p_atom_S. intros H.
    destruct ts as [|[] ts]; cbn [app]; try done.
    + destruct (p_or f ts) as [[es r']|] eqn:E; [|done].
      rewrite (IHor _ _ _ E).
      destruct r' as [|[] r']; cbn [app]; try done. by simplify_eq.
    + destruct ts as [|[] ts]; cbn [app]; try (by simplify_eq).
      destruct ts as [|[] ts]; cbn [app]; by simplify_eq.
Qed.

Lemma conj_tokens_cons ts ts' tss :
  conj_tokens (ts :: ts' :: tss) = TOpen :: ts ++ TClose :: TAnd :: conj_tokens (ts' :: tss).
Proof. reflexivity. Qed.

Lemma conj_tokens_count tss : 3 * length tss <= length (conj_tokens tss) + 1.
Proof.
  induction tss as [|ts [|ts' tss] IH]; [cbn; lia| |].
  - cbn [conj_tokens length]. rewrite length_app. cbn. lia.
  - rewrite conj_tokens_cons. cbn [length] in *. rewrite length_app. cbn [length]. lia.
Qed.

Lemma conj_tokens_length tss ts :
  ts ∈ tss -> length ts + 3 * length tss <= length (conj_tokens tss) + 1.
Proof.
  induction tss as [|t [|t' tss] IH]; intros Hin.
  - by apply elem_of_nil in Hin.
  - apply list_elem_of_singleton in Hin as ->.
    cbn [conj_tokens length]. rewrite length_app. cbn. lia.
  - rewrite conj_tokens_cons. cbn [length]. rewrite length_app. cbn [length].
    apply elem_of_cons in Hin as [->|Hin].
    + pose proof (conj_tokens_count (t' :: tss)). cbn [length] in *. lia.
    + specialize (IH Hin). cbn [length] in *. lia.
Qed.

Lemma p_and_conj (items : list (list token * list Expr)) : forall f f0,
  items <> [] ->
  Forall (fun it => p_or f0 it.1 = Some (it.2, [])) items ->
  f0 + 1 + length items <= f ->
  p_and f (conj_tokens (map fst items))
  = Some (map (fun it => chain Or it.2) items, []).
Proof.
  induction items as [|[ts es] items IH]; intros f f0 Hne Hall Hf; [done|].
  inversion Hall as [|? ? Hit Hrest]; subst. cbn [fst snd] in Hit.
  cbn [length] in Hf.
  destruct f as [|[|f2]]; [lia|lia|].
  assert (f0 <= f2) as Hf2 by lia.
  destruct items as [|it2 items].
  - cbn [map conj_tokens fst snd]. rewrite p_and_S, p_atom_S.
    rewrite (proj1 (parser_suffix f2 []) _ _ _ (p_or_fuel _ _ _ _ Hf2 Hit)).
    reflexivity.
  - cbn [map fst snd]. rewrite conj_tokens_cons, p_and_S, p_atom_S.
    rewrite (proj1 (parser_suffix f2 _) _ _ _ (p_or_fuel _ _ _ _ Hf2 Hit)).
    cbn [app].
    change (fst it2 :: map fst items) with (map fst (it2 :: items)).
    rewrite (IH (S f2) f0); [reflexivity|done|done|cbn [length] in *; lia].
Qed.

Lemma parse_Parsed x e :
  parse x = Parsed e ->
  exists es, p_or (3 * length (tokenize x) + 3) (tokenize x) = Some (es, [])
             /\ e = chain Or es.
Proof.
  unfold parse, parse_tokens. destruct (Str.strip_left x); [done|].
  destruct (p_or _ _) as [[es [|? ?]]|]; try done.
  intros [= <-]. by exists es.
Qed.

Lemma strip_left_combined x xs :
  Str.strip_left (combined_license (x :: xs)) = combined_license (x :: xs).
Proof. by destruct xs. Qed.

(** [parse] reads a conjunction of parenthesised expressions as the [AND]
    of what it reads for each of them. *)
Lemma spdx_parses_conjunctions xs es :
  xs <> [] ->
  Forall2 (fun x e => parse x = Parsed e) xs es ->
  parse (combined_license xs) = Parsed (chain And es).
Proof.
  intros Hne Hall.
  assert (exists items : list (list token * list Expr),
            map fst items = map tokenize xs
            /\ map (fun it => chain Or it.2) items = es
            /\ Forall (fun it => p_or (3 * length it.1 + 3) it.1 = Some (it.2, []))
                 items) as (items & Hts & Hes & Hitems).
  { clear Hne. induction Hall as [|x e xs es Hx _ (items & Hts & Hes & Hitems)].
    - by exists [].
    - destruct (parse_Parsed _ _ Hx) as (ex & Hp & ->).
      exists ((tokenize x, ex) :: items). cbn [map fst snd].
      split; [by rewrite Hts|]. split; [by rewrite Hes|]. by constructor. }
  destruct xs as [|x xs]; [done|].
  unfold parse. rewrite strip_left_combined.
  destruct (combined_license (x :: xs)) eqn:Ec; [by destruct xs|]. rewrite <- Ec.
  unfold parse_tokens. rewrite tokenize_combined, <- Hts.
  set (L := length (conj_tokens (map fst items))).
  assert (length items = length (x :: xs)) as Hlen
    by (by rewrite <- (length_map fst), Hts, length_map).
  assert (items <> []) as Hitems_ne by (by destruct items).
  assert (3 * length items <= L + 1) as Hcount
    by (unfold L; rewrite <- (length_map fst items); apply conj_tokens_count).
  replace (3 * L + 3) with (S (3 * L + 2)) by lia. rewrite p_or_S.
  rewrite (p_and_conj items (3 * L + 2) (3 * L + 1 - length items)); [| done | | lia].
  - by rewrite Hes.
  - apply Forall_forall. intros it Hin. rewrite Forall_forall in Hitems.
    apply (p_or_fuel (3 * length it.1 + 3)); [|by apply Hitems].
    assert (it.1 ∈ map fst items) as Hin' by (by apply list_elem_of_fmap_2).
    pose proof (conj_tokens_length _ _ Hin') as Hl. rewrite length_map in Hl.
    fold L in Hl. cbn [length] in *. lia.
Qed.

End Reference.

(** ** The set of licenses *)

Lemma elem_of_set_add x y s : x ∈ set_add y s <-> x = y \/ x ∈ s.
Proof.
  unfold set_add. case_bool_decide as H.
  - split; [by right|]. intros [->|?]; done.
  - rewrite elem_of_app, list_elem_of_singleton. tauto.
Qed.

Lemma set_add_idemp x s : set_add x (set_add x s) = set_add x s.
Proof.
  unfold set_add at 1. rewrite bool_decide_eq_true_2; [done|].
  apply elem_of_set_add. by left.
Qed.

Lemma NoDup_set_add y s : NoDup s -> NoDup (set_add y s).
Proof.
  intros Hs. unfold set_add. case_bool_decide as H; [done|].
  apply NoDup_app. split; [done|]. split; [|apply NoDup_singleton].
  intros x Hx ->%list_elem_of_singleton. done.
Qed.

Lemma elem_of_set_discard x y s : x ∈ set_discard y s <-> x ∈ s /\ x <> y.
Proof.
  unfold set_discard. induction s as [|a s IH]; cbn [List.filter].
  - split; [by intros ?%elem_of_nil|by intros [?%elem_of_nil _]].
  - destruct (String.eqb a y) eqn:E; cbn [negb].
    + apply String.eqb_eq in E as ->. rewrite IH, elem_of_cons.
      split; [intros [? ?]; split; [by right|done]|].
      intros [[->|?] ?]; done.
    + apply String.eqb_neq in E. rewrite !elem_of_cons, IH.
      split; [intros [->|[? ?]]; split; auto|].
      intros [[->|?] ?]; [by left|by right].
Qed.

Lemma NoDup_set_discard y s : NoDup s -> NoDup (set_discard y s).
Proof.
  intros Hs. unfold set_discard. apply NoDup_ListNoDup, List.NoDup_filter.
  by apply NoDup_ListNoDup.
Qed.

Lemma is_iteration_spec order s :
  is_iteration order s = true <-> NoDup order /\ forall x, x ∈ order <-> x ∈ s.
Proof.
  unfold is_iteration. rewrite !andb_true_iff, bool_decide_eq_true, !forallb_forall.
  split.
  - intros [[Hn Ho] Hs]. split; [done|]. intros x. split; intros Hx%list_elem_of_In.
    + by eapply bool_decide_eq_true_1, Ho.
    + by eapply bool_decide_eq_true_1, Hs.
  - intros [Hn H]. split; [split; [done|]|]; intros x Hx%list_elem_of_In;
      apply bool_decide_eq_true_2; by apply H.
Qed.

(** The iteration yields the strings that are left, each once, in some
    order. *)
Lemma iteration_spec s discarded w :
  NoDup s ->
  exists order,
    iteration s discarded w = (Ok order, w)
    /\ NoDup order
    /\ forall x, x ∈ order <-> x ∈ s /\ x <> discarded.
Proof.
  intros Hs. unfold iteration. eexists. split; [reflexivity|].
  destruct (is_iteration _ _) eqn:E.
  - apply is_iteration_spec in E as [Hn H]. split; [done|].
    intros x. by rewrite H, elem_of_set_discard.
  - split; [by apply NoDup_set_discard|]. intros x. apply elem_of_set_discard.
Qed.

Lemma iteration_nil s discarded w :
  set_discard discarded s = [] -> iteration s discarded w = (Ok [], w).
Proof.
  intros E. unfold iteration. rewrite E.
  destruct (is_iteration _ []) eqn:Hi; [|done].
  apply is_iteration_spec in Hi as [_ H].
  destruct (set_order w s discarded) as [|x l]; [done|].
  exfalso. eapply (elem_of_nil x), H. left.
Qed.

Lemma crate_license_set_elem declared : forall (acc : list string) x,
  x ∈ foldl (fun acc license => set_add (cargo_to_spdx license) acc) acc declared
  <-> x ∈ acc \/ exists l, l ∈ declared /\ x = cargo_to_spdx l.
Proof.
  induction declared as [|l ls IH]; intros acc x; simpl.
  - split; [by left|]. intros [?|(l & Hl & _)]; [done|]. by apply elem_of_nil in Hl.
  - rewrite IH, elem_of_set_add. split.
    + intros [[->|H]|(l' & Hl' & Hx)].
      * right. exists l. split; [left|done].
      * by left.
      * right. exists l'. split; [by right|done].
    + intros [H|(l' & Hl' & Hx)].
      * left. by right.
      * apply elem_of_cons in Hl' as [Hl'|Hl'].
        -- left. left. by subst.
        -- right. by exists l'.
Qed.

Lemma NoDup_foldl_set_add declared : forall acc : list string,
  NoDup acc ->
  NoDup (foldl (fun acc license => set_add (cargo_to_spdx license) acc) acc declared).
Proof.
  induction declared as [|l ls IH]; intros acc Hacc; [done|].
  simpl. by apply IH, NoDup_set_add.
Qed.

Lemma NoDup_crate_license_set declared : NoDup (crate_license_set declared).
Proof. apply NoDup_foldl_set_add. constructor. Qed.

Lemma elem_of_crate_license_set declared x :
  x ∈ crate_license_set declared <-> exists l, l ∈ declared /\ x = cargo_to_spdx l.
Proof.
  unfold crate_license_set. rewrite crate_license_set_elem. split; [|by right].
  intros [H|?]; [|done]. by apply elem_of_nil in H.
Qed.

(** ** License aggregation *)

(** The set the loop returns is the one [crate_license_set] describes. *)
Lemma fetch_crates_collects distdir deps : forall acc w s w',
  fetch_crates distdir deps acc w = (Ok s, w') ->
  exists declared,
    length declared = length deps
    /\ s = foldl (fun acc license => set_add (cargo_to_spdx license) acc) acc declared.
Proof.
  induction deps as [|[[p v] csum] deps IH]; intros acc w s w' H.
  - injection H as <- <-. by exists [].
  - cbn [fetch_crates] in H. unfold bind at 1 in H.
    destruct (fetch_crate distdir (p, v, csum) acc w) as [[acc'|e] w1] eqn:E; [|done].
    destruct (IH _ _ _ _ H) as (declared & Hlen & ->).
    assert (exists l, acc' = set_add (cargo_to_spdx l) acc) as [l ->].
    { unfold fetch_crate, bind in E.
      repeat match type of E with
             | context [match ?m with _ => _ end] => destruct m; try done
             end.
      unfold ret in E. injection E as <- _. by eexists. }
    exists (l :: declared). split; [simpl; by rewrite Hlen|done].
Qed.

Lemma fetch_crate_cached distdir dep acc w :
  cached distdir w dep ->
  fetch_crate distdir dep acc w =
    (match cached_license distdir w dep with
     | Ok l => Ok (set_add (cargo_to_spdx l) acc)
     | Raise e => Raise e
     end, w).
Proof.
  destruct dep as [[p v] csum]. intros [f Hf]. unfold cached_license.
  cbn [fst snd] in *.
  rewrite (fetch_crate_present _ _ _ _ _ _ _ Hf), Hf.
  destruct (String.eqb _ _); [|done].
  by destruct (crate_license _ _ w) as [[l|e] w'].
Qed.

Lemma fetch_crates_cached distdir w deps : forall acc,
  Forall (cached distdir w) deps ->
  forallb (readable distdir w) deps = true ->
  fetch_crates distdir deps acc w =
    (Ok (foldl (fun acc license => set_add (cargo_to_spdx license) acc) acc
           (map (declared_license distdir w) deps)), w).
Proof.
  induction deps as [|d deps IH]; intros acc Hc Hr; [done|].
  inversion Hc as [|? ? Hd Hdeps]; subst.
  cbn [fetch_crates forallb map foldl] in *. unfold bind.
  rewrite (fetch_crate_cached _ _ _ _ Hd).
  apply andb_prop in Hr as [Hr Hrs].
  unfold declared_license at 1. unfold readable in Hr.
  destruct (cached_license distdir w d) as [l|e]; [|done].
  by apply IH.
Qed.

Lemma members_parse_Forall2 lic (order : list string) :
  (forall x, x ∈ order -> exists e, parse lic x = Parsed e) ->
  Forall2 (fun x e => parse lic x = Parsed e) order (map (expression_of lic) order).
Proof.
  induction order as [|x order IH]; intros H; [constructor|].
  cbn [map]. constructor.
  - unfold expression_of. destruct (H x) as [e He]; [left|]. by rewrite He.
  - apply IH. intros y Hy. apply H. by right.
Qed.

Lemma Forall2_expression_of lic (xs : list string) (es : list Expr) :
  Forall2 (fun x e => parse lic x = Parsed e) xs es ->
  es = map (expression_of lic) xs
  /\ forall x, x ∈ xs -> exists e, parse lic x = Parsed e.
Proof.
  induction 1 as [|x e xs es He _ [-> IH]]; [split; [done|]|].
  - by intros x ?%elem_of_nil.
  - split; [cbn [map]; f_equal; unfold expression_of; by rewrite He|].
    intros y [->|Hy]%elem_of_cons; [by exists e|by apply IH].
Qed.

(** The addendum is a function of the strings of the set, whatever the
    order of their insertion and the order of the iteration. *)
Lemma addendum_canonical lic pkg_license s s' w w' :
  parses_conjunctions lic ->
  simplify_commutes lic ->
  NoDup s -> NoDup s' ->
  members_parse lic pkg_license s ->
  (forall x, x <> pkg_license -> x ∈ s <-> x ∈ s') ->
  (crate_license_addendum lic pkg_license s w).1
  = (crate_license_addendum lic pkg_license s' w').1.
Proof.
  intros Hconj Hcomm Hs Hs' Hparse Hsame. unfold crate_license_addendum.
  destruct (iteration_spec s pkg_license w Hs) as (order & Ho & Hnd & Hin).
  destruct (iteration_spec s' pkg_license w' Hs') as (order' & Ho' & Hnd' & Hin').
  rewrite (bind_ok _ _ _ _ _ Ho), (bind_ok _ _ _ _ _ Ho').
  assert (order ≡ₚ order') as Hperm.
  { apply NoDup_Permutation; [done|done|]. intros x. rewrite Hin, Hin'.
    split; intros [? ?]; (split; [by apply (Hsame x)|done]). }
  destruct order as [|x order].
  { apply Permutation_nil_l in Hperm as ->. unfold spdx_parse, bind, ret, raise.
    by destruct (parse lic _). }
  assert (order' <> []) as Hne'
    by (intros ->; by apply Permutation_nil_r in Hperm).
  assert (forall y, y ∈ x :: order -> exists e, parse lic y = Parsed e) as Hall.
  { intros y [Hy Hneq]%Hin. by apply Hparse. }
  assert (forall y, y ∈ order' -> exists e, parse lic y = Parsed e) as Hall'.
  { intros y Hy. apply Hall. by rewrite Hperm. }
  unfold spdx_parse.
  rewrite (Hconj (x :: order) (map (expression_of lic) (x :: order)))
    by (done || by apply members_parse_Forall2).
  rewrite (Hconj order' (map (expression_of lic) order'))
    by (done || by apply members_parse_Forall2).
  unfold bind, ret. cbn [fst]. do 2 f_equal.
  apply Hcomm. by apply fmap_Permutation.
Qed.

(** C6 (as amended): when each license of a dependency is an expression of
    its own, the addendum is the same for any order of the dependencies, for
    a license that occurs more than once, and for any order in which the
    interpreter iterates the set. *)
Theorem license_aggregation_order_independent
    (lic : Licensing) (pkg_license : string) (declared declared' : list string)
    (w w' : World) :
  parses_conjunctions lic ->
  simplify_commutes lic ->
  (forall l, l ∈ declared -> exists e, parse lic (cargo_to_spdx l) = Parsed e) ->
  (forall l, l ∈ declared <-> l ∈ declared') ->
  (crate_license_addendum lic pkg_license (crate_license_set declared) w).1
  = (crate_license_addendum lic pkg_license (crate_license_set declared') w').1.
Proof.
  intros Hconj Hcomm Hparse Hsame.
  apply addendum_canonical; try done; try apply NoDup_crate_license_set.
  - intros x (l & Hl & ->)%elem_of_crate_license_set _. by apply Hparse.
  - intros x _. rewrite !elem_of_crate_license_set.
    split; intros (l & Hl & ->); exists l; (split; [by apply Hsame|done]).
Qed.

Lemma license_aggregation_order_independent_witness :
  (crate_license_addendum spdx "MIT"
     (crate_license_set ["Apache-2.0/MIT"; "ISC"; "Apache-2.0/MIT"])
     Sample.world).1
  = (crate_license_addendum spdx "MIT"
       (crate_license_set ["ISC"; "Apache-2.0/MIT"]) Fixture.world_baz).1.
Proof.
  apply (license_aggregation_order_independent spdx "MIT"
           ["Apache-2.0/MIT"; "ISC"; "Apache-2.0/MIT"] ["ISC"; "Apache-2.0/MIT"]
           Sample.world Fixture.world_baz).
  - exact spdx_parses_conjunctions.
  - exact spdx_simplify_commutes.
  - intros l Hl. repeat (apply elem_of_cons in Hl as [->|Hl]).
    + by eexists.
    + by eexists.
    + by eexists.
    + by apply elem_of_nil in Hl.
  - intros l. rewrite !elem_of_cons. tauto.
Defined.

(** C6, as the claim has it, fails: two licenses that are not expressions
    of their own, added in one order and in the other to a set that the
    interpreter iterates in the order of insertion. *)
Lemma license_aggregation_depends_on_order :
  ["( MIT"; "MIT )"] ≡ₚ ["MIT )"; "( MIT"]
  /\ (crate_license_addendum spdx "Apache-2.0"
        (crate_license_set ["( MIT"; "MIT )"]) Fixture.world_baz).1
     = Ok "MIT"
  /\ (crate_license_addendum spdx "Apache-2.0"
        (crate_license_set ["MIT )"; "( MIT"]) Fixture.world_baz).1
     = Raise ExpressionError.
Proof.
  split; [apply Permutation_swap|]. split; vm_compute; reflexivity.
Qed.

Example aggregate_two_crates :
  (crate_license_addendum spdx "Apache-2.0 OR MIT"
     (crate_license_set ["(BSD-3-Clause OR MIT) AND Unicode-DFS-2016";
                         "CC0-1.0 OR Unlicense"]) Sample.world).1
  = Ok "Unicode-DFS-2016 || ( BSD-3-Clause MIT ) || ( CC0-1.0 Unlicense )".
Proof. vm_compute. reflexivity. Qed.

(** ** Runs of [get_ebuild] *)

(** C5 (what the code does): when no dependency license is left after the
    package's own license is discarded, [spdx.parse] is handed the empty
    string and returns [None], and [get_ebuild] ends in an [AttributeError]
    instead of rendering an empty addendum. *)
Theorem empty_license_set_raises
    lic prog_version cargo_toml cargo_lock distdir w
    pkgmeta pkg_license e packages deps s w' :
  cargo_toml !! "package" = Some pkgmeta ->
  contains pkgmeta "license_file" = false ->
  pkgmeta !! "license" = Some pkg_license ->
  parse lic pkg_license = Parsed e ->
  lock_version cargo_lock = Some 3%Z ->
  lock_package cargo_lock = Some packages ->
  (lock_deps pkgmeta packages w).1 = Ok deps ->
  fetch_crates distdir deps [] w = (Ok s, w') ->
  set_discard pkg_license s = [] ->
  parse lic "" = ParseNone ->
  get_ebuild lic prog_version cargo_toml cargo_lock distdir w =
    (Raise (AttributeError "'NoneType' object has no attribute 'simplify'"), w').
Proof.
  intros Hpkg Hfile Hlic Hparse Hver Hpackages Hdeps Hfetch Hempty Hnone.
  assert (lock_deps pkgmeta packages w = (Ok deps, w)) as Hdeps'.
  { pose proof (lock_deps_world pkgmeta packages w).
    destruct (lock_deps pkgmeta packages w); simpl in *; by subst. }
  unfold get_ebuild.
  rewrite (bind_ok _ _ _ _ _ (getitem_some _ _ _ w Hpkg)).
  unfold assert_ at 1. rewrite Hfile. cbn [negb]. rewrite (bind_ok _ _ w tt w eq_refl).
  rewrite (bind_ok _ _ _ _ _ (getitem_some _ _ _ w Hlic)).
  unfold spdx_parse at 1. rewrite Hparse. rewrite (bind_ok _ _ w (Some e) w eq_refl).
  rewrite Hver. rewrite (bind_ok _ _ w 3%Z w eq_refl).
  cbn [Z.eqb Pos.eqb assert_]. rewrite (bind_ok _ _ w tt w eq_refl).
  rewrite Hpackages. rewrite (bind_ok _ _ w packages w eq_refl).
  rewrite (bind_ok _ _ _ _ _ Hdeps').
  rewrite (bind_ok _ _ _ _ _ Hfetch).
  apply bind_raise.
  unfold crate_license_addendum.
  rewrite (bind_ok _ _ _ _ _ (iteration_nil _ _ w' Hempty)).
  unfold combined_license. cbn [map Str.join].
  unfold spdx_parse. rewrite Hnone. reflexivity.
Qed.

Lemma empty_license_set_raises_witness :
  get_ebuild spdx "0.1" Sample.cargo_toml Sample.lock_no_crates "dist" Sample.world =
    (Raise (AttributeError "'NoneType' object has no attribute 'simplify'"),
     Sample.world).
Proof.
  eapply (empty_license_set_raises spdx "0.1" Sample.cargo_toml Sample.lock_no_crates
            "dist" Sample.world _ "Apache-2.0 OR MIT" _ _ [] [] Sample.world);
    try reflexivity.
Defined.

(** C10 (what the code does): a manifest without a license field, or
    without a homepage field, makes [get_ebuild] raise. *)
Theorem absent_license_or_homepage_raises
    lic prog_version cargo_toml cargo_lock distdir w pkgmeta :
  cargo_toml !! "package" = Some pkgmeta ->
  pkgmeta !! "license" = None \/ pkgmeta !! "homepage" = None ->
  exists e, (get_ebuild lic prog_version cargo_toml cargo_lock distdir w).1 = Raise e.
Proof.
  intros Hpkg Habsent.
  change (fails (get_ebuild lic prog_version cargo_toml cargo_lock distdir w)).
  unfold get_ebuild.
  rewrite (bind_ok _ _ _ _ _ (getitem_some _ _ _ w Hpkg)).
  apply fails_bind; intros _ w1 _.
  destruct Habsent as [Hlic|Hhome].
  - rewrite (bind_raise _ _ _ _ _ (getitem_none _ _ w1 Hlic)). by eexists.
  - repeat lazymatch goal with
           | |- fails (bind (getitem pkgmeta "homepage") _ _) =>
               rewrite (bind_raise _ _ _ _ _ (getitem_none _ _ _ Hhome)); by eexists
           | |- fails (bind _ _ _) => apply fails_bind; intros ? ? _; cbv beta zeta
           end.
Qed.

Lemma absent_license_or_homepage_raises_witness :
  exists e,
    (get_ebuild spdx "0.1" Sample.bare_toml Sample.cargo_lock "dist" Sample.world).1
    = Raise e.
Proof.
  eapply (absent_license_or_homepage_raises spdx "0.1" Sample.bare_toml
            Sample.cargo_lock "dist" Sample.world
            {[ "name" := "foo"; "version" := "1.2.3" ]}).
  - reflexivity.
  - left. reflexivity.
Defined.

Example get_ebuild_no_license :
  get_ebuild spdx "0.1" Sample.bare_toml Sample.cargo_lock "dist" Sample.world
  = (Raise (KeyError "license"), Sample.world).
Proof. vm_compute. reflexivity. Qed.

Example get_ebuild_no_homepage :
  (get_ebuild spdx "0.1" {[ "package" := {[ "name" := "pkg"; "license" := "MIT" ]} ]}
     Sample.cargo_lock "dist" Sample.world).1
  = Raise (KeyError "homepage").
Proof. vm_compute. reflexivity. Qed.

(** C3 (what the code does): the dependency list is rendered in the order
    of the lock file, one line [tab name - version] per dependency. *)
Theorem get_ebuild_lists_crates_in_lock_order :
  (get_ebuild spdx "0.1" Sample.cargo_toml Sample.cargo_lock "dist" Sample.world).1 =
    Ok (EBUILD_TEMPLATE "2023" "0.1"
          (Str.tab +:+ "foo-1" +:+ Str.nl +:+ Str.tab +:+ "bar-2")
          "" "https://example.com" "|| ( Apache-2.0 MIT )"
          "Unicode-DFS-2016 || ( BSD-3-Clause MIT ) || ( CC0-1.0 Unlicense )").
Proof. vm_compute. reflexivity. Qed.

(** ** The scan keeps every line *)

Lemma scan_from_cons m st l ls :
  scan_from m st (l :: ls)
  = match step m st l with
    | None => None
    | Some (segs, st') => app segs <$> scan_from m st' ls
    end.
Proof. reflexivity. Qed.

Lemma lines_of_app a b : lines_of (a ++ b) = lines_of a ++ lines_of b.
Proof. unfold lines_of. by rewrite map_app, concat_app. Qed.

Lemma enter_lines k lead l :
  lines_of (enter k lead l).1 ++ pending (enter k lead l).2 = lead ++ [l].
Proof.
  unfold enter. destruct (String.eqb l (opener k)); simpl.
  - by rewrite rev_involutive.
  - unfold lines_of. simpl. by rewrite !app_nil_r.
Qed.

Lemma is_marker_true m l : is_marker m l = true -> l = LICENSE_MARKER.
Proof. unfold is_marker. by intros [_ ?%String.eqb_eq]%andb_prop. Qed.

Lemma step_outside_lines m l :
  lines_of (step_outside m l).1 ++ pending (step_outside m l).2 = [l].
Proof.
  unfold step_outside. destruct (is_marker m l) eqn:E.
  - by apply is_marker_true in E as ->.
  - destruct (starts KCrates l); [apply (enter_lines KCrates [] l)|].
    destruct (starts KGit l); [apply (enter_lines KGit [] l)|]. done.
Qed.

Lemma step_lines m st l segs st' :
  step m st l = Some (segs, st') ->
  lines_of segs ++ pending st' = pending st ++ [l].
Proof.
  destruct st as [| |k acc]; cbn [step pending].
  - intros [= H]. pose proof (step_outside_lines m l) as Hs. by rewrite H in Hs.
  - destruct (starts KLicense l).
    + intros [= H]. pose proof (enter_lines KLicense [LICENSE_MARKER] l) as He.
      by rewrite H in He.
    + destruct m; [done| |]; intros [= <- <-];
        unfold lines_of; simpl; f_equal; apply step_outside_lines.
  - destruct (String.eqb l (close_marker k)).
    + intros [= <- <-]. unfold lines_of. simpl. by rewrite !app_nil_r.
    + destruct (begins m l); [done|]. by intros [= <- <-].
Qed.

Lemma scan_from_lines m ls : forall st segs,
  scan_from m st ls = Some segs -> lines_of segs = pending st ++ ls.
Proof.
  induction ls as [|l ls IH]; intros st segs; cbn [scan_from].
  - rewrite app_nil_r. destruct st as [| |k acc]; cbn [finish pending].
    + by intros [= <-].
    + destruct m; [done| |]; by intros [= <-].
    + done.
  - destruct (step m st l) as [[segs1 st1]|] eqn:E; [|done].
    destruct (scan_from m st1 ls) as [segs2|] eqn:E2; [|done].
    intros [= <-]. rewrite lines_of_app, (IH _ _ E2), app_assoc, (step_lines _ _ _ _ _ E).
    by rewrite <- app_assoc.
Qed.

(** The segments of a text, put together again, are the text. *)
Lemma scan_lines m ls segs : scan m ls = Some segs -> lines_of segs = ls.
Proof. apply scan_from_lines. Qed.

Lemma join_split ebuild : Str.join Str.nl (Str.split "010" ebuild) = ebuild.
Proof.
  induction ebuild as [|a s IH]; [done|]. simpl.
  destruct (Ascii.eqb a "010") eqn:E.
  - apply Ascii.eqb_eq in E as ->. pose proof (split_nonempty "010" s) as Hne.
    destruct (Str.split "010" s) as [|w ws]; [done|].
    change (Str.join Str.nl ("" :: w :: ws)) with (String "010" (Str.join Str.nl (w :: ws))).
    by rewrite IH.
  - pose proof (split_nonempty "010" s) as Hne.
    destruct (Str.split "010" s) as [|w ws]; [done|].
    destruct ws as [|w' ws]; simpl in *; by rewrite <- IH.
Qed.

Lemma assemble_scan m ebuild segs :
  scan m (Str.split "010" ebuild) = Some segs -> assemble segs = ebuild.
Proof.
  intros H. unfold assemble. rewrite (scan_lines _ _ _ H). apply join_split.
Qed.

(** ** The lines that begin a region *)

Lemma startswith_head c p l :
  Str.startswith (String c p) l = true -> exists s, l = String c s.
Proof.
  destruct l as [|a s]; [done|]. cbn [Str.startswith].
  destruct (Ascii.eqb_spec c a) as [->|]; [by eexists|done].
Qed.

(** The first character of the lines that begin a region of kind [k]. *)
Lemma starts_initial k l :
  starts k l = true ->
  exists s, l = String (match k with
                        | KCrates => "C" | KLicense => "L" | KGit => "d"
                        end)%char s.
Proof.
  unfold starts, one_line. intros H. apply orb_prop in H as [H|H].
  - apply String.eqb_eq in H as ->. destruct k; by eexists.
  - destruct k.
    + apply String.eqb_eq in H as ->. by eexists.
    + apply andb_prop in H as [H _]. unfold opener in H. cbn [String.append] in H.
      by apply startswith_head in H.
    + done.
Qed.

Lemma starts_unique k k' l : starts k l = true -> starts k' l = true -> k = k'.
Proof.
  intros [s ->]%starts_initial [s' H]%starts_initial.
  destruct k, k'; done.
Qed.

Lemma starts_not_marker k : starts k LICENSE_MARKER = false.
Proof. by destruct k. Qed.

Lemma starts_not_close k k' : starts k (close_marker k') = false.
Proof. by destruct k, k'. Qed.

Lemma marker_not_close k : String.eqb LICENSE_MARKER (close_marker k) = false.
Proof. by destruct k. Qed.

Lemma begins_false m l :
  begins m l = false ->
  is_marker m l = false /\ starts KCrates l = false /\ starts KGit l = false.
Proof.
  unfold begins. intros H. apply orb_false_elim in H as [H Hg].
  by apply orb_false_elim in H as [Hm Hc].
Qed.


(** ** Counting regions *)

Lemma count_cons k s segs :
  count k (s :: segs) = (if is_region k s then 1 else 0) + count k segs.
Proof.
  unfold count. rewrite filter_cons.
  destruct (decide (is_region k s = true)) as [->|H]; [done|].
  by apply not_true_is_false in H as ->.
Qed.

Lemma count_app k a b : count k (a ++ b) = count k a + count k b.
Proof.
  induction a as [|s a IH]; [done|].
  rewrite <- app_comm_cons, !count_cons, IH. lia.
Qed.

Lemma count_enter k' k lead l :
  count k' (enter k lead l).1 + begun k' (enter k lead l).2 = begun k' (Inside k []).
Proof. unfold enter. destruct (String.eqb l (opener k)), k, k'; reflexivity. Qed.

Lemma marker_line_false m k l :
  counted m k -> begins m l = false -> marker_line k l = false.
Proof.
  intros Hk (Hm & Hc & Hg)%begins_false. destruct k; cbn [marker_line]; try done.
  destruct Hk as [?| ->]; [done|]. exact Hm.
Qed.

Lemma step_outside_count m k l :
  counted m k ->
  count k (step_outside m l).1 + begun k (step_outside m l).2
  = if marker_line k l then 1 else 0.
Proof.
  intros Hk. unfold step_outside. destruct (is_marker m l) eqn:Hm.
  - apply is_marker_true in Hm as ->. by destruct k.
  - destruct (starts KCrates l) eqn:Hc.
    + rewrite count_enter. destruct k; cbn [marker_line begun].
      * by rewrite Hc.
      * destruct Hk as [?| ->]; [done|]. cbn in Hm. by rewrite Hm.
      * destruct (starts KGit l) eqn:Hg; [|done].
        by pose proof (starts_unique _ _ _ Hc Hg).
    + destruct (starts KGit l) eqn:Hg.
      * rewrite count_enter. destruct k; cbn [marker_line begun].
        -- by rewrite Hc.
        -- destruct Hk as [?| ->]; [done|]. cbn in Hm. by rewrite Hm.
        -- by rewrite Hg.
      * rewrite (marker_line_false m k l Hk); [done|].
        unfold begins. by rewrite Hm, Hc, Hg.
Qed.

Lemma step_count m k st l segs st' :
  counted m k ->
  step m st l = Some (segs, st') ->
  count k segs + begun k st' = begun k st + (if marker_line k l then 1 else 0).
Proof.
  intros Hk. destruct st as [| |k0 acc]; cbn [step].
  - intros [= H]. pose proof (step_outside_count m k l Hk) as Hs. by rewrite H in Hs.
  - destruct (starts KLicense l) eqn:Hl.
    + intros [= H]. pose proof (count_enter k KLicense [LICENSE_MARKER] l) as He.
      rewrite H in He. cbn [fst snd] in He. rewrite He.
      assert (marker_line k l = false) as ->; [|by destruct k].
      destruct k; cbn [marker_line].
      * destruct (starts KCrates l) eqn:Hc; [|done].
        by pose proof (starts_unique _ _ _ Hl Hc).
      * destruct (String.eqb_spec l LICENSE_MARKER) as [->|]; [|done].
        by rewrite starts_not_marker in Hl.
      * destruct (starts KGit l) eqn:Hg; [|done].
        by pose proof (starts_unique _ _ _ Hl Hg).
    + destruct Hk as [Hk| ->]; [|done].
      pose proof (step_outside_count m k l (or_introl Hk)) as Hs.
      destruct m; [done| |]; intros [= <- <-]; rewrite count_cons;
        (destruct k; [|done|]); cbn [is_region begun] in *; lia.
  - destruct (String.eqb_spec l (close_marker k0)) as [->|Hclose].
    + intros [= <- <-]. rewrite count_cons.
      assert (marker_line k (close_marker k0) = false) as ->
        by (by destruct k, k0).
      by destruct k, k0.
    + destruct (begins m l) eqn:Hb; [done|]. intros [= <- <-].
      rewrite (marker_line_false m k l Hk Hb). cbn. lia.
Qed.

(** The scan finds as many regions as the text has lines that begin one. *)
Lemma scan_from_count m k ls : forall st segs,
  counted m k ->
  scan_from m st ls = Some segs ->
  count k segs = begun k st + markers k ls.
Proof.
  induction ls as [|l ls IH]; intros st segs Hk; cbn [scan_from].
  - unfold markers. cbn. destruct st as [| |k0 acc]; cbn [finish].
    + by intros [= <-].
    + destruct Hk as [Hk| ->]; [|done].
      destruct m; [done| |]; intros [= <-]; by destruct k.
    + done.
  - destruct (step m st l) as [[segs1 st1]|] eqn:E; [|done].
    destruct (scan_from m st1 ls) as [segs2|] eqn:E2; [|done].
    intros [= <-]. rewrite count_app, (IH _ _ Hk E2).
    pose proof (step_count _ _ _ _ _ _ Hk E) as Hs.
    unfold markers in *. cbn [List.filter].
    destruct (marker_line k l); cbn [length]; lia.
Qed.

Lemma scan_count m k ls segs :
  counted m k -> scan m ls = Some segs -> count k segs = markers k ls.
Proof. intros Hk H. by rewrite (scan_from_count _ _ _ _ _ Hk H). Qed.




(** ** A region that is not closed *)

Lemma scan_inside_unclosed m k ls : forall acc,
  existsb (String.eqb (close_marker k)) ls = false ->
  scan_from m (Inside k acc) ls = None.
Proof.
  induction ls as [|l ls IH]; intros acc H; [done|].
  cbn [existsb] in H. apply orb_false_elim in H as [Hl Hls].
  cbn [scan_from step]. rewrite String.eqb_sym, Hl.
  destruct (begins m l); [done|]. by rewrite IH.
Qed.

Lemma enter_opener k lead : enter k lead (opener k) = ([], Inside k (opener k :: rev lead)).
Proof. unfold enter. by rewrite String.eqb_refl. Qed.

Lemma starts_opener k : starts k (opener k) = true.
Proof. unfold starts. by rewrite String.eqb_refl. Qed.

Lemma is_marker_opener m k : is_marker m (opener k) = false.
Proof. by destruct m, k. Qed.

Lemma step_outside_opener m k :
  k <> KLicense ->
  step_outside m (opener k) = ([], Inside k [opener k]).
Proof.
  intros Hk. unfold step_outside. rewrite is_marker_opener.
  destruct k; [|done|].
  - by rewrite starts_opener, enter_opener.
  - change (starts KCrates (opener KGit)) with false. cbv iota.
    by rewrite starts_opener, enter_opener.
Qed.

(** The dependency list is begun and never closed: the artifact is
    malformed. *)
Lemma scan_from_unclosed m ls : forall st,
  unclosed ls = true -> scan_from m st ls = None.
Proof.
  induction ls as [|l ls IH]; intros st H; [done|].
  cbn [unclosed] in H. apply orb_prop in H as [H|H].
  - apply andb_prop in H as [->%String.eqb_eq Hno]. apply negb_true_iff in Hno.
    cbn [scan_from]. destruct st as [| |k acc]; cbn [step].
    + rewrite step_outside_opener by done. by rewrite scan_inside_unclosed.
    + change (starts KLicense (opener KCrates)) with false. cbv iota.
      rewrite step_outside_opener by done. cbn [fst snd].
      destruct m; [done| |]; by rewrite scan_inside_unclosed.
    + assert (String.eqb (opener KCrates) (close_marker k) = false) as ->
        by (by destruct k).
      assert (begins m (opener KCrates) = true) as ->; [|done].
      unfold begins. by rewrite starts_opener, orb_true_r.
  - cbn [scan_from]. destruct (step m st l) as [[segs1 st1]|]; [|done].
    by rewrite IH.
Qed.

(** The marker comment without its block: the artifact is malformed when
    the region is validated. *)
Lemma scan_from_orphan_marker ls : forall st,
  orphan_marker ls = true -> scan_from Validate st ls = None.
Proof.
  induction ls as [|l ls IH]; intros st H; [done|].
  cbn [orphan_marker] in H. apply orb_prop in H as [H|H].
  - apply andb_prop in H as [->%String.eqb_eq Hnext]. apply negb_true_iff in Hnext.
    rewrite scan_from_cons. destruct st as [| |k acc]; cbn [step].
    + change (step_outside Validate LICENSE_MARKER)
        with ([] : list Segment, AfterMarker).
      cbv beta iota. destruct ls as [|l' ls]; [done|].
      rewrite scan_from_cons. cbn [step]. by rewrite Hnext.
    + by rewrite starts_not_marker.
    + rewrite marker_not_close. by change (begins Validate LICENSE_MARKER) with true.
  - rewrite scan_from_cons. destruct (step Validate st l) as [[segs1 st1]|]; [|done].
    by rewrite IH.
Qed.

(** The dependent-license block is begun and never closed. *)
Lemma scan_from_unclosed_license ls : forall st,
  unclosed_license ls = true -> scan_from Validate st ls = None.
Proof.
  induction ls as [|l ls IH]; intros st H; [done|].
  destruct ls as [|l' ls]; [done|].
  cbn [unclosed_license] in H. apply orb_prop in H as [H|H].
  - apply andb_prop in H as [[->%String.eqb_eq ->%String.eqb_eq]%andb_prop Hno].
    apply negb_true_iff in Hno.
    rewrite scan_from_cons. destruct st as [| |k acc]; cbn [step].
    + change (step_outside Validate LICENSE_MARKER)
        with ([] : list Segment, AfterMarker).
      cbv beta iota. rewrite scan_from_cons.
      change (step Validate AfterMarker (opener KLicense))
        with (Some ([] : list Segment,
                    Inside KLicense (opener KLicense :: rev [LICENSE_MARKER]))).
      cbv beta iota. by rewrite scan_inside_unclosed.
    + by rewrite starts_not_marker.
    + rewrite marker_not_close. by change (begins Validate LICENSE_MARKER) with true.
  - rewrite scan_from_cons. destruct (step Validate st l) as [[segs1 st1]|]; [|done].
    by rewrite IH.
Qed.

(** ** A dependent-license block in the text *)





(** ** Without the marker comment the region is not seen *)



(** ** Reading back what the patcher wrote *)


















(** ** What the patcher writes is a fixed point *)





(** ** Regions before and after the replacement *)




(** ** Lines without line breaks *)




(** ** The patcher *)

Lemma update_malformed m ebuild crates crate_licenses :
  scan m (Str.split "010" ebuild) = None ->
  exists msg, update_with m ebuild crates crate_licenses = Raise (RuntimeError msg).
Proof. intros H. unfold update_with. rewrite H. by eexists. Qed.

(** C1: the patcher wants the dependency list exactly once, and the
    dependent-license region exactly once when crate licenses are asked for.
    A text in which the number of lines that begin a dependency list (its
    start marker, or the empty list on one line) is not one, or in which a
    dependency list is begun and never closed, is refused with a
    [RuntimeError], and no text comes back; so is, with crate licenses, a
    text in which the number of marker comments of the dependent-license
    region is not one, or in which a marker comment is not followed at once
    by its block, or in which that block is begun and never closed.  (The
    function has no effect: the text it is given is a value.) *)
Theorem update_requires_one_region_each
    (ebuild : string) (crates : list Crate) (crate_licenses : option Expr)
    (crate_license : bool) :
  markers KCrates (Str.split "010" ebuild) <> 1
  \/ unclosed (Str.split "010" ebuild) = true
  \/ (crate_license = true
      /\ (markers KLicense (Str.split "010" ebuild) <> 1
          \/ orphan_marker (Str.split "010" ebuild) = true
          \/ unclosed_license (Str.split "010" ebuild) = true)) ->
  exists msg,
    update_ebuild ebuild crates crate_licenses crate_license = Raise (RuntimeError msg).
Proof.
  intros H. unfold update_ebuild.
  set (m := if crate_license then Validate else Refuse).
  destruct (scan m (Str.split "010" ebuild)) as [segs|] eqn:Hscan;
    [|by apply update_malformed].
  unfold update_with. rewrite Hscan.
  destruct H as [H|[H|[-> [H|[H|H]]]]].
  - assert (counted m KCrates) as Hk by (by left).
    rewrite (scan_count m KCrates _ _ Hk Hscan).
    apply Nat.eqb_neq in H. rewrite H. by eexists.
  - unfold scan in Hscan. by rewrite (scan_from_unclosed m _ Outside H) in Hscan.
  - destruct (count KCrates segs =? 1); [|by eexists]. cbn [negb].
    unfold m in *. cbn [license_regions_wanted].
    rewrite (scan_count Validate KLicense _ _ (or_intror eq_refl) Hscan).
    apply Nat.eqb_neq in H. rewrite H. by eexists.
  - unfold scan, m in Hscan. by rewrite (scan_from_orphan_marker _ Outside H) in Hscan.
  - unfold scan, m in Hscan.
    by rewrite (scan_from_unclosed_license _ Outside H) in Hscan.
Qed.

Lemma update_requires_one_region_each_witness :
  exists msg,
    update_ebuild Sample.twice_begun Sample.crates Sample.licenses true
      = Raise (RuntimeError msg).
Proof.
  apply update_requires_one_region_each. left. vm_compute. discriminate.
Defined.







(** ** The test-suite, run on the model *)

Example test_update_ebuild :
  update_ebuild Sample.old_ebuild Sample.crates Sample.licenses true
  = Ok Sample.new_ebuild.
Proof. vm_compute. reflexivity. Qed.

Example test_update_ebuild_no_crate_license :
  update_ebuild Sample.old_no_license Sample.crates Sample.licenses false
  = Ok Sample.new_no_license.
Proof. vm_compute. reflexivity. Qed.

Example test_update_ebuild_fail :
  Forall (fun ebuild =>
            is_runtime_error
              (update_ebuild ebuild Sample.crates Sample.licenses true) = true)
    [ Sample.bad_empty; Sample.bad_double_crates; Sample.bad_no_crates;
      Sample.bad_double_license; Sample.bad_no_license;
      Sample.bad_no_license_comment ].
Proof. repeat constructor. Qed.

Example test_update_ebuild_fail_with_crate_license :
  is_runtime_error
    (update_ebuild Sample.with_crate_license Sample.crates Sample.licenses false)
  = true.
Proof. reflexivity. Qed.

Example test_update_git_crates :
  update_ebuild
    (Sample.text (Sample.head_lines ++ Sample.old_git_lines ++ Sample.tail_git_lines))
    (Sample.crates ++ [Sample.git_crate]) Sample.licenses_git true
  = Ok (Sample.text
          (Sample.head_lines ++ Sample.new_git_lines ++ Sample.tail_git_lines)).
Proof. vm_compute. reflexivity. Qed.

Example test_update_remove_git_crates :
  update_ebuild
    (Sample.text (Sample.head_lines ++ Sample.old_git_lines ++ Sample.tail_git_lines))
    Sample.crates Sample.licenses true
  = Ok (Sample.text (Sample.head_lines ++ Sample.tail_lines)).
Proof. vm_compute. reflexivity. Qed.

Example test_update_add_git_crates :
  update_ebuild (Sample.text (Sample.head_lines ++ Sample.tail_git_lines))
    (Sample.crates ++ [Sample.git_crate]) Sample.licenses_git true
  = Ok (Sample.text
          (Sample.head_lines ++ Sample.new_git_lines ++ Sample.tail_git_lines)).
Proof. vm_compute. reflexivity. Qed.

(** The scenario of section 8: the marker of the dependency list twice, the
    second inside the block that the first begins. *)
Example dependency_list_begun_twice :
  is_runtime_error
    (update_ebuild Sample.twice_begun Sample.crates Sample.licenses true) = true.
Proof. reflexivity. Qed.

(** A dependency list that is never closed. *)
Example dependency_list_not_closed :
  is_runtime_error
    (update_ebuild
       (Sample.text [ "CRATES=" +:+ Str.dquote; Str.tab +:+ "bar-1";
                      LICENSE_MARKER; "LICENSE+=" +:+ quoted "" ])
       Sample.crates Sample.licenses true) = true.
Proof. reflexivity. Qed.

(** Without crate licenses, a marker comment that no block follows is a
    line like any other. *)
Example marker_comment_alone :
  update_ebuild
    (Sample.text [ "CRATES=" +:+ quoted ""; LICENSE_MARKER; "SLOT=" +:+ quoted "0" ])
    Sample.crates Sample.licenses false
  = Ok (Sample.text
          [ "CRATES=" +:+ Str.dquote; Str.tab +:+ "bar@2"; Str.tab +:+ "baz@3";
            Str.tab +:+ "foo@1"; Str.dquote;
            LICENSE_MARKER; "SLOT=" +:+ quoted "0" ]).
Proof. vm_compute. reflexivity. Qed.

(** * Further properties of [cargo_to_spdx] and [get_ebuild] *)

(** ** More on [cargo_to_spdx] *)

Lemma cargo_to_spdx_id s : Str.occurs "/" s = false -> cargo_to_spdx s = s.
Proof.
  induction s as [|a s IH]; [done|].
  rewrite cargo_to_spdx_cons. cbn [Str.occurs].
  destruct (Ascii.eqb a "/"); [done|]. intros H. by rewrite IH.
Qed.

Lemma cargo_to_spdx_app s t :
  cargo_to_spdx (s +:+ t) = cargo_to_spdx s +:+ cargo_to_spdx t.
Proof.
  induction s as [|a s IH]; [done|].
  change (String a s +:+ t) with (String a (s +:+ t)).
  rewrite !cargo_to_spdx_cons, IH.
  destruct (Ascii.eqb a "/"); [|done].
  by rewrite string_app_assoc.
Qed.

Lemma string_length_app (s t : string) :
  String.length (s +:+ t) = String.length s + String.length t.
Proof. induction s as [|a s IH]; [done|]. simpl. by rewrite <- IH. Qed.

(** X1: a license string without [/] is returned as it is. *)
Theorem cargo_to_spdx_keeps_spdx_strings (license_str : string) :
  Str.occurs "/" license_str = false -> cargo_to_spdx license_str = license_str.
Proof. apply cargo_to_spdx_id. Qed.

Lemma cargo_to_spdx_keeps_spdx_strings_witness :
  cargo_to_spdx "Apache-2.0 OR MIT" = "Apache-2.0 OR MIT".
Proof. apply (cargo_to_spdx_keeps_spdx_strings "Apache-2.0 OR MIT"). reflexivity. Defined.

(** X2: converting twice is converting once. *)
Theorem cargo_to_spdx_idempotent (license_str : string) :
  cargo_to_spdx (cargo_to_spdx license_str) = cargo_to_spdx license_str.
Proof. apply cargo_to_spdx_id, cargo_to_spdx_no_slash. Qed.

(** X3: the conversion works piece by piece: the conversion of a
    concatenation is the concatenation of the conversions. *)
Theorem cargo_to_spdx_concat (s t : string) :
  cargo_to_spdx (s +:+ t) = cargo_to_spdx s +:+ cargo_to_spdx t.
Proof. apply cargo_to_spdx_app. Qed.

(** X4: the converted string is three characters longer for each [/] of
    the license string. *)
Theorem cargo_to_spdx_length (license_str : string) :
  String.length (cargo_to_spdx license_str)
  = String.length license_str + 3 * occurrences "/" license_str.
Proof.
  induction license_str as [|a s IH]; [done|].
  rewrite cargo_to_spdx_cons. cbn [occurrences String.length].
  destruct (Ascii.eqb a "/").
  - rewrite string_length_app, IH. simpl. lia.
  - cbn [String.length]. rewrite IH. lia.
Qed.

(** X5: a dependency that writes an alternative with [/] and one that
    writes it with [OR] put one and the same string into the set of
    licenses. *)
Theorem legacy_and_spdx_spellings_merge (a b : string) (declared : list string) :
  crate_license_set ((a +:+ "/" +:+ b) :: (a +:+ " OR " +:+ b) :: declared)
  = crate_license_set ((a +:+ "/" +:+ b) :: declared).
Proof.
  assert (cargo_to_spdx (a +:+ " OR " +:+ b) = cargo_to_spdx (a +:+ "/" +:+ b)) as E.
  { rewrite !cargo_to_spdx_app. f_equal. }
  unfold crate_license_set. cbn [foldl]. rewrite E. f_equal.
  apply set_add_idemp.
Qed.

(** ** More on the streaming digest *)

(** X6: whatever the size of the read buffer, as long as it is not empty,
    the loop ends and the digest is that of the whole file. *)
Theorem digest_independent_of_buffer_size (bufsize : nat) (data : list Byte.byte) :
  0 < bufsize ->
  option_map hexdigest (read_loop (S (length data)) bufsize data sha256_new)
  = Some (SHA256.hexdigest data).
Proof.
  intros Hn. rewrite read_loop_all by lia.
  unfold hexdigest, update, sha256_new. cbn [option_map absorbed app]. reflexivity.
Qed.

Lemma digest_independent_of_buffer_size_witness :
  option_map hexdigest (read_loop 4 2 (bytes "abc") sha256_new)
  = Some (SHA256.hexdigest (bytes "abc")).
Proof. apply (digest_independent_of_buffer_size 2 (bytes "abc")). lia. Defined.

Lemma round_length st kw : length (SHA256.round st kw) = length st.
Proof.
  unfold SHA256.round.
  do 8 (destruct st as [|? st]; [reflexivity|]). destruct st; reflexivity.
Qed.

Lemma fold_round_length kws : forall st,
  length (fold_left SHA256.round kws st) = length st.
Proof.
  induction kws as [|kw kws IH]; intros st; [reflexivity|].
  cbn [fold_left]. rewrite IH. apply round_length.
Qed.

Lemma compress_length h block : length (SHA256.compress h block) = length h.
Proof.
  unfold SHA256.compress. rewrite length_map, length_combine, fold_round_length. lia.
Qed.

Lemma fold_compress_length blocks : forall h,
  length (fold_left SHA256.compress blocks h) = length h.
Proof.
  induction blocks as [|b bs IH]; intros h; [reflexivity|].
  cbn [fold_left]. rewrite IH. apply compress_length.
Qed.

Lemma digest_words_length msg : length (SHA256.digest_words msg) = 8.
Proof. unfold SHA256.digest_words. rewrite fold_compress_length. reflexivity. Qed.

Lemma hex_length bs : String.length (SHA256.hex bs) = 2 * length bs.
Proof.
  induction bs as [|b bs IH]; [reflexivity|].
  cbn [SHA256.hex String.length length]. rewrite IH. lia.
Qed.

Lemma be_bytes_length n x : length (SHA256.be_bytes n x) = n.
Proof. induction n as [|n IH]; [reflexivity|]. cbn [SHA256.be_bytes length]. by rewrite IH. Qed.

Lemma concat_be_length ws : length (concat (map (SHA256.be_bytes 4) ws)) = 4 * length ws.
Proof.
  induction ws as [|x ws IH]; [reflexivity|].
  cbn [map concat]. rewrite length_app, be_bytes_length, IH. cbn [length]. lia.
Qed.

Lemma hexdigest_length msg : String.length (SHA256.hexdigest msg) = 64.
Proof.
  unfold SHA256.hexdigest, SHA256.digest.
  rewrite hex_length, concat_be_length, digest_words_length. reflexivity.
Qed.

Lemma hex_digit_lower n : (n < 16)%N -> is_lower_hex (SHA256.hex_digit n) = true.
Proof.
  intros H.
  assert (In n (map N.of_nat (seq 0 16))) as Hin.
  { apply in_map_iff. exists (N.to_nat n). split; [lia|]. apply in_seq. lia. }
  assert (forallb (fun n => is_lower_hex (SHA256.hex_digit n))
            (map N.of_nat (seq 0 16)) = true) as Hall
    by (vm_compute; reflexivity).
  rewrite forallb_forall in Hall. by apply Hall.
Qed.

Lemma be_bytes_small n x : Forall (fun b => (b < 256)%N) (SHA256.be_bytes n x).
Proof.
  induction n as [|n IH]; cbn [SHA256.be_bytes]; constructor; [|exact IH].
  change 255%N with (N.ones 8). rewrite N.land_ones. by apply N.mod_lt.
Qed.

Lemma hex_lower bs :
  Forall (fun b => (b < 256)%N) bs -> all_chars is_lower_hex (SHA256.hex bs) = true.
Proof.
  induction 1 as [|b bs Hb _ IH]; [reflexivity|].
  cbn [SHA256.hex all_chars]. rewrite IH, !hex_digit_lower; [reflexivity| |].
  - change 15%N with (N.ones 4). rewrite N.land_ones. by apply N.mod_lt.
  - rewrite N.shiftr_div_pow2. change (2 ^ 4)%N with 16%N.
    apply N.Div0.div_lt_upper_bound. lia.
Qed.

Lemma hexdigest_lower msg : all_chars is_lower_hex (SHA256.hexdigest msg) = true.
Proof.
  unfold SHA256.hexdigest, SHA256.digest. apply hex_lower.
  induction (SHA256.digest_words (map Byte.to_N msg)) as [|x ws IH]; [constructor|].
  cbn [map concat]. apply Forall_app. split; [apply be_bytes_small|exact IH].
Qed.

(** X7: a checksum that passes the comparison is sixty-four characters
    long, all of them digits or lower-case letters from a to f; any other
    checksum, an empty one included, ends the run whatever the file holds. *)
Theorem accepted_checksum_is_lowercase_sha256 (path csum : string) (w : World) :
  (verify_checksum path csum w).1 = Ok tt ->
  String.length csum = 64 /\ all_chars is_lower_hex csum = true.
Proof.
  intros H. destruct (files w !! path) as [f|] eqn:Hf.
  - rewrite (verify_checksum_eq _ _ _ _ Hf) in H. cbn [fst] in H.
    destruct (String.eqb _ csum) eqn:E; [|discriminate].
    apply String.eqb_eq in E. subst csum. split.
    + apply hexdigest_length.
    + apply hexdigest_lower.
  - unfold verify_checksum, bind, open_rb in H. rewrite Hf in H. discriminate.
Qed.

Lemma accepted_checksum_is_lowercase_sha256_witness :
  String.length Sample.sha_foo = 64 /\ all_chars is_lower_hex Sample.sha_foo = true.
Proof.
  apply (accepted_checksum_is_lowercase_sha256 "dist/foo-1.crate" Sample.sha_foo
           Sample.world).
  vm_compute. reflexivity.
Defined.

(** ** What a run does to the world *)

Lemma extends_refl w : extends w w.
Proof. repeat split; try done. by exists []. Qed.

Lemma extends_trans w1 w2 w3 : extends w1 w2 -> extends w2 w3 -> extends w1 w3.
Proof.
  intros (Hf & Hr & Hy & l & Hd) (Hf' & Hr' & Hy' & l' & Hd').
  repeat split; [by etrans|congruence|congruence|].
  exists (l' ++ l). by rewrite Hd', Hd, app_assoc.
Qed.

Lemma extends_downloaded path url f w :
  files w !! path = None -> extends w (downloaded path url f w).
Proof.
  intros Hp. repeat split; cbn [files remote year downloads downloaded].
  - by apply insert_subseteq.
  - by exists [url].
Qed.

Lemma extends_attempted url w : extends w (attempted url w).
Proof. repeat split; try done. by exists [url]. Qed.

(** A turn of the loop for a crate that has to be fetched goes on as for a
    crate in the cache, in the world after the download. *)
Lemma fetch_crate_absent distdir p v csum acc w f :
  files w !! crate_path distdir p v = None ->
  remote w !! crate_url p v = Some f ->
  fetch_crate distdir (p, v, csum) acc w =
  fetch_crate distdir (p, v, csum) acc
    (downloaded (crate_path distdir p v) (crate_url p v) f w).
Proof.
  intros Hp Hr. unfold fetch_crate.
  unfold bind at 1. unfold path_exists at 1, contains. rewrite Hp.
  unfold bind at 1. unfold wget at 1. rewrite Hr.
  symmetry.
  unfold bind at 1. unfold path_exists at 1, contains. cbn [files downloaded].
  rewrite lookup_insert_eq.
  unfold bind at 1. unfold ret at 1. reflexivity.
Qed.

Lemma fetch_crate_unavailable distdir p v csum acc w :
  files w !! crate_path distdir p v = None ->
  remote w !! crate_url p v = None ->
  fetch_crate distdir (p, v, csum) acc w =
    (Raise (CalledProcessError ["wget"; "-O"; crate_path distdir p v; crate_url p v]),
     attempted (crate_url p v) w).
Proof.
  intros Hp Hr. unfold fetch_crate.
  unfold bind at 1. unfold path_exists at 1, contains. rewrite Hp.
  unfold bind at 1. unfold wget at 1. rewrite Hr. reflexivity.
Qed.

Lemma fetch_crate_present_world distdir p v csum acc w f :
  files w !! crate_path distdir p v = Some f ->
  (fetch_crate distdir (p, v, csum) acc w).2 = w.
Proof.
  intros Hf. rewrite (fetch_crate_present _ _ _ _ _ _ _ Hf).
  destruct (String.eqb _ _); [|done]. by destruct (crate_license _ _ w) as [[?|?] ?].
Qed.

Lemma downloaded_present path url f w : files (downloaded path url f w) !! path = Some f.
Proof. apply lookup_insert_eq. Qed.

(** The three ways a turn of the loop can go. *)
Lemma fetch_crate_cases distdir p v csum acc w :
  (exists f, files w !! crate_path distdir p v = Some f
     /\ (fetch_crate distdir (p, v, csum) acc w).2 = w)
  \/ (files w !! crate_path distdir p v = None
      /\ remote w !! crate_url p v = None
      /\ (fetch_crate distdir (p, v, csum) acc w).2 = attempted (crate_url p v) w)
  \/ (exists f, files w !! crate_path distdir p v = None
      /\ remote w !! crate_url p v = Some f
      /\ (fetch_crate distdir (p, v, csum) acc w).2
         = downloaded (crate_path distdir p v) (crate_url p v) f w).
Proof.
  destruct (files w !! crate_path distdir p v) as [f|] eqn:Hp.
  - left. exists f. split; [done|]. by eapply fetch_crate_present_world.
  - right. destruct (remote w !! crate_url p v) as [f|] eqn:Hr.
    + right. exists f. split; [done|]. split; [done|].
      rewrite (fetch_crate_absent _ _ _ _ _ _ _ Hp Hr).
      eapply fetch_crate_present_world. apply downloaded_present.
    + left. split; [done|]. split; [done|].
      by rewrite (fetch_crate_unavailable _ _ _ _ _ _ Hp Hr).
Qed.

Lemma fetch_crate_extends distdir dep acc w :
  extends w (fetch_crate distdir dep acc w).2.
Proof.
  destruct dep as [[p v] csum].
  destruct (fetch_crate_cases distdir p v csum acc w)
    as [(f & _ & ->)|[(_ & _ & ->)|(f & Hp & _ & ->)]].
  - apply extends_refl.
  - apply extends_attempted.
  - by apply extends_downloaded.
Qed.

Lemma fetch_crates_extends distdir deps : forall acc w,
  extends w (fetch_crates distdir deps acc w).2.
Proof.
  induction deps as [|dep deps IH]; intros acc w; [apply extends_refl|].
  cbn [fetch_crates]. unfold bind.
  pose proof (fetch_crate_extends distdir dep acc w) as H.
  destruct (fetch_crate distdir dep acc w) as [[a|e] w1]; cbn [snd] in H; [|done].
  eapply extends_trans; [exact H|apply IH].
Qed.

Lemma lock_deps_eq pkgmeta packages w :
  lock_deps pkgmeta packages w = ((lock_deps pkgmeta packages w).1, w).
Proof.
  pose proof (lock_deps_world pkgmeta packages w).
  destruct (lock_deps pkgmeta packages w); simpl in *; by subst.
Qed.

Lemma lock_deps_indep pkgmeta packages w w2 :
  (lock_deps pkgmeta packages w).1 = (lock_deps pkgmeta packages w2).1.
Proof.
  induction packages as [|p ps IH]; [done|].
  cbn [lock_deps]. unfold bind, getitem, ret, raise.
  destruct (p !! "name"); [|done].
  destruct (pkgmeta !! "name"); [|done].
  destruct (String.eqb _ _); [exact IH|].
  destruct (p !! "version"); [|done].
  destruct (p !! "checksum"); [|done].
  rewrite (lock_deps_eq pkgmeta ps w), (lock_deps_eq pkgmeta ps w2), IH.
  by destruct (lock_deps pkgmeta ps w2).1.
Qed.

(** A run either leaves the world as it is, or has passed every check that
    precedes the loop and ends in the world the loop leaves. *)
Lemma get_ebuild_world lic prog_version cargo_toml cargo_lock distdir w :
  (get_ebuild lic prog_version cargo_toml cargo_lock distdir w).2 = w
  \/ exists pkgmeta pkg_license packages deps,
       cargo_toml !! "package" = Some pkgmeta
       /\ contains pkgmeta "license_file" = false
       /\ pkgmeta !! "license" = Some pkg_license
       /\ parse lic pkg_license <> ParseError
       /\ lock_version cargo_lock = Some 3%Z
       /\ lock_package cargo_lock = Some packages
       /\ (lock_deps pkgmeta packages w).1 = Ok deps
       /\ (get_ebuild lic prog_version cargo_toml cargo_lock distdir w).2
          = (fetch_crates distdir deps [] w).2.
Proof.
  unfold get_ebuild, crate_license_addendum, iteration, spdx_parse, bind, getitem,
    assert_, today_year, ret, raise.
  destruct (cargo_toml !! "package") as [pkgmeta|] eqn:Hpkg; [|by left].
  destruct (contains pkgmeta "license_file") eqn:Hfile; [by left|]. cbn [negb].
  destruct (pkgmeta !! "license") as [pkg_license|] eqn:Hlic; [|by left].
  destruct (parse lic pkg_license) as [| |e] eqn:Hparse; [by left| |].
  all: destruct (lock_version cargo_lock) as [ver|] eqn:Hver; [|by left].
  all: destruct (Z.eqb ver 3) eqn:Hv; [|by left].
  all: apply Z.eqb_eq in Hv; subst ver.
  all: destruct (lock_package cargo_lock) as [packages|] eqn:Hpackages; [|by left].
  all: rewrite (lock_deps_eq pkgmeta packages w).
  all: destruct (lock_deps pkgmeta packages w).1 as [deps|e'] eqn:Hdeps; [|by left].
  all: right; exists pkgmeta, pkg_license, packages, deps.
  all: do 3 (split; [done|]); (split; [by rewrite Hparse|]); do 3 (split; [done|]).
  all: destruct (fetch_crates distdir deps [] w) as [[s|e''] w'] eqn:Hfetch; [|done].
  all: repeat case_match; by simplify_eq.
Qed.

(** X8: a run never changes or removes a file that is there, never
    touches the registry or the date, and only ever adds to the list of
    downloads, whether it succeeds or raises. *)
Theorem get_ebuild_only_adds_files lic prog_version cargo_toml cargo_lock distdir w :
  let w' := (get_ebuild lic prog_version cargo_toml cargo_lock distdir w).2 in
  files w ⊆ files w' /\ remote w' = remote w /\ year w' = year w
  /\ exists fetched, downloads w' = fetched ++ downloads w.
Proof.
  cbv zeta.
  destruct (get_ebuild_world lic prog_version cargo_toml cargo_lock distdir w)
    as [->|(pkgmeta & pkg_license & packages & deps & _ & _ & _ & _ & _ & _ & _ & ->)].
  - apply extends_refl.
  - apply fetch_crates_extends.
Qed.

Lemma fetch_crate_downloads_from distdir p v csum acc w u :
  u ∈ downloads (fetch_crate distdir (p, v, csum) acc w).2 ->
  u ∈ downloads w \/ (u = crate_url p v /\ files w !! crate_path distdir p v = None).
Proof.
  destruct (fetch_crate_cases distdir p v csum acc w)
    as [(f & _ & ->)|[(Hp & _ & ->)|(f & Hp & _ & ->)]].
  - by left.
  - cbn [downloads attempted]. intros [->|H]%elem_of_cons; [by right|by left].
  - cbn [downloads downloaded]. intros [->|H]%elem_of_cons; [by right|by left].
Qed.

Lemma fetch_crates_downloads_from distdir deps : forall acc w u,
  u ∈ downloads (fetch_crates distdir deps acc w).2 ->
  u ∈ downloads w
  \/ exists p v csum, (p, v, csum) ∈ deps /\ u = crate_url p v
       /\ files w !! crate_path distdir p v = None.
Proof.
  induction deps as [|[[p v] csum] deps IH]; intros acc w u; [by left|].
  cbn [fetch_crates]. unfold bind.
  pose proof (fetch_crate_downloads_from distdir p v csum acc w u) as Hd.
  pose proof (fetch_crate_extends distdir (p, v, csum) acc w) as He.
  destruct (fetch_crate distdir (p, v, csum) acc w) as [[a|e] w1]; cbn [snd] in *.
  - intros [H|(p' & v' & c' & Hin & -> & Hnone)]%IH.
    + destruct (Hd H) as [?|[-> Hp]]; [by left|].
      right. exists p, v, csum. split; [left|done].
    + right. exists p', v', c'. split; [by right|]. split; [done|].
      destruct He as (Hsub & _). by eapply lookup_weaken_None.
  - intros H. destruct (Hd H) as [?|[-> Hp]]; [by left|].
    right. exists p, v, csum. split; [left|done].
Qed.

Lemma lock_deps_elem pkgmeta packages w : forall deps p v csum,
  (lock_deps pkgmeta packages w).1 = Ok deps ->
  (p, v, csum) ∈ deps ->
  exists t, t ∈ packages /\ t !! "name" = Some p /\ t !! "version" = Some v
            /\ t !! "checksum" = Some csum /\ pkgmeta !! "name" <> Some p.
Proof.
  induction packages as [|t ps IH]; intros deps p v csum.
  - cbn. intros [= <-] H. by apply elem_of_nil in H.
  - cbn [lock_deps]. unfold bind, getitem, ret, raise.
    destruct (t !! "name") as [n|] eqn:Hn; [|done].
    destruct (pkgmeta !! "name") as [self|] eqn:Hs; [|done].
    destruct (String.eqb n self) eqn:E.
    + intros H Hin. destruct (IH _ _ _ _ H Hin) as (t' & Ht' & ?).
      exists t'. split; [by right|done].
    + destruct (t !! "version") as [tv|] eqn:Hv; [|done].
      destruct (t !! "checksum") as [tc|] eqn:Hc; [|done].
      rewrite (lock_deps_eq pkgmeta ps w).
      destruct (lock_deps pkgmeta ps w).1 as [ds|e] eqn:Hds; [|done].
      cbn [fst]. intros [= <-] [[= -> -> ->]|Hin]%elem_of_cons.
      * exists t. split; [left|]. do 3 (split; [done|]).
        apply String.eqb_neq in E. congruence.
      * destruct (IH _ _ _ _ eq_refl Hin) as (t' & Ht' & ?).
        exists t'. split; [by right|done].
Qed.

(** X9: whatever a run downloads is the registry address of a package of
    the lock file, other than the package itself, whose archive was not in
    the directory when the run began. *)
Theorem get_ebuild_fetches_only_missing_dependencies
    lic prog_version cargo_toml cargo_lock distdir w u :
  u ∈ downloads (get_ebuild lic prog_version cargo_toml cargo_lock distdir w).2 ->
  u ∈ downloads w
  \/ exists pkgmeta packages t name version,
       cargo_toml !! "package" = Some pkgmeta
       /\ lock_package cargo_lock = Some packages
       /\ t ∈ packages
       /\ t !! "name" = Some name /\ t !! "version" = Some version
       /\ pkgmeta !! "name" <> Some name
       /\ u = crate_url name version
       /\ files w !! crate_path distdir name version = None.
Proof.
  destruct (get_ebuild_world lic prog_version cargo_toml cargo_lock distdir w)
    as [->|(pkgmeta & pkg_license & packages & deps
            & Hpkg & _ & _ & _ & _ & Hpackages & Hdeps & ->)]; [by left|].
  intros [H|(p & v & csum & Hin & -> & Hnone)]%fetch_crates_downloads_from; [by left|].
  destruct (lock_deps_elem _ _ _ _ _ _ _ Hdeps Hin) as (t & Ht & Hn & Hv & _ & Hself).
  right. by exists pkgmeta, packages, t, p, v.
Qed.

Lemma get_ebuild_fetches_only_missing_dependencies_witness :
  crate_url "bar" "2" ∈ downloads Sample.world
  \/ exists pkgmeta packages t name version,
       Sample.cargo_toml !! "package" = Some pkgmeta
       /\ lock_package Sample.cargo_lock = Some packages
       /\ t ∈ packages
       /\ t !! "name" = Some name /\ t !! "version" = Some version
       /\ pkgmeta !! "name" <> Some name
       /\ crate_url "bar" "2" = crate_url name version
       /\ files Sample.world !! crate_path "dist" name version = None.
Proof.
  apply (get_ebuild_fetches_only_missing_dependencies spdx "0.1" Sample.cargo_toml
           Sample.cargo_lock "dist" Sample.world (crate_url "bar" "2")).
  assert (downloads (get_ebuild spdx "0.1" Sample.cargo_toml Sample.cargo_lock
                       "dist" Sample.world).2 = [crate_url "bar" "2"]) as ->
    by (vm_compute; reflexivity).
  left.
Defined.

(** X10: a run that changes the world at all has found the package table
    without a [license_file] key and with a license that parses, a lock file
    of version 3, and a name, a version and a checksum for every dependency:
    nothing is fetched before all of these are checked. *)
Theorem get_ebuild_validates_before_fetching
    lic prog_version cargo_toml cargo_lock distdir w :
  (get_ebuild lic prog_version cargo_toml cargo_lock distdir w).2 <> w ->
  exists pkgmeta pkg_license packages deps,
    cargo_toml !! "package" = Some pkgmeta
    /\ contains pkgmeta "license_file" = false
    /\ pkgmeta !! "license" = Some pkg_license
    /\ parse lic pkg_license <> ParseError
    /\ lock_version cargo_lock = Some 3%Z
    /\ lock_package cargo_lock = Some packages
    /\ (lock_deps pkgmeta packages w).1 = Ok deps.
Proof.
  intros Hw.
  destruct (get_ebuild_world lic prog_version cargo_toml cargo_lock distdir w)
    as [?|(pkgmeta & pkg_license & packages & deps & H)]; [done|].
  exists pkgmeta, pkg_license, packages, deps. tauto.
Qed.

Lemma get_ebuild_validates_before_fetching_witness :
  exists pkgmeta pkg_license packages deps,
    Sample.cargo_toml !! "package" = Some pkgmeta
    /\ contains pkgmeta "license_file" = false
    /\ pkgmeta !! "license" = Some pkg_license
    /\ parse spdx pkg_license <> ParseError
    /\ lock_version Sample.cargo_lock = Some 3%Z
    /\ lock_package Sample.cargo_lock = Some packages
    /\ (lock_deps pkgmeta packages Sample.world).1 = Ok deps.
Proof.
  apply (get_ebuild_validates_before_fetching spdx "0.1" Sample.cargo_toml
           Sample.cargo_lock "dist" Sample.world).
  intros H. apply (f_equal downloads) in H. vm_compute in H. discriminate H.
Defined.

Lemma lock_deps_missing pkgmeta self packages w t name :
  pkgmeta !! "name" = Some self ->
  t ∈ packages -> t !! "name" = Some name -> name <> self ->
  t !! "checksum" = None ->
  exists key, (lock_deps pkgmeta packages w).1 = Raise (KeyError key)
              /\ key ∈ ["name"; "version"; "checksum"].
Proof.
  intros Hs Hin Hn Hne Hc.
  induction packages as [|p ps IH]; [by apply elem_of_nil in Hin|].
  cbn [lock_deps]. unfold bind, getitem, ret, raise. rewrite Hs.
  destruct (p !! "name") as [n|] eqn:Hpn;
    [|exists "name"; split; [done|repeat constructor]].
  destruct (String.eqb n self) eqn:E.
  - apply String.eqb_eq in E. subst n.
    apply elem_of_cons in Hin as [->|Hin]; [congruence|]. by apply IH.
  - destruct (p !! "version") as [pv|] eqn:Hpv;
      [|exists "version"; split; [done|repeat constructor]].
    destruct (p !! "checksum") as [pc|] eqn:Hpc;
      [|exists "checksum"; split; [done|repeat constructor]].
    apply elem_of_cons in Hin as [->|Hin]; [congruence|].
    destruct (IH Hin) as (key & Hk & Hkey). exists key. split; [|done].
    rewrite (lock_deps_eq pkgmeta ps w), Hk. done.
Qed.

(** X11: a package of the lock file, other than the package itself, that
    has no checksum (a path or git dependency, a workspace member) makes the
    run raise a [KeyError] before anything is fetched. *)
Theorem dependency_without_checksum_raises
    lic prog_version cargo_toml cargo_lock distdir w
    pkgmeta pkg_license packages self t name :
  cargo_toml !! "package" = Some pkgmeta ->
  contains pkgmeta "license_file" = false ->
  pkgmeta !! "license" = Some pkg_license ->
  parse lic pkg_license <> ParseError ->
  lock_version cargo_lock = Some 3%Z ->
  lock_package cargo_lock = Some packages ->
  pkgmeta !! "name" = Some self ->
  t ∈ packages -> t !! "name" = Some name -> name <> self ->
  t !! "checksum" = None ->
  exists key,
    get_ebuild lic prog_version cargo_toml cargo_lock distdir w
      = (Raise (KeyError key), w)
    /\ key ∈ ["name"; "version"; "checksum"].
Proof.
  intros Hpkg Hfile Hlic Hparse Hver Hpackages Hs Hin Hn Hne Hc.
  destruct (lock_deps_missing pkgmeta self packages w t name Hs Hin Hn Hne Hc)
    as (key & Hk & Hkey).
  exists key. split; [|done].
  unfold get_ebuild, spdx_parse, bind, getitem, assert_, ret, raise.
  rewrite Hpkg, Hfile, Hlic, Hver, Hpackages.
  destruct (parse lic pkg_license); [done| |].
  all: cbn [negb Z.eqb Pos.eqb].
  all: by rewrite (lock_deps_eq pkgmeta packages w), Hk.
Qed.

Lemma dependency_without_checksum_raises_witness :
  exists key,
    get_ebuild spdx "0.1" Sample.cargo_toml Fixture.lock_path_dependency "dist"
      Sample.world = (Raise (KeyError key), Sample.world)
    /\ key ∈ ["name"; "version"; "checksum"].
Proof.
  apply (dependency_without_checksum_raises spdx "0.1" Sample.cargo_toml
           Fixture.lock_path_dependency "dist" Sample.world
           {[ "name" := "pkg"; "license" := "Apache-2.0 OR MIT";
              "homepage" := "https://example.com" ]}
           "Apache-2.0 OR MIT"
           [ {[ "name" := "pkg"; "version" := "1.2.3" ]};
             {[ "name" := "local"; "version" := "0.1.0" ]} ]
           "pkg" {[ "name" := "local"; "version" := "0.1.0" ]} "local");
    try reflexivity.
  - vm_compute. discriminate.
  - right. left.
  - discriminate.
Defined.

Lemma lock_deps_filter (pkgmeta : Table) (self : string) (packages : list Table) w :
  pkgmeta !! "name" = Some self ->
  Forall (complete self) packages ->
  lock_deps pkgmeta packages w
  = (Ok (map lock_entry (List.filter (is_dependency self) packages)), w).
Proof.
  intros Hs. induction 1 as [|p ps [[n Hn] Hp] _ IH]; [done|].
  cbn [lock_deps List.filter]. unfold bind, getitem, ret. rewrite Hn, Hs.
  unfold is_dependency in *. rewrite Hn in *. cbn [default from_option id] in *.
  destruct (String.eqb n self); cbn [negb] in *; [exact IH|].
  destruct (Hp eq_refl) as [[v Hv] [c Hc]]. rewrite Hv, Hc, IH.
  cbn [map]. unfold lock_entry. by rewrite Hn, Hv, Hc.
Qed.

(** X12: with a name in every package table, and a version and a checksum
    in every one that does not bear the package's own name, the dependency
    list is the lock file's packages in their order, without those that bear
    the package's name, whatever their version. *)
Theorem lock_deps_skips_root
    (pkgmeta : Table) (self : string) (packages : list Table) (w : World) :
  pkgmeta !! "name" = Some self ->
  Forall (complete self) packages ->
  lock_deps pkgmeta packages w
  = (Ok (map lock_entry (List.filter (is_dependency self) packages)), w).
Proof. apply lock_deps_filter. Qed.

Lemma lock_deps_skips_root_witness :
  lock_deps {[ "name" := "pkg" ]}
    [ {[ "name" := "foo"; "version" := "1"; "checksum" := Sample.sha_foo ]};
      {[ "name" := "pkg"; "version" := "1.2.3" ]};
      {[ "name" := "pkg"; "version" := "0.9.0" ]} ] Sample.world
  = (Ok [ ("foo", "1", Sample.sha_foo) ], Sample.world).
Proof.
  change [ ("foo", "1", Sample.sha_foo) ]
    with (map lock_entry
            (List.filter (is_dependency "pkg")
               [ {[ "name" := "foo"; "version" := "1"; "checksum" := Sample.sha_foo ]};
                 {[ "name" := "pkg"; "version" := "1.2.3" ]};
                 {[ "name" := "pkg"; "version" := "0.9.0" ]} ])).
  apply (lock_deps_skips_root {[ "name" := "pkg" ]} "pkg"
           [ {[ "name" := "foo"; "version" := "1"; "checksum" := Sample.sha_foo ]};
             {[ "name" := "pkg"; "version" := "1.2.3" ]};
             {[ "name" := "pkg"; "version" := "0.9.0" ]} ] Sample.world).
  - reflexivity.
  - repeat (constructor;
      [split; [eexists; reflexivity
              |intros H; first [by vm_compute in H
                               |split; eexists; reflexivity]]|]).
    constructor.
Defined.

(** ** More on the loop over the dependencies *)

(** X13: an archive that is fetched and then fails the comparison stays in
    the directory: a later run finds it there, fetches nothing, and fails on
    the same comparison. *)
Theorem rejected_download_stays_in_cache distdir p v csum acc w f :
  files w !! crate_path distdir p v = None ->
  remote w !! crate_url p v = Some f ->
  SHA256.hexdigest (content f) <> csum ->
  exists w1,
    fetch_crate distdir (p, v, csum) acc w =
      (Raise (AssertionError
         (checksum_message (crate_path distdir p v)
            (SHA256.hexdigest (content f)) csum)), w1)
    /\ files w1 !! crate_path distdir p v = Some f
    /\ downloads w1 = crate_url p v :: downloads w
    /\ forall acc',
         fetch_crate distdir (p, v, csum) acc' w1 =
           (Raise (AssertionError
              (checksum_message (crate_path distdir p v)
                 (SHA256.hexdigest (content f)) csum)), w1).
Proof.
  intros Hp Hr Hne. apply String.eqb_neq in Hne.
  exists (downloaded (crate_path distdir p v) (crate_url p v) f w).
  pose proof (downloaded_present (crate_path distdir p v) (crate_url p v) f w) as Hf.
  assert (forall acc',
    fetch_crate distdir (p, v, csum) acc'
      (downloaded (crate_path distdir p v) (crate_url p v) f w) =
    (Raise (AssertionError
       (checksum_message (crate_path distdir p v)
          (SHA256.hexdigest (content f)) csum)),
     downloaded (crate_path distdir p v) (crate_url p v) f w)) as Hagain.
  { intros acc'. rewrite (fetch_crate_present _ _ _ _ _ _ _ Hf). by rewrite Hne. }
  split; [|done].
  rewrite (fetch_crate_absent _ _ _ _ _ _ _ Hp Hr). apply Hagain.
Qed.

Lemma rejected_download_stays_in_cache_witness :
  exists w1,
    fetch_crate "dist" ("bar", "2", "0000") [] Sample.world =
      (Raise (AssertionError
         (checksum_message (crate_path "dist" "bar" "2")
            (SHA256.hexdigest (content Sample.bar_2)) "0000")), w1)
    /\ files w1 !! crate_path "dist" "bar" "2" = Some Sample.bar_2
    /\ downloads w1 = crate_url "bar" "2" :: downloads Sample.world
    /\ forall acc',
         fetch_crate "dist" ("bar", "2", "0000") acc' w1 =
           (Raise (AssertionError
              (checksum_message (crate_path "dist" "bar" "2")
                 (SHA256.hexdigest (content Sample.bar_2)) "0000")), w1).
Proof.
  apply (rejected_download_stays_in_cache "dist" "bar" "2" "0000" [] Sample.world
           Sample.bar_2).
  - reflexivity.
  - reflexivity.
  - vm_compute. discriminate.
Defined.

(** Whether from the cache or by a download, the loop works on [archive]. *)
Lemma fetch_crate_archive distdir p v csum acc w f :
  archive distdir p v w = Some f ->
  exists w1,
    files w1 !! crate_path distdir p v = Some f
    /\ fetch_crate distdir (p, v, csum) acc w = fetch_crate distdir (p, v, csum) acc w1.
Proof.
  unfold archive. intros Hf.
  destruct (files w !! crate_path distdir p v) as [f'|] eqn:Hp.
  - simplify_eq. by exists w.
  - exists (downloaded (crate_path distdir p v) (crate_url p v) f w).
    split; [apply downloaded_present|by apply fetch_crate_absent].
Qed.

(** X14: a dependency whose manifest has no [license] key, as when it names
    a license file instead, makes the turn raise [KeyError] for that key,
    after the archive has been fetched and its digest compared; the archive
    stays in the directory. *)
Theorem crate_without_license_raises distdir p v csum acc w f ms doc package :
  archive distdir p v w = Some f ->
  SHA256.hexdigest (content f) = csum ->
  members f = Some ms ->
  ms !! (p +:+ "-" +:+ v +:+ "/Cargo.toml") = Some (Some doc) ->
  doc !! "package" = Some package ->
  package !! "license_file" = None ->
  package !! "license" = None ->
  exists w',
    fetch_crate distdir (p, v, csum) acc w = (Raise (KeyError "license"), w')
    /\ files w' !! crate_path distdir p v = Some f.
Proof.
  intros Hf Hsum Hms Hdoc Hpackage Hfile Hlic.
  destruct (fetch_crate_archive distdir p v csum acc w f Hf) as (w1 & Hf1 & ->).
  exists w1. split; [|done].
  rewrite (fetch_crate_present _ _ _ _ _ _ _ Hf1), Hsum, String.eqb_refl.
  unfold crate_license, bind, open_rb, getitem, assert_, contains, ret, raise.
  by rewrite Hf1, Hms, Hdoc, Hpackage, Hfile, Hlic.
Qed.

Lemma crate_without_license_raises_witness :
  exists w',
    fetch_crate "dist" ("baz", "3", SHA256.hexdigest (content Fixture.baz_3)) []
      Fixture.world_baz = (Raise (KeyError "license"), w')
    /\ files w' !! crate_path "dist" "baz" "3" = Some Fixture.baz_3.
Proof.
  apply (crate_without_license_raises "dist" "baz" "3" _ [] Fixture.world_baz
           Fixture.baz_3
           {[ "baz-3/Cargo.toml" := Some {[ "package" := Fixture.baz_manifest ]} ]}
           {[ "package" := Fixture.baz_manifest ]} Fixture.baz_manifest);
    reflexivity.
Defined.

Lemma fetch_crates_app distdir before after : forall acc w,
  fetch_crates distdir (before ++ after) acc w =
  bind (fetch_crates distdir before acc) (fun acc' => fetch_crates distdir after acc') w.
Proof.
  induction before as [|dep before IH]; intros acc w; [done|].
  cbn [app fetch_crates]. unfold bind.
  destruct (fetch_crate distdir dep acc w) as [[a|e] w1]; [|done].
  by rewrite IH.
Qed.

(** The loop for the one dependency of [Fixture.lock_foo]. *)
Lemma fetch_foo :
  fetch_crates "dist" Fixture.deps_foo [] Sample.world
  = (Ok Fixture.licenses_foo, Sample.world).
Proof.
  apply fetch_crates_cached.
  - repeat constructor. eexists. reflexivity.
  - vm_compute. reflexivity.
Qed.

(** X15: the loop ends at the first dependency that fails, with that
    dependency's exception and in the world it left: the dependencies after
    it are neither fetched nor read. *)
Theorem fetch_stops_at_first_failure distdir before dep after acc w acc1 w1 e w2 :
  fetch_crates distdir before acc w = (Ok acc1, w1) ->
  fetch_crate distdir dep acc1 w1 = (Raise e, w2) ->
  fetch_crates distdir (before ++ dep :: after) acc w = (Raise e, w2).
Proof.
  intros Hb Hd. rewrite fetch_crates_app. unfold bind at 1. rewrite Hb.
  cbn [fetch_crates]. unfold bind. by rewrite Hd.
Qed.

Lemma fetch_stops_at_first_failure_witness :
  fetch_crates "dist"
    (Fixture.deps_foo ++ [("foo", "1", "0000"); ("bar", "2", Sample.sha_bar)])
    [] Sample.world
  = (Raise (AssertionError
       (checksum_message "dist/foo-1.crate" Sample.sha_foo "0000")), Sample.world).
Proof.
  apply (fetch_stops_at_first_failure "dist" Fixture.deps_foo ("foo", "1", "0000")
           [("bar", "2", Sample.sha_bar)] [] Sample.world Fixture.licenses_foo
           Sample.world).
  - exact fetch_foo.
  - rewrite (fetch_crate_present "dist" "foo" "1" "0000" _ Sample.world Sample.foo_1
               eq_refl).
    vm_compute. reflexivity.
Defined.

Lemma fetch_crate_ok distdir p v csum acc w s w1 :
  fetch_crate distdir (p, v, csum) acc w = (Ok s, w1) ->
  exists f l,
    files w1 !! crate_path distdir p v = Some f
    /\ SHA256.hexdigest (content f) = csum
    /\ (crate_license (crate_path distdir p v)
          (p +:+ "-" +:+ v +:+ "/Cargo.toml") w1).1 = Ok l
    /\ s = set_add (cargo_to_spdx l) acc
    /\ fetch_crate distdir (p, v, csum) acc w1 = (Ok s, w1).
Proof.
  intros H.
  assert (exists f, files w1 !! crate_path distdir p v = Some f
                    /\ fetch_crate distdir (p, v, csum) acc w1 = (Ok s, w1))
    as (f & Hf & H1).
  { destruct (files w !! crate_path distdir p v) as [f|] eqn:Hp.
    - pose proof (fetch_crate_present_world distdir p v csum acc w f Hp) as Hw.
      rewrite H in Hw. cbn [snd] in Hw. subst w1. by exists f.
    - destruct (remote w !! crate_url p v) as [f|] eqn:Hr.
      + rewrite (fetch_crate_absent _ _ _ _ _ _ _ Hp Hr) in H.
        pose proof (downloaded_present (crate_path distdir p v) (crate_url p v) f w)
          as Hf.
        pose proof (fetch_crate_present_world distdir p v csum acc _ f Hf) as Hw.
        rewrite H in Hw. cbn [snd] in Hw. subst w1. by exists f.
      + by rewrite (fetch_crate_unavailable _ _ _ _ _ _ Hp Hr) in H. }
  pose proof H1 as H2.
  rewrite (fetch_crate_present _ _ _ _ _ _ _ Hf) in H2.
  destruct (String.eqb _ csum) eqn:E; [|done]. apply String.eqb_eq in E.
  destruct (crate_license _ _ w1) as [[l|e] w2] eqn:El; [|done].
  exists f, l. by simplify_eq.
Qed.

Lemma crate_license_files path member w w2 :
  files w !! path = files w2 !! path ->
  (crate_license path member w).1 = (crate_license path member w2).1.
Proof.
  intros H. unfold crate_license, bind, open_rb. rewrite <- H.
  destruct (files w !! path) as [f|]; [|done].
  destruct (members f) as [ms|]; [|done]. unfold getitem.
  destruct (ms !! member) as [[doc|]|]; try done. unfold ret, raise.
  destruct (doc !! "package") as [package|]; [|done].
  unfold assert_, ret, raise. destruct (negb _); [|done].
  by destruct (package !! "license").
Qed.

Lemma crate_license_weaken path member w w2 f :
  files w !! path = Some f -> files w ⊆ files w2 ->
  (crate_license path member w2).1 = (crate_license path member w).1.
Proof.
  intros Hf Hsub. apply crate_license_files.
  by rewrite Hf, (lookup_weaken _ _ _ _ Hf Hsub).
Qed.

Lemma fetch_crates_ok distdir deps : forall acc w s w',
  fetch_crates distdir deps acc w = (Ok s, w') ->
  acc ⊆ s
  /\ (forall p v csum, (p, v, csum) ∈ deps ->
        exists f l,
          files w' !! crate_path distdir p v = Some f
          /\ SHA256.hexdigest (content f) = csum
          /\ (crate_license (crate_path distdir p v)
                (p +:+ "-" +:+ v +:+ "/Cargo.toml") w').1 = Ok l
          /\ cargo_to_spdx l ∈ s)
  /\ (forall x, x ∈ s ->
        x ∈ acc
        \/ exists p v csum l,
             (p, v, csum) ∈ deps
             /\ (crate_license (crate_path distdir p v)
                   (p +:+ "-" +:+ v +:+ "/Cargo.toml") w').1 = Ok l
             /\ x = cargo_to_spdx l).
Proof.
  induction deps as [|[[p v] csum] deps IH]; intros acc w s w' H.
  - cbn in H. unfold ret in H. simplify_eq. split; [done|]. split.
    + intros p v csum Hin. by apply elem_of_nil in Hin.
    + intros x Hx. by left.
  - cbn [fetch_crates] in H. unfold bind in H.
    destruct (fetch_crate distdir (p, v, csum) acc w) as [[a|e] w1] eqn:E; [|done].
    destruct (fetch_crate_ok _ _ _ _ _ _ _ _ E) as (f & l & Hf & Hsum & Hl & -> & _).
    destruct (IH _ _ _ _ H) as (Hsub & Hdeps & Hs).
    pose proof (fetch_crates_extends distdir deps (set_add (cargo_to_spdx l) acc) w1) as He.
    rewrite H in He. cbn [snd] in He. destruct He as (Hfiles & _).
    assert ((crate_license (crate_path distdir p v)
               (p +:+ "-" +:+ v +:+ "/Cargo.toml") w').1 = Ok l) as Hl'
      by (by rewrite (crate_license_weaken _ _ _ _ _ Hf Hfiles)).
    split; [|split].
    + intros x Hx. apply Hsub, elem_of_set_add. by right.
    + intros p' v' c' [[= -> -> ->]|Hin]%elem_of_cons; [|by apply Hdeps].
      exists f, l. split; [by eapply lookup_weaken|]. split; [done|]. split; [done|].
      apply Hsub, elem_of_set_add. by left.
    + intros x [[Hx|Hx]%elem_of_set_add|(p' & v' & c' & l' & Hin & Hl'' & ->)]%Hs.
      * subst x. right. exists p, v, csum, l.
        split; [left|done].
      * by left.
      * right. exists p', v', c', l'. split; [by right|done].
Qed.

(** X16: when the loop succeeds, the directory holds, for every dependency,
    an archive whose digest is the dependency's checksum and whose manifest
    declares a license, and the converted license is in the set. *)
Theorem successful_loop_leaves_verified_archives
    distdir deps acc w s w' p v csum :
  fetch_crates distdir deps acc w = (Ok s, w') ->
  (p, v, csum) ∈ deps ->
  exists f l,
    files w' !! crate_path distdir p v = Some f
    /\ SHA256.hexdigest (content f) = csum
    /\ (crate_license (crate_path distdir p v)
          (p +:+ "-" +:+ v +:+ "/Cargo.toml") w').1 = Ok l
    /\ cargo_to_spdx l ∈ s.
Proof. intros H Hin. by apply (fetch_crates_ok _ _ _ _ _ _ H). Qed.

Lemma successful_loop_leaves_verified_archives_witness :
  exists f l,
    files Sample.world !! crate_path "dist" "foo" "1" = Some f
    /\ SHA256.hexdigest (content f) = Sample.sha_foo
    /\ (crate_license (crate_path "dist" "foo" "1")
          ("foo" +:+ "-" +:+ "1" +:+ "/Cargo.toml") Sample.world).1 = Ok l
    /\ cargo_to_spdx l ∈ Fixture.licenses_foo.
Proof.
  apply (successful_loop_leaves_verified_archives "dist" Fixture.deps_foo []
           Sample.world Fixture.licenses_foo Sample.world "foo" "1" Sample.sha_foo).
  - exact fetch_foo.
  - left.
Defined.

(** X17: every license in the set the loop returns is the conversion of
    the license that the manifest of some dependency declares. *)
Theorem collected_licenses_come_from_manifests
    distdir deps w s w' x :
  fetch_crates distdir deps [] w = (Ok s, w') ->
  x ∈ s ->
  exists p v csum l,
    (p, v, csum) ∈ deps
    /\ (crate_license (crate_path distdir p v)
          (p +:+ "-" +:+ v +:+ "/Cargo.toml") w').1 = Ok l
    /\ x = cargo_to_spdx l.
Proof.
  intros H Hx. destruct (fetch_crates_ok _ _ _ _ _ _ H) as (_ & _ & Hs).
  destruct (Hs x Hx) as [Hacc|?]; [|done]. by apply elem_of_nil in Hacc.
Qed.

Lemma collected_licenses_come_from_manifests_witness :
  exists p v csum l,
    (p, v, csum) ∈ Fixture.deps_foo
    /\ (crate_license (crate_path "dist" p v)
          (p +:+ "-" +:+ v +:+ "/Cargo.toml") Sample.world).1 = Ok l
    /\ "(BSD-3-Clause OR MIT) AND Unicode-DFS-2016" = cargo_to_spdx l.
Proof.
  apply (collected_licenses_come_from_manifests "dist" Fixture.deps_foo Sample.world
           Fixture.licenses_foo Sample.world).
  - exact fetch_foo.
  - unfold Fixture.licenses_foo, Fixture.deps_foo. cbn [map foldl].
    apply elem_of_set_add. left. vm_compute. reflexivity.
Defined.

(** X18: a dependency under the license of the package, wherever it stands
    among the dependencies, adds nothing to the addendum. *)
Theorem dependency_under_package_license_adds_nothing
    (lic : Licensing) (pkg_license l : string) (before after : list string)
    (w w' : World) :
  parses_conjunctions lic ->
  simplify_commutes lic ->
  members_parse lic pkg_license (crate_license_set (before ++ after)) ->
  cargo_to_spdx l = pkg_license ->
  (crate_license_addendum lic pkg_license
     (crate_license_set (before ++ l :: after)) w).1
  = (crate_license_addendum lic pkg_license
       (crate_license_set (before ++ after)) w').1.
Proof.
  intros Hconj Hcomm Hparse Hl.
  apply addendum_canonical; try done; try apply NoDup_crate_license_set.
  - intros x (l' & Hl' & ->)%elem_of_crate_license_set Hx.
    apply Hparse; [|done]. apply elem_of_crate_license_set. exists l'.
    split; [|done]. apply elem_of_app in Hl' as [?|[->|?]%elem_of_cons].
    + apply elem_of_app. by left.
    + done.
    + apply elem_of_app. by right.
  - intros x Hx. rewrite !elem_of_crate_license_set. split.
    + intros (l' & Hl' & ->). exists l'. split; [|done].
      apply elem_of_app in Hl' as [?|[->|?]%elem_of_cons].
      * apply elem_of_app. by left.
      * done.
      * apply elem_of_app. by right.
    + intros (l' & Hl' & ->). exists l'. split; [|done].
      apply elem_of_app in Hl' as [?|?]; apply elem_of_app; [by left|].
      right. by right.
Qed.

Lemma dependency_under_package_license_adds_nothing_witness :
  (crate_license_addendum spdx "Apache-2.0 OR MIT"
     (crate_license_set (["ISC"] ++ "Apache-2.0/MIT" :: ["Zlib"])) Sample.world).1
  = (crate_license_addendum spdx "Apache-2.0 OR MIT"
       (crate_license_set (["ISC"] ++ ["Zlib"])) Fixture.world_baz).1.
Proof.
  apply (dependency_under_package_license_adds_nothing spdx "Apache-2.0 OR MIT"
           "Apache-2.0/MIT" ["ISC"] ["Zlib"] Sample.world Fixture.world_baz).
  - exact spdx_parses_conjunctions.
  - exact spdx_simplify_commutes.
  - intros x Hx _. repeat (apply elem_of_cons in Hx as [->|Hx]).
    + by eexists.
    + by eexists.
    + by apply elem_of_nil in Hx.
  - reflexivity.
Defined.

(** ** More on runs of [get_ebuild] *)

(** The steps of a run that succeeds. *)
Lemma get_ebuild_ok_intro
    lic prog_version cargo_toml cargo_lock distdir w w'
    pkgmeta pkg_license e packages deps s order e' homepage :
  cargo_toml !! "package" = Some pkgmeta ->
  contains pkgmeta "license_file" = false ->
  pkgmeta !! "license" = Some pkg_license ->
  parse lic pkg_license = Parsed e ->
  lock_version cargo_lock = Some 3%Z ->
  lock_package cargo_lock = Some packages ->
  (lock_deps pkgmeta packages w).1 = Ok deps ->
  fetch_crates distdir deps [] w = (Ok s, w') ->
  iteration s pkg_license w' = (Ok order, w') ->
  parse lic (combined_license order) = Parsed e' ->
  pkgmeta !! "homepage" = Some homepage ->
  get_ebuild lic prog_version cargo_toml cargo_lock distdir w =
    (Ok (EBUILD_TEMPLATE (decimal (year w')) prog_version (render_crates deps)
           (default "" (pkgmeta !! "description")) homepage
           (spdx_to_ebuild e) (spdx_to_ebuild (simplify lic e'))), w').
Proof.
  intros Hpkg Hfile Hlic Hparse Hver Hpackages Hdeps Hfetch Horder Hparse' Hhome.
  unfold get_ebuild, crate_license_addendum, spdx_parse, bind, getitem, assert_,
    today_year, ret, raise.
  rewrite Hpkg, Hfile, Hlic, Hparse, Hver, Hpackages. cbn [negb Z.eqb Pos.eqb].
  rewrite (lock_deps_eq pkgmeta packages w), Hdeps, Hfetch, Horder, Hparse', Hhome.
  reflexivity.
Qed.

Lemma readable_cached distdir w deps :
  forallb (readable distdir w) deps = true -> Forall (cached distdir w) deps.
Proof.
  rewrite forallb_forall, Forall_forall. intros H dep Hin%list_elem_of_In.
  specialize (H dep Hin). unfold readable, cached_license, cached in *.
  by destruct (files w !! _).
Qed.

(** X19: with the manifest and the lock file in order, with the archive of
    every dependency in the directory, of the right digest and with a
    license in its manifest, and with each of these licenses, the license of
    the package apart, an expression of its own (and at least one of them),
    a run returns the template filled in with the dependencies in the order
    of the lock file and with the simplified conjunction of their licenses,
    in whatever order the set is iterated; it fetches nothing and leaves
    the world as it is. *)
Theorem get_ebuild_succeeds_offline
    lic prog_version cargo_toml cargo_lock distdir w
    pkgmeta self pkg_license e packages es homepage :
  parses_conjunctions lic ->
  simplify_commutes lic ->
  cargo_toml !! "package" = Some pkgmeta ->
  contains pkgmeta "license_file" = false ->
  pkgmeta !! "name" = Some self ->
  pkgmeta !! "license" = Some pkg_license ->
  pkgmeta !! "homepage" = Some homepage ->
  parse lic pkg_license = Parsed e ->
  lock_version cargo_lock = Some 3%Z ->
  lock_package cargo_lock = Some packages ->
  Forall (complete self) packages ->
  let deps := map lock_entry (List.filter (is_dependency self) packages) in
  forallb (readable distdir w) deps = true ->
  let licenses :=
    set_discard pkg_license
      (crate_license_set (map (declared_license distdir w) deps)) in
  licenses <> [] ->
  Forall2 (fun x e => parse lic x = Parsed e) licenses es ->
  get_ebuild lic prog_version cargo_toml cargo_lock distdir w =
    (Ok (EBUILD_TEMPLATE (decimal (year w)) prog_version (render_crates deps)
           (default "" (pkgmeta !! "description")) homepage
           (spdx_to_ebuild e)
           (spdx_to_ebuild (simplify lic (LicenseExpression.chain And es)))), w).
Proof.
  intros Hconj Hcomm Hpkg Hfile Hname Hlic Hhome Hparse Hver Hpackages Hcomplete
    deps Hread licenses Hne Hes.
  destruct (iteration_spec (crate_license_set (map (declared_license distdir w) deps))
              pkg_license w (NoDup_crate_license_set _))
    as (order & Ho & Hnd & Hin).
  assert (order ≡ₚ licenses) as Hperm.
  { apply NoDup_Permutation;
      [done|apply NoDup_set_discard, NoDup_crate_license_set|].
    intros x. unfold licenses. by rewrite Hin, elem_of_set_discard. }
  destruct (Forall2_expression_of _ _ _ Hes) as [-> Hall].
  rewrite <- (Hcomm (map (expression_of lic) order) (map (expression_of lic) licenses))
    by (by apply fmap_Permutation).
  eapply get_ebuild_ok_intro; try done.
  - by rewrite (lock_deps_filter pkgmeta self packages w Hname Hcomplete).
  - apply fetch_crates_cached; [by apply readable_cached|done].
  - apply Hconj.
    + intros ->. by apply Permutation_nil_l in Hperm.
    + apply members_parse_Forall2. intros x Hx. apply Hall. by rewrite <- Hperm.
Qed.

Lemma get_ebuild_succeeds_offline_witness :
  exists ebuild,
    get_ebuild spdx "0.1" Sample.cargo_toml Fixture.lock_foo "dist" Sample.world
    = (Ok ebuild, Sample.world).
Proof.
  eexists.
  apply (get_ebuild_succeeds_offline spdx "0.1" Sample.cargo_toml Fixture.lock_foo
           "dist" Sample.world
           {[ "name" := "pkg"; "license" := "Apache-2.0 OR MIT";
              "homepage" := "https://example.com" ]}
           "pkg" "Apache-2.0 OR MIT"
           (Or [Sym "Apache-2.0"; Sym "MIT"])
           [ {[ "name" := "foo"; "version" := "1"; "checksum" := Sample.sha_foo ]};
             {[ "name" := "pkg"; "version" := "1.2.3" ]} ]
           [ And [Or [Sym "BSD-3-Clause"; Sym "MIT"]; Sym "Unicode-DFS-2016"] ]
           "https://example.com").
  - exact spdx_parses_conjunctions.
  - exact spdx_simplify_commutes.
  - reflexivity.
  - vm_compute; reflexivity.
  - vm_compute; reflexivity.
  - vm_compute; reflexivity.
  - vm_compute; reflexivity.
  - vm_compute; reflexivity.
  - vm_compute; reflexivity.
  - reflexivity.
  - repeat (constructor;
      [split; [eexists; reflexivity
              |intros H; first [by vm_compute in H
                               |split; eexists; reflexivity]]|]).
    constructor.
  - vm_compute; reflexivity.
  - vm_compute. discriminate.
  - assert (set_discard "Apache-2.0 OR MIT"
              (crate_license_set
                 (map (declared_license "dist" Sample.world)
                    (map lock_entry
                       (List.filter (is_dependency "pkg")
                          [ {[ "name" := "foo"; "version" := "1";
                               "checksum" := Sample.sha_foo ]};
                            {[ "name" := "pkg"; "version" := "1.2.3" ]} ]))))
            = ["(BSD-3-Clause OR MIT) AND Unicode-DFS-2016"]) as ->
      by (vm_compute; reflexivity).
    constructor; [vm_compute; reflexivity|constructor].
Defined.

(** A turn of the loop that succeeds leaves the archive in the cache, and
    succeeds again wherever that archive is. *)
Lemma fetch_crate_stable distdir p v csum acc w s w1 w2 :
  fetch_crate distdir (p, v, csum) acc w = (Ok s, w1) ->
  files w1 ⊆ files w2 ->
  fetch_crate distdir (p, v, csum) acc w2 = (Ok s, w2).
Proof.
  intros H Hsub.
  destruct (fetch_crate_ok _ _ _ _ _ _ _ _ H) as (f & l & Hf & Hsum & Hl & -> & _).
  assert (files w2 !! crate_path distdir p v = Some f) as Hf2
    by (by eapply lookup_weaken).
  rewrite (fetch_crate_present _ _ _ _ _ _ _ Hf2), Hsum, String.eqb_refl.
  pose proof (crate_license_weaken _ (p +:+ "-" +:+ v +:+ "/Cargo.toml") _ _ _ Hf Hsub)
    as Hl2.
  rewrite Hl in Hl2.
  destruct (crate_license _ _ w2) as [[l'|e'] ?]; cbn [fst] in Hl2; by simplify_eq.
Qed.

Lemma fetch_crates_stable distdir deps : forall acc w s w',
  fetch_crates distdir deps acc w = (Ok s, w') ->
  forall w2, files w' ⊆ files w2 -> fetch_crates distdir deps acc w2 = (Ok s, w2).
Proof.
  induction deps as [|[[p v] csum] deps IH]; intros acc w s w' H w2 Hsub.
  - cbn in *. unfold ret in *. by simplify_eq.
  - cbn [fetch_crates] in *. unfold bind in *.
    destruct (fetch_crate distdir (p, v, csum) acc w) as [[a|e] w1] eqn:E; [|done].
    pose proof (fetch_crates_extends distdir deps a w1) as He.
    rewrite H in He. cbn [snd] in He. destruct He as (Hsub1 & _).
    rewrite (fetch_crate_stable _ _ _ _ _ _ _ _ w2 E) by (by etrans).
    by eapply IH.
Qed.

(** X20: once the loop over the dependencies has succeeded, it succeeds
    again over the same dependencies in any world that still holds the
    files it left, whatever has been added to them: it fetches nothing,
    leaves that world as it is and collects the same set of licenses. *)
Theorem second_run_is_served_from_cache distdir deps acc w s w' w2 :
  fetch_crates distdir deps acc w = (Ok s, w') ->
  files w' ⊆ files w2 ->
  fetch_crates distdir deps acc w2 = (Ok s, w2).
Proof. intros H Hsub. by apply (fetch_crates_stable _ _ _ _ _ _ H). Qed.

Lemma second_run_is_served_from_cache_witness :
  downloads Fixture.world_fetched = [crate_url "bar" "2"]
  /\ fetch_crates "dist" Fixture.deps_both [] Fixture.world_fetched
     = (Ok ["(BSD-3-Clause OR MIT) AND Unicode-DFS-2016"; "CC0-1.0 OR Unlicense"],
        Fixture.world_fetched).
Proof.
  split; [vm_compute; reflexivity|].
  apply (second_run_is_served_from_cache "dist" Fixture.deps_both []
           Sample.world _ Fixture.world_fetched Fixture.world_fetched); [|done].
  unfold Fixture.world_fetched.
  rewrite (surjective_pairing (fetch_crates "dist" Fixture.deps_both [] Sample.world))
    at 1.
  f_equal.
Defined.
